(** * The S3 storage driver of the registry (registry/storage/driver/s3/s3.go)

    A shallow embedding of the driver's operations ([GetContent],
    [PutContent], [ReadStream], [WriteStream], [Stat], [List], [Move],
    [Delete], [URLFor]), of its constructors and of its buffer pool, over
    an executable model of the remote object store; the properties of the
    driver stated by its specification, and further properties of the code.

    Program integers ([int], [int64]) are embedded as [Z].  Every quantity
    the driver computes is a byte count, an offset or a part number bounded
    by the sizes of the data at hand, so no 64-bit operation of the source
    wraps for offsets, chunk sizes and stream lengths below [2^63]. *)

From Stdlib Require Import ZArith List String Ascii Bool Lia Sorted.
From Stdlib Require Import OrdersEx RelationClasses.
From Stdlib Require Import Strings.Byte.
From Stdlib Require DecimalString.
Import ListNotations.

Local Open Scope Z_scope.

(** [length] is the length of a list below; a string's is [String.length]. *)
Abbreviation length := Datatypes.length.

(** ** Errors *)

(** The error values that travel through the driver: [io.EOF], a
    [*s3.Error] with its [Code], the driver's
    [storagedriver.PathNotFoundError], and any other error (a transport
    failure, a failing byte source). *)
Inductive error : Type :=
| EOF
| S3Error (Code : string)
| PathNotFoundError (Path : string)
| OtherError (msg : string).

Definition is_EOF (e : error) : bool :=
  match e with EOF => true | _ => false end.

(** The test "[err] is an s3.Error whose Code is [code]". *)
Definition isS3Code (e : error) (code : string) : bool :=
  match e with S3Error c => String.eqb c code | _ => false end.

(** ** Go's [strings] functions used by the driver *)
Module Strings.

Fixpoint inCutset (c : ascii) (cutset : string) : bool :=
  match cutset with
  | EmptyString => false
  | String a rest => Ascii.eqb a c || inCutset c rest
  end.

(** [strings.TrimLeft(s, cutset)] *)
Fixpoint TrimLeft (s cutset : string) : string :=
  match s with
  | EmptyString => EmptyString
  | String c rest => if inCutset c cutset then TrimLeft rest cutset else s
  end.

(** [strings.TrimRight(s, cutset)] *)
Fixpoint TrimRight (s cutset : string) : string :=
  match s with
  | EmptyString => EmptyString
  | String c rest =>
      match TrimRight rest cutset with
      | EmptyString => if inCutset c cutset then EmptyString else String c EmptyString
      | t => String c t
      end
  end.

(** [s[n:]] *)
Fixpoint drop (n : nat) (s : string) : string :=
  match n, s with
  | O, _ => s
  | S n', String _ rest => drop n' rest
  | S _, EmptyString => EmptyString
  end.

(** [strings.Replace(s, old, new, 1)]: the first occurrence of [old] in
    [s] is replaced by [new]; an empty [old] matches at the beginning. *)
Fixpoint Replace1 (s old new : string) : string :=
  if String.prefix old s then new ++ drop (String.length old) s
  else match s with
       | EmptyString => EmptyString
       | String c rest => String c (Replace1 rest old new)
       end.

(** [s[len(s)-1]], when [s] is not empty. *)
Fixpoint last (s : string) : option ascii :=
  match s with
  | EmptyString => None
  | String c EmptyString => Some c
  | String _ rest => last rest
  end.

(** [s[0:len(s)-1]] *)
Fixpoint dropLast (s : string) : string :=
  match s with
  | EmptyString => EmptyString
  | String _ EmptyString => EmptyString
  | String c rest => String c (dropLast rest)
  end.

(** The byte-wise lexical order of keys. *)
Definition lt (a b : string) : Prop := String_as_OT.lt a b.
Definition le (a b : string) : Prop := a = b \/ lt a b.
Definition ltb (a b : string) : bool :=
  match String_as_OT.compare a b with Lt => true | _ => false end.

End Strings.

(** ** Byte sources

    An [io.Reader]: the bytes it still holds, the error it reports once
    they are exhausted ([None] for a clean end, reported as [io.EOF]), the
    largest count each successive [Read] call is willing to deliver (a
    short read; no entry means as much as fits), and whether the end is
    reported together with the last bytes or by a further call. *)
Record Reader : Type := {
  rd_data : list byte;
  rd_fail : option error;
  rd_grain : list nat;
  rd_eager : bool
}.

Definition end_error (r : Reader) : error :=
  match rd_fail r with Some e => e | None => EOF end.

(** [r.Read(p)] with [len(p) = n]: the bytes stored into [p], the error and
    the reader afterwards.  A call delivers at least one byte when [p] is
    not empty and data remain. *)
Definition Read (r : Reader) (n : nat) : list byte * option error * Reader :=
  match rd_data r with
  | [] => ([], Some (end_error r), r)
  | _ :: _ =>
      let k := Nat.min n (match rd_grain r with [] => n | g :: _ => S g end) in
      let rest := skipn k (rd_data r) in
      (firstn k (rd_data r),
       match rest with
       | [] => if rd_eager r then Some (end_error r) else None
       | _ :: _ => None
       end,
       {| rd_data := rest; rd_fail := rd_fail r;
          rd_grain := tl (rd_grain r); rd_eager := rd_eager r |})
  end.

(** [bytes.NewReader(b)] *)
Definition NewReader (b : list byte) : Reader :=
  {| rd_data := b; rd_fail := None; rd_grain := []; rd_eager := false |}.

(** [len(x)] as a program integer. *)
Definition len {A : Type} (l : list A) : Z := Z.of_nat (length l).

(** The effect on [buf] of a read into [buf[pos:...]] that stored [data]. *)
Definition write_at (buf : list byte) (pos : Z) (data : list byte) : list byte :=
  firstn (Z.to_nat pos) buf ++ data ++ skipn (Z.to_nat pos + length data) buf.

(** [buf[0:n]] *)
Definition slice_to (buf : list byte) (n : Z) : list byte :=
  firstn (Z.to_nat n) buf.

(** ** The remote object store

    Modelled from the spec: the object-store client (the goamz [s3]
    package behind [d.Bucket]) is an external collaborator and not part of
    the sources.  The model follows the spec's backend protocol
    assumptions: whole-object and ranged reads, a size probe, paginated
    listing in key order with a delimiter and a continuation marker,
    bulk delete, and multipart uploads assembled from numbered parts by a
    single completion call, every part but the last being at least the
    minimum part size.  Any request may fail: a script of injected
    failures, one entry per request, decides which. *)
Module S3.

Record Object : Type := { Data : list byte; LastModified : string }.

Inductive UploadState : Type := Pending | Completed | Aborted.

(** A multipart session: its target key, the parts uploaded so far by
    part number, and whether it is still open. *)
Record Upload : Type := {
  up_key : string;
  up_parts : list (Z * list byte);
  up_state : UploadState
}.

(** [s3.Part]: number, checksum and size.  The checksum is modelled by the
    data it identifies (a checksum without collisions). *)
Record Part : Type := { PartN : Z; ETag : list byte; Size : Z }.

(** [s3.Key] *)
Record Key : Type := { KeyName : string; KeySize : Z; KeyLastModified : string }.

(** [s3.ListResp] *)
Record ListResp : Type := {
  Contents : list Key;
  CommonPrefixes : list string;
  IsTruncated : bool;
  NextMarker : string
}.

(** The handle of a multipart session ([*s3.Multi]). *)
Definition Multi : Type := nat.

Record Bucket : Type := {
  objects : list (string * Object);   (* in ascending key order *)
  uploads : list Upload;
  faults : list (option error);
  min_part : Z;
  clock : string;
  body_grain : list nat
}.

Definition set_objects (b : Bucket) (o : list (string * Object)) : Bucket :=
  {| objects := o; uploads := uploads b; faults := faults b;
     min_part := min_part b; clock := clock b; body_grain := body_grain b |}.

Definition set_uploads (b : Bucket) (u : list Upload) : Bucket :=
  {| objects := objects b; uploads := u; faults := faults b;
     min_part := min_part b; clock := clock b; body_grain := body_grain b |}.

Definition set_faults (b : Bucket) (f : list (option error)) : Bucket :=
  {| objects := objects b; uploads := uploads b; faults := f;
     min_part := min_part b; clock := clock b; body_grain := body_grain b |}.

(** Every request first consults the failure script. *)
Definition request {A : Type} (b : Bucket)
    (serve : Bucket -> Bucket * (A + error)) : Bucket * (A + error) :=
  match faults b with
  | Some e :: rest => (set_faults b rest, inr e)
  | None :: rest => serve (set_faults b rest)
  | [] => serve b
  end.

(** *** The key-value store *)

Fixpoint lookup (k : string) (s : list (string * Object)) : option Object :=
  match s with
  | [] => None
  | (k', o) :: rest => if String.eqb k' k then Some o else lookup k rest
  end.

Fixpoint put (k : string) (o : Object) (s : list (string * Object))
    : list (string * Object) :=
  match s with
  | [] => [(k, o)]
  | (k', o') :: rest =>
      if Strings.ltb k k' then (k, o) :: s
      else if String.eqb k' k then (k, o) :: rest
      else (k', o') :: put k o rest
  end.

Definition remove_all (ks : list string) (s : list (string * Object))
    : list (string * Object) :=
  filter (fun ko => negb (existsb (String.eqb (fst ko)) ks)) s.

(** *** Requests on objects *)

(** [Bucket.Head]: the [ContentLength] of the object. *)
Definition Head (b : Bucket) (key : string) : Bucket * (Z + error) :=
  request b (fun b =>
    match lookup key (objects b) with
    | Some o => (b, inl (len (Data o)))
    | None => (b, inr (S3Error "NoSuchKey"))
    end).

(** [Bucket.GetResponseWithHeaders] with the header [Range: bytes=offset-]:
    the response body.  A range that starts at or beyond the end of the
    object is refused as [InvalidRange]. *)
Definition GetResponseWithHeaders (b : Bucket) (key : string) (offset : Z)
    : Bucket * (Reader + error) :=
  request b (fun b =>
    match lookup key (objects b) with
    | None => (b, inr (S3Error "NoSuchKey"))
    | Some o =>
        if len (Data o) <=? offset then (b, inr (S3Error "InvalidRange"))
        else (b, inl {| rd_data := skipn (Z.to_nat offset) (Data o);
                        rd_fail := None;
                        rd_grain := body_grain b;
                        rd_eager := false |})
    end).

(** [Bucket.DelMulti]: removes the listed keys. *)
Definition DelMulti (b : Bucket) (keys : list string) : Bucket * (unit + error) :=
  request b (fun b => (set_objects b (remove_all keys (objects b)), inl tt)).

(** [Bucket.Get]: the bytes of the object. *)
Definition Get (b : Bucket) (key : string) : Bucket * (list byte + error) :=
  request b (fun b =>
    match lookup key (objects b) with
    | Some o => (b, inl (Data o))
    | None => (b, inr (S3Error "NoSuchKey"))
    end).

(** [Bucket.Put]: the object at [key] becomes [data], whatever the key
    held. *)
Definition Put (b : Bucket) (key : string) (data : list byte)
    : Bucket * (unit + error) :=
  request b (fun b =>
    (set_objects b
       (put key {| Data := data; LastModified := clock b |} (objects b)),
     inl tt)).

(** [Bucket.PutCopy]: the object at [key] becomes a copy of the object at
    [source], a key of the same bucket. *)
Definition PutCopy (b : Bucket) (key source : string)
    : Bucket * (unit + error) :=
  request b (fun b =>
    match lookup source (objects b) with
    | None => (b, inr (S3Error "NoSuchKey"))
    | Some o =>
        (set_objects b
           (put key {| Data := Data o; LastModified := clock b |} (objects b)),
         inl tt)
    end).

(** *** Listing *)

Definition delim_char (delim : string) : option ascii :=
  match delim with
  | EmptyString => None
  | String c _ => Some c
  end.

Fixpoint has_delim (c : ascii) (s : string) : bool :=
  match s with
  | EmptyString => false
  | String a rest => Ascii.eqb a c || has_delim c rest
  end.

(** The part of [s] up to and including the first delimiter (all of [s]
    when it holds none). *)
Fixpoint head_seg (c : ascii) (s : string) : string :=
  match s with
  | EmptyString => EmptyString
  | String a rest =>
      if Ascii.eqb a c then String a EmptyString else String a (head_seg c rest)
  end.

Inductive entry : Type :=
| EKey (k : Key)
| EPrefix (p : string).

Definition entry_name (e : entry) : string :=
  match e with
  | EKey k => KeyName k
  | EPrefix p => p
  end.

Definition key_of (ko : string * Object) : Key :=
  {| KeyName := fst ko; KeySize := len (Data (snd ko));
     KeyLastModified := LastModified (snd ko) |}.

(** A key under [prefix] is listed itself, or through the common prefix
    that ends at the first delimiter after [prefix]. *)
Definition classify (prefix delim : string) (ko : string * Object) : entry :=
  let rest := Strings.drop (String.length prefix) (fst ko) in
  match delim_char delim with
  | Some c =>
      if has_delim c rest then EPrefix (prefix ++ head_seg c rest)
      else EKey (key_of ko)
  | None => EKey (key_of ko)
  end.

(** Consecutive keys that share a common prefix are rolled up into one
    entry. *)
Fixpoint collapse (es : list entry) : list entry :=
  match es with
  | [] => []
  | e :: tl =>
      match tl with
      | [] => [e]
      | e' :: _ =>
          if String.eqb (entry_name e) (entry_name e') then collapse tl
          else e :: collapse tl
      end
  end.

Definition under (prefix : string) (ko : string * Object) : bool :=
  String.prefix prefix (fst ko).

(** Everything a listing of [prefix] has to report, in key order. *)
Definition listing (s : list (string * Object)) (prefix delim : string)
    : list entry :=
  collapse (map (classify prefix delim) (filter (under prefix) s)).

(** The entries that sort after the marker. *)
Definition after_marker (marker : string) (es : list entry) : list entry :=
  match marker with
  | EmptyString => es
  | _ => filter (fun e => Strings.ltb marker (entry_name e)) es
  end.

Fixpoint keys_of (es : list entry) : list Key :=
  match es with
  | [] => []
  | EKey k :: tl => k :: keys_of tl
  | EPrefix _ :: tl => keys_of tl
  end.

Fixpoint prefixes_of (es : list entry) : list string :=
  match es with
  | [] => []
  | EKey _ :: tl => prefixes_of tl
  | EPrefix p :: tl => p :: prefixes_of tl
  end.

Definition last_name (es : list entry) : string :=
  match rev es with
  | [] => EmptyString
  | e :: _ => entry_name e
  end.

(** One page: at most [max] entries, whether more remain, and (when a
    delimiter is given) the marker that continues the listing. *)
Definition page (es : list entry) (delim : string) (max : nat) : ListResp :=
  let truncated := negb (Nat.leb (length es) max) in
  {| Contents := keys_of (firstn max es);
     CommonPrefixes := prefixes_of (firstn max es);
     IsTruncated := truncated;
     NextMarker :=
       match delim_char delim with
       | Some _ => if truncated then last_name (firstn max es) else EmptyString
       | None => EmptyString
       end |}.

(** [Bucket.List(prefix, delim, marker, max)] *)
Definition List (b : Bucket) (prefix delim marker : string) (max : Z)
    : Bucket * (ListResp + error) :=
  request b (fun b =>
    (b, inl (page (after_marker marker (listing (objects b) prefix delim))
                  delim (Z.to_nat max)))).

(** *** Multipart uploads *)

Fixpoint update_upload (id : nat) (f : Upload -> Upload) (us : list Upload)
    : list Upload :=
  match us, id with
  | [], _ => []
  | u :: rest, O => f u :: rest
  | u :: rest, S id' => u :: update_upload id' f rest
  end.

Definition pending (b : Bucket) (m : Multi) : option Upload :=
  match nth_error (uploads b) m with
  | Some u => match up_state u with Pending => Some u | _ => None end
  | None => None
  end.

(** A part uploaded again under a number already in use replaces it. *)
Fixpoint set_part (n : Z) (d : list byte) (ps : list (Z * list byte))
    : list (Z * list byte) :=
  match ps with
  | [] => [(n, d)]
  | (n', d') :: rest =>
      if n' =? n then (n, d) :: rest else (n', d') :: set_part n d rest
  end.

Fixpoint find_part (n : Z) (ps : list (Z * list byte)) : option (list byte) :=
  match ps with
  | [] => None
  | (n', d) :: rest => if n' =? n then Some d else find_part n rest
  end.

Definition etag (d : list byte) : list byte := d.

Fixpoint bytes_eqb (a b : list byte) : bool :=
  match a, b with
  | [], [] => true
  | x :: a', y :: b' => Byte.eqb x y && bytes_eqb a' b'
  | _, _ => false
  end.

Definition store_part (b : Bucket) (m : Multi) (n : Z) (d : list byte)
    : Bucket * (Part + error) :=
  match pending b m with
  | None => (b, inr (S3Error "NoSuchUpload"))
  | Some _ =>
      (set_uploads b
         (update_upload m
            (fun u => {| up_key := up_key u;
                         up_parts := set_part n d (up_parts u);
                         up_state := up_state u |})
            (uploads b)),
       inl {| PartN := n; ETag := etag d; Size := len d |})
  end.

(** [Bucket.InitMulti] *)
Definition InitMulti (b : Bucket) (key : string) : Bucket * (Multi + error) :=
  request b (fun b =>
    (set_uploads b
       (uploads b ++ [{| up_key := key; up_parts := []; up_state := Pending |}]),
     inl (length (uploads b)))).

(** [Multi.PutPart] *)
Definition PutPart (b : Bucket) (m : Multi) (n : Z) (d : list byte)
    : Bucket * (Part + error) :=
  request b (fun b => store_part b m n d).

(** [Multi.PutPartCopy]: a part made of the bytes [first..last] of an
    existing object ([None]: of the whole object). *)
Definition PutPartCopy (b : Bucket) (m : Multi) (n : Z)
    (range : option (Z * Z)) (source : string) : Bucket * (Part + error) :=
  request b (fun b =>
    match lookup source (objects b) with
    | None => (b, inr (S3Error "NoSuchKey"))
    | Some o =>
        match range with
        | None => store_part b m n (Data o)
        | Some (first, last) =>
            if (0 <=? first) && (first <=? last) && (last <? len (Data o))
            then store_part b m n
                   (firstn (Z.to_nat (last - first + 1))
                      (skipn (Z.to_nat first) (Data o)))
            else (b, inr (S3Error "InvalidRange"))
        end
    end).

Fixpoint ascending (ns : list Z) : bool :=
  match ns with
  | [] => true
  | a :: tl =>
      match tl with
      | [] => true
      | a' :: _ => (a <? a') && ascending tl
      end
  end.

(** The data of the listed parts, when each was uploaded under its number
    with the listed checksum. *)
Fixpoint gather (ups : list (Z * list byte)) (ps : list Part)
    : option (list (list byte)) :=
  match ps with
  | [] => Some []
  | p :: tl =>
      match find_part (PartN p) ups with
      | Some d =>
          if bytes_eqb (ETag p) (etag d)
          then option_map (cons d) (gather ups tl)
          else None
      | None => None
      end
  end.

(** Every part but the last is at least [min] bytes long. *)
Fixpoint sizes_ok (min : Z) (ds : list (list byte)) : bool :=
  match ds with
  | [] => true
  | d :: tl =>
      match tl with
      | [] => true
      | _ :: _ => (min <=? len d) && sizes_ok min tl
      end
  end.

(** [Multi.Complete]: the object at the session's key becomes the
    concatenation of the listed parts. *)
Definition Complete (b : Bucket) (m : Multi) (ps : list Part)
    : Bucket * (unit + error) :=
  request b (fun b =>
    match pending b m with
    | None => (b, inr (S3Error "NoSuchUpload"))
    | Some u =>
        match ps with
        | [] => (b, inr (S3Error "MalformedXML"))
        | _ :: _ =>
            if negb (ascending (map PartN ps))
            then (b, inr (S3Error "InvalidPartOrder"))
            else
              match gather (up_parts u) ps with
              | None => (b, inr (S3Error "InvalidPart"))
              | Some ds =>
                  if negb (sizes_ok (min_part b) ds)
                  then (b, inr (S3Error "EntityTooSmall"))
                  else
                    (set_uploads
                       (set_objects b
                          (put (up_key u)
                             {| Data := List.concat ds; LastModified := clock b |}
                             (objects b)))
                       (update_upload m
                          (fun u => {| up_key := up_key u;
                                       up_parts := up_parts u;
                                       up_state := Completed |})
                          (uploads b)),
                     inl tt)
              end
        end
    end).

(** [Multi.Abort] *)
Definition Abort (b : Bucket) (m : Multi) : Bucket * (unit + error) :=
  request b (fun b =>
    match pending b m with
    | None => (b, inr (S3Error "NoSuchUpload"))
    | Some _ =>
        (set_uploads b
           (update_upload m
              (fun u => {| up_key := up_key u;
                           up_parts := up_parts u;
                           up_state := Aborted |})
              (uploads b)),
         inl tt)
    end).

(** The state of a session, for the statements below. *)
Definition state_of (b : Bucket) (m : Multi) : option UploadState :=
  option_map up_state (nth_error (uploads b) m).

End S3.

(** ** Dynamically typed values

    The values of a [map[string]interface{}], by dynamic type: the types
    the driver's type assertions and its type switch tell apart, and
    [VOther] for a value of any other type. *)
Inductive value : Type :=
| VString (s : string)
| VBool (b : bool)
| VInt (n : Z)
| VInt32 (n : Z)
| VInt64 (n : Z)
| VUint (n : Z)
| VUint32 (n : Z)
| VUint64 (n : Z)
| VTime (t : Z)
| VOther (printed : string).

(** [m[key]], with [None] where the [ok] flag is false. *)
Fixpoint get (m : list (string * value)) (key : string) : option value :=
  match m with
  | [] => None
  | (k, v) :: rest => if String.eqb k key then Some v else get rest key
  end.

(** ** The driver *)
Module Driver.

Import S3.

(** The fields of [driver] the operations read.  [d.Bucket] is the state
    of the remote store, threaded through every operation; [d.pool] and
    [d.zeros] are described at [getbuf]. *)
Record driver : Type := {
  ChunkSize : Z;
  Encrypt : bool;
  RootDirectory : string
}.

Definition minChunkSize : Z := Z.shiftl 5 20.
Definition defaultChunkSize : Z := 2 * minChunkSize.
Definition listMax : Z := 1000.

Definition s3Path (d : driver) (path : string) : string :=
  Strings.TrimLeft (Strings.TrimRight (RootDirectory d) "/" ++ path) "/".

Definition parseError (path : string) (err : error) : error :=
  if isS3Code err "NoSuchKey" then PathNotFoundError path else err.

(** [S3BucketKey]: the key of the bucket a path of the driver stands for. *)
Definition S3BucketKey (d : driver) (path : string) : string := s3Path d path.

(** [d.zeros]: [ChunkSize] zero bytes. *)
Definition zeros (d : driver) : list byte :=
  repeat x00 (Z.to_nat (ChunkSize d)).

(** [d.getbuf()]: a buffer of [ChunkSize] bytes from the pool.  The pool
    allocates zeroed buffers and [putbuf] overwrites every buffer with
    [d.zeros] before returning it to the pool, so each buffer handed out
    holds [ChunkSize] zero bytes. *)
Definition getbuf (d : driver) : list byte := zeros d.

(** *** GetContent and PutContent *)

Definition GetContent (d : driver) (b : Bucket) (path : string)
    : Bucket * (list byte + error) :=
  match Get b (s3Path d path) with
  | (b', inr err) => (b', inr (parseError path err))
  | (b', inl content) => (b', inl content)
  end.

(** [parseError] leaves a [nil] error as it is. *)
Definition PutContent (d : driver) (b : Bucket) (path : string)
    (contents : list byte) : Bucket * option error :=
  match Put b (s3Path d path) contents with
  | (b', inr err) => (b', Some (parseError path err))
  | (b', inl _) => (b', None)
  end.

(** *** ReadStream *)

Definition ReadStream (d : driver) (b : Bucket) (path : string) (offset : Z)
    : Bucket * (Reader + error) :=
  match GetResponseWithHeaders b (s3Path d path) offset with
  | (b', inr err) =>
      if isS3Code err "InvalidRange" then (b', inl (NewReader []))
      else (b', inr (parseError path err))
  | (b', inl body) => (b', inl body)
  end.

(** *** Stat *)

(** [storagedriver.FileInfoFields] *)
Record FileInfo : Type := {
  Path : string;
  FileSize : Z;
  ModTime : Z;
  IsDir : bool
}.

Section Stat.

(** [time.Parse(time.RFC3339Nano, s)]: the instant a timestamp denotes,
    when it is well formed. *)
Variable time_Parse : string -> option Z.

Definition Stat (d : driver) (b : Bucket) (path : string)
    : Bucket * (FileInfo + error) :=
  match S3.List b (s3Path d path) "" "" 1 with
  | (b', inr err) => (b', inr err)
  | (b', inl listResponse) =>
      match Contents listResponse with
      | [k] =>
          if negb (String.eqb (KeyName k) (s3Path d path))
          then (b', inl {| Path := path; FileSize := 0; ModTime := 0; IsDir := true |})
          else
            match time_Parse (KeyLastModified k) with
            | None => (b', inr (OtherError "parsing time"))
            | Some timestamp =>
                (b', inl {| Path := path; FileSize := KeySize k;
                            ModTime := timestamp; IsDir := false |})
            end
      | _ =>
          if len (CommonPrefixes listResponse) =? 1
          then (b', inl {| Path := path; FileSize := 0; ModTime := 0; IsDir := true |})
          else (b', inr (PathNotFoundError path))
      end
  end.

End Stat.

(** *** List *)

(** The path a listed key or common prefix is reported under. *)
Definition reported (d : driver) (name : string) : string :=
  Strings.Replace1 name (s3Path d "")
    (if String.eqb (s3Path d "") "" then "/" else "")%string.

(** The loop of [List]: one page per iteration, for as long as the store
    reports truncation. *)
Fixpoint List_loop (fuel : nat) (d : driver) (b : Bucket) (path : string)
    (listResponse : ListResp) (files directories : list string)
    : option (Bucket * (list string + error)) :=
  match fuel with
  | O => None
  | S fuel' =>
      let files := files ++ map (fun key => reported d (KeyName key))
                                (Contents listResponse) in
      let directories :=
        directories ++ map (fun commonPrefix => reported d (Strings.dropLast commonPrefix))
                           (CommonPrefixes listResponse) in
      if IsTruncated listResponse then
        match S3.List b (s3Path d path) "/" (NextMarker listResponse) listMax with
        | (b', inr err) => Some (b', inr err)
        | (b', inl listResponse') =>
            List_loop fuel' d b' path listResponse' files directories
        end
      else Some (b, inl (files ++ directories))
  end.

(** [List]; an empty [path] makes [path[len(path)-1]] panic: no result. *)
Definition List (fuel : nat) (d : driver) (b : Bucket) (path : string)
    : option (Bucket * (list string + error)) :=
  match Strings.last path with
  | None => None
  | Some c =>
      let path :=
        if negb (String.eqb path "/") && negb (Ascii.eqb c "/")
        then (path ++ "/")%string else path in
      match S3.List b (s3Path d path) "/" "" listMax with
      | (b', inr err) => Some (b', inr err)
      | (b', inl listResponse) => List_loop fuel d b' path listResponse [] []
      end
  end.

(** *** Delete *)

Fixpoint Delete_loop (fuel : nat) (d : driver) (b : Bucket) (path : string)
    (listResponse : ListResp) : option (Bucket * option error) :=
  match fuel with
  | O => None
  | S fuel' =>
      if 0 <? len (Contents listResponse) then
        match DelMulti b (map KeyName (Contents listResponse)) with
        | (b', inr _) => Some (b', None)
        | (b', inl _) =>
            match S3.List b' (s3Path d path) "" "" listMax with
            | (b'', inr err) => Some (b'', Some err)
            | (b'', inl listResponse') =>
                Delete_loop fuel' d b'' path listResponse'
            end
        end
      else Some (b, None)
  end.

Definition Delete (fuel : nat) (d : driver) (b : Bucket) (path : string)
    : option (Bucket * option error) :=
  match S3.List b (s3Path d path) "" "" listMax with
  | (b', inr _) => Some (b', Some (PathNotFoundError path))
  | (b', inl listResponse) =>
      if len (Contents listResponse) =? 0
      then Some (b', Some (PathNotFoundError path))
      else Delete_loop fuel d b' path listResponse
  end.

(** *** Move *)

Definition Move (fuel : nat) (d : driver) (b : Bucket)
    (sourcePath destPath : string) : option (Bucket * option error) :=
  match PutCopy b (s3Path d destPath) (s3Path d sourcePath) with
  | (b', inr err) => Some (b', Some (parseError sourcePath err))
  | (b', inl _) => Delete fuel d b' sourcePath
  end.

(** *** URLFor *)

(** [storagedriver.ErrUnsupportedMethod] *)
Definition ErrUnsupportedMethod : error := OtherError "unsupported method".

(** [20 * time.Minute], in nanoseconds. *)
Definition twentyMinutes : Z := 20 * (60 * 1000000000).

Section URLFor.

(** [Bucket.SignedURLWithMethod(method, path, expires, nil, nil)] *)
Variable SignedURLWithMethod : string -> string -> Z -> string.

(** [now] is the instant [time.Now()] returns. *)
Definition URLFor (d : driver) (now : Z) (path : string)
    (options : list (string * value)) : string + error :=
  let methodString :=
    match get options "method" with
    | None => inl "GET"%string
    | Some (VString m) =>
        if negb (String.eqb m "GET") && negb (String.eqb m "HEAD")
        then inr ErrUnsupportedMethod else inl m
    | Some _ => inr ErrUnsupportedMethod
    end in
  match methodString with
  | inr err => inr err
  | inl methodString =>
      let expiresTime :=
        match get options "expiry" with
        | Some (VTime et) => et
        | _ => now + twentyMinutes
        end in
      inl (SignedURLWithMethod methodString (s3Path d path) expiresTime)
  end.

End URLFor.

(** *** WriteStream *)

(** The variables of a [WriteStream] call, with the state of the store and
    of the byte source.

    The upload of a filled buffer runs in a goroutine that reports through
    [putErrChan], and the call waits for that report before it starts the
    next upload or completes the session: at most one upload is in flight
    and the requests to the store are totally ordered.  The embedding
    therefore runs each upload when it is started and keeps its report in
    [putErrChan] until the call receives it: [None] is the nil channel,
    [Some r] a channel on which the report [r] is waiting.  A goroutine
    whose upload failed appends its zero-valued part to [parts] only after
    its report was received; [released] records that such a goroutine is
    running, unsynchronised with the rest of the call. *)
Record wstate : Type := {
  partNumber : Z;
  bytesRead : Z;
  putErrChan : option (option error);
  parts : list Part;
  buf : list byte;
  totalRead : Z;
  bucket : Bucket;
  reader : Reader;
  released : bool
}.

Definition set_bytesRead (st : wstate) (n : Z) : wstate :=
  {| partNumber := partNumber st; bytesRead := n; putErrChan := putErrChan st;
     parts := parts st; buf := buf st; totalRead := totalRead st;
     bucket := bucket st; reader := reader st; released := released st |}.

Definition set_buf (st : wstate) (p : list byte) : wstate :=
  {| partNumber := partNumber st; bytesRead := bytesRead st;
     putErrChan := putErrChan st; parts := parts st; buf := p;
     totalRead := totalRead st; bucket := bucket st; reader := reader st;
     released := released st |}.

Definition set_bucket (st : wstate) (b : Bucket) : wstate :=
  {| partNumber := partNumber st; bytesRead := bytesRead st;
     putErrChan := putErrChan st; parts := parts st; buf := buf st;
     totalRead := totalRead st; bucket := b; reader := reader st;
     released := released st |}.

Definition set_reader (st : wstate) (r : Reader) : wstate :=
  {| partNumber := partNumber st; bytesRead := bytesRead st;
     putErrChan := putErrChan st; parts := parts st; buf := buf st;
     totalRead := totalRead st; bucket := bucket st; reader := r;
     released := released st |}.

Definition set_totalRead (st : wstate) (n : Z) : wstate :=
  {| partNumber := partNumber st; bytesRead := bytesRead st;
     putErrChan := putErrChan st; parts := parts st; buf := buf st;
     totalRead := n; bucket := bucket st; reader := reader st;
     released := released st |}.

Definition set_putErrChan (st : wstate) (c : option (option error)) : wstate :=
  {| partNumber := partNumber st; bytesRead := bytesRead st;
     putErrChan := c; parts := parts st; buf := buf st;
     totalRead := totalRead st; bucket := bucket st; reader := reader st;
     released := released st |}.

Definition set_released (st : wstate) (r : bool) : wstate :=
  {| partNumber := partNumber st; bytesRead := bytesRead st;
     putErrChan := putErrChan st; parts := parts st; buf := buf st;
     totalRead := totalRead st; bucket := bucket st; reader := reader st;
     released := r |}.

(** [parts = append(parts, part); partNumber++] *)
Definition add_part (st : wstate) (part : Part) : wstate :=
  {| partNumber := partNumber st + 1; bytesRead := bytesRead st;
     putErrChan := putErrChan st; parts := parts st ++ [part]; buf := buf st;
     totalRead := totalRead st; bucket := bucket st; reader := reader st;
     released := released st |}.

(** The result of a closure that returns an [error]: the state it leaves
    and the error ([None] for [nil]); no result when the fuel of a loop
    runs out. *)
Definition outcome : Type := option (wstate * option error).

Section Closures.

Variable d : driver.
Variable path : string.
Variable multi : Multi.

(** The loop of [fromSmallCurrent]. *)
Fixpoint fromSmallCurrent_loop (fuel : nat) (total : Z) (current : Reader)
    (st : wstate) : outcome :=
  match fuel with
  | O => None
  | S fuel' =>
      if bytesRead st <? total then
        let '(data, err, current') :=
          Read current (Z.to_nat (total - bytesRead st)) in
        let st' := set_bytesRead
                     (set_buf st (write_at (buf st) (bytesRead st) data))
                     (bytesRead st + len data) in
        match err with
        | Some e => if is_EOF e then Some (st', None) else Some (st', Some e)
        | None => fromSmallCurrent_loop fuel' total current' st'
        end
      else Some (st, None)
  end.

(** Fills from 0 to total from current *)
Definition fromSmallCurrent (fuel : nat) (total : Z) (st : wstate) : outcome :=
  match ReadStream d (bucket st) path 0 with
  | (b', inr err) => Some (set_bucket st b', Some err)
  | (b', inl current) =>
      fromSmallCurrent_loop fuel total current
        (set_bytesRead (set_bucket st b') 0)
  end.

(** The loop of [fromReader]. *)
Fixpoint fromReader_loop (fuel : nat) (from : Z) (st : wstate) : outcome :=
  match fuel with
  | O => None
  | S fuel' =>
      if from + bytesRead st <? ChunkSize d then
        let '(data, err, reader') :=
          Read (reader st)
               (Z.to_nat (len (buf st) - (from + bytesRead st))) in
        let st' :=
          set_bytesRead
            (set_totalRead
               (set_reader
                  (set_buf st (write_at (buf st) (from + bytesRead st) data))
                  reader')
               (totalRead st + len data))
            (bytesRead st + len data) in
        match err with
        | Some e => if is_EOF e then Some (st', None) else Some (st', Some e)
        | None => fromReader_loop fuel' from st'
        end
      else Some (st, None)
  end.

(** The goroutine of [fromReader], run to its report. *)
Definition upload (from : Z) (st : wstate) : wstate :=
  if 0 <? bytesRead st then
    match PutPart (bucket st) multi (partNumber st)
            (slice_to (buf st) (bytesRead st + from)) with
    | (b', inr putErr) =>
        set_putErrChan (set_bucket st b') (Some (Some putErr))
    | (b', inl part) =>
        set_putErrChan (add_part (set_bucket st b') part) (Some None)
    end
  else set_putErrChan st (Some None).

(** Fills from parameter to chunkSize from reader *)
Definition fromReader (fuel : nat) (from : Z) (st : wstate) : outcome :=
  match fromReader_loop fuel from (set_bytesRead st 0) with
  | None => None
  | Some (st1, Some err) => Some (st1, Some err)
  | Some (st1, None) =>
      match putErrChan st1 with
      | Some (Some putErr) =>
          Some (set_released (set_putErrChan st1 None) true, Some putErr)
      | _ => Some (set_buf (upload from st1) (getbuf d), None)
      end
  end.

(** The loop of [fromZeroFillSmall]. *)
Fixpoint fromZeroFillSmall_loop (fuel : nat) (from to : Z) (st : wstate)
    : outcome :=
  match fuel with
  | O => None
  | S fuel' =>
      if from + bytesRead st <? to then
        let '(data, err, _) :=
          Read (NewReader (zeros d))
               (Z.to_nat (to - (from + bytesRead st))) in
        let st' := set_bytesRead
                     (set_buf st (write_at (buf st) (from + bytesRead st) data))
                     (bytesRead st + len data) in
        match err with
        | Some e => Some (st', Some e)
        | None => fromZeroFillSmall_loop fuel' from to st'
        end
      else Some (st, None)
  end.

(** Fills between parameters with 0s but only when to - from <= chunkSize *)
Definition fromZeroFillSmall (fuel : nat) (from to : Z) (st : wstate)
    : outcome :=
  fromZeroFillSmall_loop fuel from to (set_bytesRead st 0).

(** The loop of [fromZeroFillLarge]. *)
Fixpoint fromZeroFillLarge_loop (fuel : nat) (from to bytesRead64 : Z)
    (st : wstate) : option (wstate * option error) :=
  match fuel with
  | O => None
  | S fuel' =>
      if ChunkSize d <=? to - (from + bytesRead64) then
        match PutPart (bucket st) multi (partNumber st) (zeros d) with
        | (b', inr err) => Some (set_bucket st b', Some err)
        | (b', inl part) =>
            fromZeroFillLarge_loop fuel' from to (bytesRead64 + ChunkSize d)
              (add_part (set_bucket st b') part)
        end
      else Some (st, None)
  end.

(** Fills between parameters with 0s, making new parts *)
Definition fromZeroFillLarge (fuel : nat) (from to : Z) (st : wstate)
    : outcome :=
  match fromZeroFillLarge_loop fuel from to 0 st with
  | None => None
  | Some (st', Some err) => Some (st', Some err)
  | Some (st', None) =>
      fromZeroFillSmall fuel 0 (Z.rem (to - from) (ChunkSize d)) st'
  end.

(** A step of the body: [if err = f(...); err != nil { return totalRead, err }]. *)
Notation "'try' st' '<-' e ';' k" :=
  (match e with
   | None => None
   | Some (st', Some err) => Some (st', Some (totalRead st', Some err))
   | Some (st', None) => k
   end)
  (at level 10, st' name, e at level 100, k at level 200, only parsing).

(** [multi.PutPart(int(partNumber), bytes.NewReader(data))] called by the
    body itself, followed by
    [parts = append(parts, part); partNumber++]. *)
Definition putPartNow (data : list byte) (st : wstate) : outcome :=
  match PutPart (bucket st) multi (partNumber st) data with
  | (b', inr err) => Some (set_bucket st b', Some err)
  | (b', inl part) => Some (add_part (set_bucket st b') part, None)
  end.

(** The statements of [WriteStream] under [if offset > 0], once
    [currentLength] is known.  The result holds the state and, when the
    call leaves through a [return] statement, the operands of that
    statement; [None] in their place when control reaches the final
    loop. *)
Definition resume_at (fuel : nat) (offset currentLength : Z) (st : wstate)
    : option (wstate * option (Z * option error)) :=
  if offset <=? currentLength then
    if offset <? ChunkSize d then
      (* chunkSize > currentLength >= offset *)
      try st <- fromSmallCurrent fuel offset st;
      try st <- fromReader fuel offset st;
      if totalRead st + offset <? ChunkSize d
      then Some (st, Some (totalRead st, None))
      else Some (st, None)
    else
      (* currentLength >= offset >= chunkSize *)
      match PutPartCopy (bucket st) multi (partNumber st)
              (Some (0, offset - 1)) (s3Path d path) with
      | (b', inr err) => Some (set_bucket st b', Some (0, Some err))
      | (b', inl part) => Some (add_part (set_bucket st b') part, None)
      end
  else
    (* currentLength < offset *)
    if currentLength <? ChunkSize d then
      if offset <? ChunkSize d then
        (* chunkSize > offset > currentLength *)
        try st <- fromSmallCurrent fuel currentLength st;
        try st <- fromZeroFillSmall fuel currentLength offset st;
        try st <- fromReader fuel offset st;
        if totalRead st + offset <? ChunkSize d
        then Some (st, Some (totalRead st, None))
        else Some (st, None)
      else
        (* offset >= chunkSize > currentLength *)
        try st <- fromSmallCurrent fuel currentLength st;
        try st <- fromZeroFillSmall fuel currentLength (ChunkSize d) st;
        try st <- putPartNow (buf st) st;
        (* Zero fill from chunkSize up to offset, then some reader *)
        try st <- fromZeroFillLarge fuel (ChunkSize d) offset st;
        try st <- fromReader fuel (Z.rem offset (ChunkSize d)) st;
        if totalRead st + Z.rem offset (ChunkSize d) <? ChunkSize d
        then Some (st, Some (totalRead st, None))
        else Some (st, None)
    else
      (* offset > currentLength >= chunkSize *)
      match PutPartCopy (bucket st) multi (partNumber st)
              None (s3Path d path) with
      | (b', inr err) => Some (set_bucket st b', Some (0, Some err))
      | (b', inl part) =>
          let st := add_part (set_bucket st b') part in
          (* Zero fill from currentLength up to offset, then some reader *)
          try st <- fromZeroFillLarge fuel currentLength offset st;
          try st <- fromReader fuel
                      (Z.rem (offset - currentLength) (ChunkSize d)) st;
          if totalRead st + Z.rem (offset - currentLength) (ChunkSize d)
             <? ChunkSize d
          then Some (st, Some (totalRead st, None))
          else Some (st, None)
      end.

(** The probe of the current object that opens the [if offset > 0]
    block: a missing object counts as an object of length 0. *)
Definition resume (fuel : nat) (offset : Z) (st : wstate)
    : option (wstate * option (Z * option error)) :=
  match Head (bucket st) (s3Path d path) with
  | (b', inr err) =>
      if negb (isS3Code err "NoSuchKey")
      then Some (set_bucket st b', Some (0, Some err))
      else resume_at fuel offset 0 (set_bucket st b')
  | (b', inl ContentLength) =>
      resume_at fuel offset ContentLength (set_bucket st b')
  end.

(** The final loop of [WriteStream]. *)
Fixpoint stream (fuel : nat) (st : wstate) : option (wstate * (Z * option error)) :=
  match fuel with
  | O => None
  | S fuel' =>
      match fromReader fuel 0 st with
      | None => None
      | Some (st', Some err) => Some (st', (totalRead st', Some err))
      | Some (st', None) =>
          if bytesRead st' <? ChunkSize d
          then Some (st', (totalRead st', None))
          else stream fuel' st'
      end
  end.

(** The body of [WriteStream] after the deferred function is set up: the
    state it ends in and the operands of its [return] statement. *)
Definition body (fuel : nat) (offset : Z) (st : wstate)
    : option (wstate * (Z * option error)) :=
  if 0 <? offset then
    match resume fuel offset st with
    | None => None
    | Some (st', Some ret) => Some (st', ret)
    | Some (st', None) => stream fuel st'
    end
  else stream fuel st.

(** The zero-valued [s3.Part] a failed upload leaves in [part]. *)
Definition zeroPart : Part := {| PartN := 0; ETag := []; Size := 0 |}.

(** The deferred function.  [late] tells whether the append of a
    goroutine whose upload failed is visible by the time [parts] is
    read (the two are not synchronised).  [ret] holds the operands of
    the [return] statement, already stored in the named results; the
    result is what the caller receives, with the store and the source
    as the call leaves them. *)
Definition deferred (late : bool) (st : wstate) (ret : Z * option error)
    : Bucket * Reader * Z * option error :=
  let '(st, err) :=
    match putErrChan st with
    | Some (Some putErr) => (set_released st true, Some putErr)
    | _ => (st, snd ret)
    end in
  let parts := if released st && late then parts st ++ [zeroPart] else parts st in
  let b :=
    if 0 <? len parts then
      match Complete (bucket st) multi parts with
      | (b', inr _) => fst (Abort b' multi)
      | (b', inl _) => b'
      end
    else bucket st in
  (b, reader st, fst ret, err).

End Closures.

(** [WriteStream]: the store and the byte source after the call, and the
    two results [totalRead] and [err]. *)
Definition WriteStream (fuel : nat) (late : bool) (d : driver) (b : Bucket)
    (path : string) (offset : Z) (reader : Reader)
    : option (Bucket * Reader * Z * option error) :=
  match InitMulti b (s3Path d path) with
  | (b', inr err) => Some (b', reader, 0, Some err)
  | (b', inl multi) =>
      let st := {| partNumber := 1; bytesRead := 0; putErrChan := None;
                   parts := []; buf := getbuf d; totalRead := 0;
                   bucket := b'; reader := reader; released := false |} in
      match body d path multi fuel offset st with
      | None => None
      | Some (st', ret) => Some (deferred multi late st' ret)
      end
  end.

(** *** The buffer pool

    [d.pool] is a [sync.Pool]: the buffers it holds at the moment.  Its
    [Get] hands out any one of them, or none, as the runtime chooses, and
    the runtime may drop a buffer from the pool at any time. *)
Module Pool.

(** [copy(dst, src)]: [dst] afterwards; as many bytes are copied as the
    shorter of the two holds. *)
Definition copy (dst src : list byte) : list byte :=
  firstn (length dst) src ++ skipn (length src) dst.

Fixpoint remove_nth (i : nat) (pool : list (list byte)) : list (list byte) :=
  match pool, i with
  | [], _ => []
  | _ :: rest, O => rest
  | p :: rest, S i' => p :: remove_nth i' rest
  end.

(** [d.getbuf()], that is [d.pool.Get().([]byte)]: the runtime picks the
    buffer at [pick], which leaves the pool; when it picks none,
    [d.pool.New] allocates [make([]byte, d.ChunkSize)]. *)
Definition getbuf (d : driver) (pick : option nat) (pool : list (list byte))
    : list byte * list (list byte) :=
  match pick with
  | Some i =>
      match nth_error pool i with
      | Some p => (p, remove_nth i pool)
      | None => (repeat x00 (Z.to_nat (ChunkSize d)), pool)
      end
  | None => (repeat x00 (Z.to_nat (ChunkSize d)), pool)
  end.

(** [d.putbuf(p)]: [copy(p, d.zeros); d.pool.Put(p)] *)
Definition putbuf (d : driver) (p : list byte) (pool : list (list byte))
    : list (list byte) :=
  copy p (zeros d) :: pool.

End Pool.

End Driver.

(** ** Construction of the driver *)

(** The fields of [aws.Region] the driver reads, and the signature
    versions of the client. *)
Module Aws.

Record Region : Type := { Name : string; S3Endpoint : string }.

Inductive Signature : Type := V2Signature | V4Signature.

End Aws.

Module Config.

Record DriverParameters : Type := {
  AccessKey : string;
  SecretKey : string;
  Bucket : string;
  Region : Aws.Region;
  Encrypt : bool;
  Secure : bool;
  V4Auth : bool;
  ChunkSize : Z;
  RootDirectory : string
}.

(** An operand of [fmt.Errorf]. *)
Inductive arg : Type :=
| AValue (v : value)
| ARegion (r : Aws.Region)
| AInt (n : Z).

(** The errors of the constructors: an error made by [fmt.Errorf], kept as
    its format and operands, or the error of a call that failed. *)
Inductive failure : Type :=
| Errorf (format : string) (args : list arg)
| Failed (err : error).

(** The conversion of an integer of any width to [int64]. *)
Definition int64 (n : Z) : Z := (n + 2 ^ 63) mod 2 ^ 64 - 2 ^ 63.

(** The decimal notation of an integer. *)
Definition decimal (n : Z) : string :=
  DecimalString.NilZero.string_of_int (Z.to_int n).

Section Construct.

(** [aws.Auth] and [aws.GetAuth(accessKey, secretKey, "", time.Time{})] *)
Variable Auth : Type.
Variable GetAuth : string -> string -> Auth + error.

(** [aws.GetRegion]: the region of that name, the zero [Region] when there
    is none. *)
Variable GetRegion : string -> Aws.Region.

(** [strconv.ParseInt(s, 0, 64)] *)
Variable ParseInt : string -> option Z.

(** [t.String()] for a [time.Time] *)
Variable time_String : Z -> string.

(** Whether [make([]byte, n)] returns a slice of [n] bytes: the runtime
    panics for a negative length, and for a length beyond what it can
    allocate. *)
Variable allocates : Z -> bool.

(** The client and the bucket handle the driver keeps: [s3.New(auth,
    region)], its [Signature], and the name of the bucket. *)
Record Client : Type := {
  cl_auth : Auth;
  cl_region : Aws.Region;
  cl_signature : Aws.Signature;
  cl_bucket : string
}.

(** [fmt.Sprint(v)] *)
Definition Sprint (v : value) : string :=
  match v with
  | VString s => s
  | VBool b => if b then "true" else "false"
  | VInt n | VInt32 n | VInt64 n | VUint n | VUint32 n | VUint64 n => decimal n
  | VTime t => time_String t
  | VOther printed => printed
  end.

(** The result of a constructor, with the store after its request; no
    result when it panics. *)
Definition result : Type :=
  option (S3.Bucket * (Driver.driver * Client + failure)).

(** [New].  [make([]byte, params.ChunkSize)] panics for a negative
    length and for one the runtime cannot allocate. *)
Definition New (params : DriverParameters) (b : S3.Bucket) : result :=
  match GetAuth (AccessKey params) (SecretKey params) with
  | inr err => Some (b, inr (Failed err))
  | inl auth =>
      let region :=
        if negb (Secure params)
        then {| Aws.Name := Aws.Name (Region params);
                Aws.S3Endpoint :=
                  Strings.Replace1 (Aws.S3Endpoint (Region params)) "https" "http" |}
        else Region params in
      if negb (V4Auth params) && String.eqb (Aws.Name region) "eu-central-1"
      then Some (b, inr (Errorf "The eu-central-1 region only works with v4 authentication" []))
      else
        match S3.List b (Strings.TrimRight (RootDirectory params) "/") "" "" 1 with
        | (b', inr err) => Some (b', inr (Failed err))
        | (b', inl _) =>
            if (ChunkSize params <? 0) || negb (allocates (ChunkSize params))
            then None
            else
              Some (b',
                    inl ({| Driver.ChunkSize := ChunkSize params;
                            Driver.Encrypt := Encrypt params;
                            Driver.RootDirectory := RootDirectory params |},
                         {| cl_auth := auth;
                            cl_region := region;
                            cl_signature :=
                              if V4Auth params then Aws.V4Signature
                              else Aws.V2Signature;
                            cl_bucket := Bucket params |}))
        end
  end.

(** A step of [FromParameters] that may return an error. *)
Notation "'check' x '<-' e 'on' b ';' k" :=
  (match e with
   | inr f => Some (b, inr f)
   | inl x => k
   end)
  (at level 10, x name, e at level 100, b at level 0, k at level 200,
   only parsing).

Definition FromParameters (parameters : list (string * value)) (b : S3.Bucket)
    : result :=
  let accessKey :=
    match get parameters "accesskey" with Some v => v | None => VString "" end in
  let secretKey :=
    match get parameters "secretkey" with Some v => v | None => VString "" end in
  check regionName <-
    match get parameters "region" with
    | None => inr (Errorf "No region parameter provided" [])
    | Some regionName =>
        if String.eqb (Sprint regionName) ""
        then inr (Errorf "No region parameter provided" [])
        else inl regionName
    end on b;
  let region := GetRegion (Sprint regionName) in
  check region <-
    (if String.eqb (Aws.Name region) ""
     then inr (Errorf "Invalid region provided: %v" [ARegion region])
     else inl region) on b;
  check bucket <-
    match get parameters "bucket" with
    | None => inr (Errorf "No bucket parameter provided" [])
    | Some bucket =>
        if String.eqb (Sprint bucket) ""
        then inr (Errorf "No bucket parameter provided" [])
        else inl bucket
    end on b;
  check encryptBool <-
    match get parameters "encrypt" with
    | None => inl false
    | Some (VBool encryptBool) => inl encryptBool
    | Some _ => inr (Errorf "The encrypt parameter should be a boolean" [])
    end on b;
  check secureBool <-
    match get parameters "secure" with
    | None => inl true
    | Some (VBool secureBool) => inl secureBool
    | Some _ => inr (Errorf "The secure parameter should be a boolean" [])
    end on b;
  check v4AuthBool <-
    match get parameters "v4auth" with
    | None => inl false
    | Some (VBool v4AuthBool) => inl v4AuthBool
    | Some _ => inr (Errorf "The v4auth parameter should be a boolean" [])
    end on b;
  check chunkSize <-
    match get parameters "chunksize" with
    | None => inl Driver.defaultChunkSize
    | Some chunkSizeParam =>
        let converted :=
          match chunkSizeParam with
          | VString v =>
              match ParseInt v with
              | None =>
                  inr (Errorf "chunksize parameter must be an integer, %v invalid"
                         [AValue chunkSizeParam])
              | Some vv => inl vv
              end
          | VInt64 v => inl v
          | VInt v | VUint v | VInt32 v | VUint32 v | VUint64 v => inl (int64 v)
          | _ => inr (Errorf "invalid valud for chunksize: %#v" [AValue chunkSizeParam])
          end in
        match converted with
        | inr f => inr f
        | inl chunkSize =>
            if chunkSize <? Driver.minChunkSize
            then inr (Errorf "The chunksize %#v parameter should be a number that is larger than or equal to %d"
                        [AInt chunkSize; AInt Driver.minChunkSize])
            else inl chunkSize
        end
    end on b;
  let rootDirectory :=
    match get parameters "rootdirectory" with Some v => v | None => VString "" end in
  New {| AccessKey := Sprint accessKey;
         SecretKey := Sprint secretKey;
         Bucket := Sprint bucket;
         Region := region;
         Encrypt := encryptBool;
         Secure := secureBool;
         V4Auth := v4AuthBool;
         ChunkSize := chunkSize;
         RootDirectory := Sprint rootDirectory |} b.

(** [s3DriverFactory.Create] *)
Definition Create (parameters : list (string * value)) (b : S3.Bucket) : result :=
  FromParameters parameters b.

End Construct.

End Config.

(** ** Notions the statements use *)

(** The keys of a store are not empty and come in strictly ascending
    order (so that no key occurs twice). *)
Definition wf_store (s : list (string * S3.Object)) : Prop :=
  StronglySorted Strings.lt (map fst s) /\ Forall (fun k => k <> EmptyString) (map fst s).

(** No failure is injected: the store serves every request. *)
Definition healthy (b : S3.Bucket) : Prop := S3.faults b = [].

(** The directory [List] lists for [path]: [path] itself when it is the
    root or ends in a slash, and [path] followed by a slash otherwise. *)
Definition dir_path (path : string) : string :=
  match Strings.last path with
  | Some c =>
      if negb (String.eqb path "/") && negb (Ascii.eqb c "/")
      then (path ++ "/")%string else path
  | None => path
  end.

(** What the store holds directly under the directory of [path]: the keys
    with no further slash, and the common prefixes of the deeper keys. *)
Definition children (d : Driver.driver) (b : S3.Bucket) (path : string)
    : list S3.entry :=
  S3.listing (S3.objects b) (Driver.s3Path d (dir_path path)) "/".

(** The paths [List] reports for the files and for the directories among
    the entries [es]. *)
Definition file_paths (d : Driver.driver) (es : list S3.entry) : list string :=
  map (fun key => Driver.reported d (S3.KeyName key)) (S3.keys_of es).

Definition directory_paths (d : Driver.driver) (es : list S3.entry) : list string :=
  map (fun commonPrefix => Driver.reported d (Strings.dropLast commonPrefix))
      (S3.prefixes_of es).

(** A source that ends in a failure of its own, not in [io.EOF]. *)
Definition failing (r : Reader) : Prop :=
  exists e, rd_fail r = Some e /\ is_EOF e = false.

(** The source [r'] is the source [r] after [n] of its bytes were read. *)
Definition consumed (r r' : Reader) (n : Z) : Prop :=
  0 <= n <= len (rd_data r)
  /\ rd_data r' = skipn (Z.to_nat n) (rd_data r)
  /\ rd_fail r' = rd_fail r.

(** The parts of a session, uploaded in this order under the numbers [n],
    [n + 1], ..., as the store keeps them and as the driver records
    them. *)
Fixpoint numbered (n : Z) (datas : list (list byte)) : list (Z * list byte) :=
  match datas with
  | [] => []
  | x :: rest => (n, x) :: numbered (n + 1) rest
  end.

Fixpoint parts_from (n : Z) (datas : list (list byte)) : list S3.Part :=
  match datas with
  | [] => []
  | x :: rest =>
      {| S3.PartN := n; S3.ETag := S3.etag x; S3.Size := len x |}
        :: parts_from (n + 1) rest
  end.

(** The bytes of the object at [key], none when there is no object. *)
Definition content (b : S3.Bucket) (key : string) : list byte :=
  match S3.lookup key (S3.objects b) with
  | Some o => S3.Data o
  | None => []
  end.

(** What a write of [data] at [offset] makes of the bytes [existing]: the
    bytes before [offset], zeros up to [offset] where they are missing,
    then the data. *)
Definition written (existing : list byte) (offset : Z) (data : list byte)
    : list byte :=
  firstn (Z.to_nat offset) existing
  ++ repeat x00 (Z.to_nat offset - length existing)
  ++ data.

(** ** Sample inputs *)
Module Sample.

Import S3 Driver.

(** A driver with chunks of four bytes and no root directory. *)
Definition drv : driver :=
  {| ChunkSize := 4; Encrypt := false; RootDirectory := "" |}.

Definition object (data : list byte) : Object :=
  {| Data := data; LastModified := "2015-01-01T00:00:00Z" |}.

(** A store that holds [objs], fails as [script] tells and asks for parts
    of at least four bytes. *)
Definition store (objs : list (string * Object)) (script : list (option error))
    : Bucket :=
  {| objects := objs; uploads := []; faults := script; min_part := 4;
     clock := "2015-02-02T00:00:00Z"; body_grain := [] |}.

(** A source that yields [data] and then ends. *)
Definition source (data : list byte) : Reader := NewReader data.

(** A source that yields [data], at most two bytes per read, and then
    fails. *)
Definition broken_source (data : list byte) : Reader :=
  {| rd_data := data; rd_fail := Some (OtherError "broken pipe");
     rd_grain := [1; 1; 1; 1; 1; 1; 1; 1]%nat; rd_eager := false |}.

Definition abc : list byte := ["a"; "b"; "c"]%byte.

(** A timestamp parser that accepts every timestamp. *)
Definition instant (s : string) : option Z := Some (Z.of_nat (String.length s)).

(** A store with files and directories below [a]. *)
Definition tree : Bucket :=
  store [("a/b"%string, object abc); ("a/c/d"%string, object []);
         ("a/c/e"%string, object []); ("ab"%string, object [])] [].

(** The keys [d/0000], [d/0001], ... in ascending order. *)
Definition digit (n : nat) : ascii := ascii_of_nat (48 + n mod 10).

Definition numbered_key (i : nat) : string :=
  String "d" (String "/" (String (digit (i / 1000)) (String (digit (i / 100))
    (String (digit (i / 10)) (String (digit i) EmptyString))))).

Definition numbered (n : nat) : list (string * Object) :=
  map (fun i => (numbered_key i, object [])) (seq 0 n).

End Sample.

(** * Properties *)

(** ** The order of keys *)
Module KeyOrder.

Import Strings.

Lemma ascii_compare_refl (c : ascii) : Ascii_as_OT.compare c c = Eq.
Proof.
  destruct (Ascii_as_OT.compare_spec c c) as [_ | H | H]; trivial;
    exfalso; exact (StrictOrder_Irreflexive c H).
Qed.

Lemma ascii_compare_eq (a c : ascii) : Ascii_as_OT.compare a c = Eq -> a = c.
Proof.
  intros H. destruct (Ascii_as_OT.compare_spec a c); congruence.
Qed.

Lemma lt_irrefl (a : string) : ~ lt a a.
Proof. exact (StrictOrder_Irreflexive (R := String_as_OT.lt) a). Qed.

Lemma lt_trans (a b c : string) : lt a b -> lt b c -> lt a c.
Proof. exact (StrictOrder_Transitive (R := String_as_OT.lt) a b c). Qed.

Lemma ltb_lt (a b : string) : ltb a b = true <-> lt a b.
Proof.
  unfold ltb, lt, String_as_OT.lt.
  destruct (String_as_OT.compare a b); split; congruence.
Qed.

Lemma lt_asym (a b : string) : lt a b -> ~ lt b a.
Proof. intros H1 H2. exact (lt_irrefl a (lt_trans _ _ _ H1 H2)). Qed.

Lemma ltb_irrefl (a : string) : ltb a a = false.
Proof.
  destruct (ltb a a) eqn:E; trivial.
  apply ltb_lt in E. destruct (lt_irrefl _ E).
Qed.

Lemma le_refl (a : string) : le a a.
Proof. left; reflexivity. Qed.

Lemma le_lt_trans (a b c : string) : le a b -> lt b c -> lt a c.
Proof. intros [-> | H] ?; eauto using lt_trans. Qed.

Lemma lt_le_trans (a b c : string) : lt a b -> le b c -> lt a c.
Proof. intros ? [<- | H]; eauto using lt_trans. Qed.

Lemma le_trans (a b c : string) : le a b -> le b c -> le a c.
Proof. intros [-> | H] ?; trivial. right. eauto using lt_le_trans. Qed.

Lemma lt_cons (c : ascii) (a b : string) :
  lt (String c a) (String c b) <-> lt a b.
Proof.
  unfold lt, String_as_OT.lt. cbn [String_as_OT.compare].
  rewrite ascii_compare_refl. reflexivity.
Qed.

Lemma le_cons (c : ascii) (a b : string) : le a b -> le (String c a) (String c b).
Proof. intros [-> | H]; [left; reflexivity | right; now apply lt_cons]. Qed.

Lemma lt_app (p a b : string) : lt (p ++ a) (p ++ b) <-> lt a b.
Proof.
  induction p as [| c p IH]; cbn [append]; [reflexivity |].
  rewrite lt_cons. exact IH.
Qed.

Lemma empty_le (a : string) : le EmptyString a.
Proof. destruct a; [left; reflexivity | right; reflexivity]. Qed.

Lemma nonempty_gt (a : string) : a <> EmptyString -> lt EmptyString a.
Proof. destruct a; [congruence | reflexivity]. Qed.

(** A string has the prefix [p] exactly when it is [p] followed by what
    [drop] leaves. *)
Lemma prefix_split (p k : string) :
  String.prefix p k = true -> k = (p ++ drop (String.length p) k)%string.
Proof.
  revert k; induction p as [| c p IH]; intros k H; [reflexivity |].
  destruct k as [| c' k]; [discriminate |].
  cbn [String.prefix] in H.
  destruct (ascii_dec c c') as [-> |]; [| discriminate].
  cbn. f_equal. now apply IH.
Qed.

Lemma prefix_app (p r : string) : String.prefix p (p ++ r) = true.
Proof.
  induction p as [| c p IH]; cbn; [now destruct r |].
  destruct (ascii_dec c c); [exact IH | congruence].
Qed.

Lemma drop_app (p r : string) : drop (String.length p) (p ++ r) = r.
Proof. induction p; cbn; trivial. Qed.

Lemma prefix_empty (k : string) : String.prefix "" k = true.
Proof. now destruct k. Qed.

Lemma prefix_refl (p : string) : String.prefix p p = true.
Proof.
  induction p as [| c p IH]; cbn; trivial.
  destruct (ascii_dec c c); [exact IH | congruence].
Qed.

(** A prefix of a key sorts at or before the key. *)
Lemma prefix_le (p k : string) : String.prefix p k = true -> le p k.
Proof.
  revert k; induction p as [| c p IH]; intros k H.
  - apply empty_le.
  - destruct k as [| c' k]; [discriminate |].
    cbn [String.prefix] in H.
    destruct (ascii_dec c c') as [-> |]; [| discriminate].
    apply le_cons. now apply IH.
Qed.

Lemma app_inj (p a b : string) : (p ++ a)%string = (p ++ b)%string -> a = b.
Proof. induction p; cbn; intros H; [trivial | injection H; auto]. Qed.

End KeyOrder.

(** ** The store *)
Module StoreFacts.

Import Strings KeyOrder S3.

Lemma request_healthy {A : Type} (b : Bucket) (serve : Bucket -> Bucket * (A + error)) :
  healthy b -> request b serve = serve b.
Proof. unfold healthy, request. now intros ->. Qed.

Lemma set_objects_same (b : Bucket) : set_objects b (objects b) = b.
Proof. now destruct b. Qed.

Lemma lookup_In (k : string) (s : list (string * Object)) (o : Object) :
  lookup k s = Some o -> In (k, o) s.
Proof.
  induction s as [| [k' o'] s IH]; cbn; [discriminate |].
  destruct (String.eqb_spec k' k) as [-> | ne].
  - intros [= ->]. now left.
  - intros H. right. now apply IH.
Qed.

Lemma lookup_None (k : string) (s : list (string * Object)) :
  lookup k s = None <-> ~ In k (map fst s).
Proof.
  induction s as [| [k' o'] s IH]; cbn; [tauto |].
  destruct (String.eqb_spec k' k) as [-> | ne].
  - split; [discriminate | intros H; destruct H; now left].
  - rewrite IH. tauto.
Qed.

Lemma lookup_put_same (k : string) (o : Object) (s : list (string * Object)) :
  lookup k (put k o s) = Some o.
Proof.
  induction s as [| [k' o'] s IH]; cbn.
  - now rewrite String.eqb_refl.
  - destruct (ltb k k') eqn:E; cbn.
    + now rewrite String.eqb_refl.
    + destruct (String.eqb_spec k' k) as [-> | ne]; cbn.
      * now rewrite String.eqb_refl.
      * destruct (String.eqb_spec k' k); [contradiction | exact IH].
Qed.

Lemma Forall_filter {A : Type} (P : A -> Prop) (f : A -> bool) (l : list A) :
  Forall P l -> Forall P (filter f l).
Proof.
  induction 1 as [| x l Hx Hl IH]; cbn; [constructor |].
  destruct (f x); [constructor |]; trivial.
Qed.

Lemma sorted_filter {A : Type} (R : A -> A -> Prop) (f : A -> bool) (l : list A) :
  StronglySorted R l -> StronglySorted R (filter f l).
Proof.
  induction 1 as [| x l Hs IH Hx]; cbn; [constructor |].
  destruct (f x); [constructor |]; trivial.
  now apply Forall_filter.
Qed.

Lemma sorted_map {A B : Type} (R : B -> B -> Prop) (g : A -> B) (l : list A) :
  StronglySorted R (map g l) <-> StronglySorted (fun x y => R (g x) (g y)) l.
Proof.
  induction l as [| x l IH]; cbn; split; intros H; try constructor;
    apply StronglySorted_inv in H; destruct H as [H1 H2]; try tauto.
  - rewrite Forall_map in H2. exact H2.
  - rewrite Forall_map. exact H2.
Qed.

(** The store as a list ordered by key. *)
Definition by_key (x y : string * Object) : Prop := lt (fst x) (fst y).

Lemma wf_by_key (s : list (string * Object)) :
  wf_store s -> StronglySorted by_key s.
Proof. intros [H _]. exact (proj1 (sorted_map lt fst s) H). Qed.

Lemma wf_filter (f : string * Object -> bool) (s : list (string * Object)) :
  wf_store s -> wf_store (filter f s).
Proof.
  intros [H1 H2]. split.
  - apply (proj2 (sorted_map lt fst _)). apply sorted_filter.
    exact (proj1 (sorted_map lt fst s) H1).
  - rewrite Forall_map. apply Forall_filter. rewrite Forall_map in H2. exact H2.
Qed.

End StoreFacts.

(** ** Listings *)
Module ListingFacts.

Import Strings KeyOrder S3 StoreFacts.

Definition name_lt (a b : entry) : Prop := lt (entry_name a) (entry_name b).
Definition name_le (a b : entry) : Prop := le (entry_name a) (entry_name b).

Lemma collapse_sorted_id (l : list entry) :
  StronglySorted name_lt l -> collapse l = l.
Proof.
  induction 1 as [| e tl Hs IH He]; [reflexivity |].
  cbn [collapse]. destruct tl as [| e' tl']; [reflexivity |].
  destruct (String.eqb_spec (entry_name e) (entry_name e')) as [E | _].
  - apply Forall_inv in He. unfold name_lt in He. rewrite E in He.
    destruct (lt_irrefl _ He).
  - now rewrite IH.
Qed.

Lemma keys_of_EKey (l : list (string * Object)) :
  keys_of (map (fun ko => EKey (key_of ko)) l) = map key_of l.
Proof. induction l; cbn; congruence. Qed.

Lemma prefixes_of_EKey (l : list (string * Object)) :
  prefixes_of (map (fun ko => EKey (key_of ko)) l) = [].
Proof. induction l; cbn; congruence. Qed.

(** Without a delimiter a listing reports the keys under the prefix, each
    by itself. *)
Lemma listing_nodelim (s : list (string * Object)) (p : string) :
  wf_store s ->
  listing s p "" = map (fun ko => EKey (key_of ko)) (filter (under p) s).
Proof.
  intros W. unfold listing.
  change (map (classify p "") (filter (under p) s))
    with (map (fun ko => EKey (key_of ko)) (filter (under p) s)).
  apply collapse_sorted_id.
  apply (proj2 (sorted_map name_lt (fun ko => EKey (key_of ko)) _)).
  apply sorted_filter. exact (wf_by_key _ W).
Qed.

(** The first key under a prefix that is itself a key is that key. *)
Lemma filter_under_exact (s : list (string * Object)) (p : string) (o : Object) :
  wf_store s -> lookup p s = Some o ->
  exists rest, filter (under p) s = (p, o) :: rest.
Proof.
  intros W. apply wf_by_key in W.
  induction W as [| [k o'] tl Hs IH Hk]; cbn [lookup filter]; [discriminate |].
  destruct (String.eqb_spec k p) as [-> | ne].
  - intros [= ->]. unfold under at 1. cbn [fst]. rewrite prefix_refl. eauto.
  - intros L. unfold under at 1. cbn [fst].
    destruct (String.prefix p k) eqn:E; [| now apply IH].
    exfalso. apply lookup_In in L.
    rewrite Forall_forall in Hk. specialize (Hk _ L). unfold by_key in Hk. cbn in Hk.
    apply prefix_le in E. exact (lt_irrefl _ (lt_le_trans _ _ _ Hk E)).
Qed.

Lemma filter_under_none (s : list (string * Object)) (p : string) :
  (forall k, In k (map fst s) -> String.prefix p k = false) ->
  filter (under p) s = [].
Proof.
  induction s as [| [k o] tl IH]; cbn; intros H; [reflexivity |].
  unfold under at 1. cbn [fst]. rewrite (H k) by now left.
  apply IH. intros k' ?. apply H. now right.
Qed.

Lemma filter_under_some (s : list (string * Object)) (p k : string) :
  In k (map fst s) -> String.prefix p k = true ->
  exists k' o' rest, filter (under p) s = (k', o') :: rest /\ In (k', o') s.
Proof.
  intros I E. apply in_map_iff in I. destruct I as [[k0 o0] [<- I]].
  assert (F : In (k0, o0) (filter (under p) s)) by (apply filter_In; now split).
  destruct (filter (under p) s) as [| [k' o'] rest] eqn:Q; [destruct F |].
  exists k', o', rest. split; trivial.
  assert (In (k', o') (filter (under p) s)) by (rewrite Q; now left).
  now apply filter_In in H.
Qed.

End ListingFacts.

(** ** ReadStream *)
Module ReadStreamFacts.

Import S3 Driver StoreFacts.

(** C9.  For an existing object and an offset at or beyond its size,
    [ReadStream] returns no error but an empty stream, whose first read
    reports the end; for an offset within the object it returns the stream
    of the object's bytes from that offset on. *)
Theorem ReadStream_from_offset (d : driver) (b : Bucket) (path : string)
    (offset : Z) (o : Object) :
  healthy b ->
  lookup (s3Path d path) (objects b) = Some o ->
  0 <= offset ->
  exists r,
    ReadStream d b path offset = (b, inl r)
    /\ rd_data r = skipn (Z.to_nat offset) (Data o)
    /\ rd_fail r = None
    /\ (len (Data o) <= offset ->
        r = NewReader [] /\ forall n, Read r n = ([], Some EOF, r)).
Proof.
  intros Hb Ho Hoff. unfold ReadStream, GetResponseWithHeaders.
  rewrite (request_healthy b _ Hb), Ho.
  destruct (len (Data o) <=? offset) eqn:E.
  - apply Z.leb_le in E. exists (NewReader []). cbn.
    repeat split; trivial.
    symmetry. apply skipn_all2. unfold len in E. lia.
  - apply Z.leb_gt in E. eexists. split; [reflexivity |]. cbn.
    repeat split; trivial; lia.
Qed.

Lemma ReadStream_from_offset_witness :
  exists r,
    ReadStream Sample.drv (Sample.store [("p"%string, Sample.object Sample.abc)] []) "/p" 3
      = (Sample.store [("p"%string, Sample.object Sample.abc)] [], inl r)
    /\ rd_data r = skipn (Z.to_nat 3) (Data (Sample.object Sample.abc))
    /\ rd_fail r = None
    /\ (len (Data (Sample.object Sample.abc)) <= 3 ->
        r = NewReader [] /\ forall n, Read r n = ([], Some EOF, r)).
Proof.
  apply (ReadStream_from_offset Sample.drv
           (Sample.store [("p"%string, Sample.object Sample.abc)] []) "/p" 3
           (Sample.object Sample.abc)).
  - reflexivity.
  - reflexivity.
  - lia.
Defined.

End ReadStreamFacts.

(** ** Stat *)
Module StatFacts.

Import Strings KeyOrder S3 Driver StoreFacts ListingFacts.

Lemma list_one (b : Bucket) (p : string) :
  healthy b -> wf_store (objects b) ->
  S3.List b p "" "" 1
  = (b, inl {| Contents := map key_of (firstn 1 (filter (under p) (objects b)));
               CommonPrefixes := [];
               IsTruncated := negb (Nat.leb (length (filter (under p) (objects b))) 1);
               NextMarker := "" |}).
Proof.
  intros Hb W. unfold S3.List. rewrite (request_healthy b _ Hb).
  rewrite (listing_nodelim _ _ W). unfold after_marker, page.
  rewrite firstn_map, keys_of_EKey, prefixes_of_EKey, length_map.
  reflexivity.
Qed.

(** C7.  [Stat] lists the store at the exact key with a limit of one
    entry.  When the key holds an object it reports a file with the
    object's size and modification time; when the key holds no object but
    is a prefix of other keys it reports a directory; when no key starts
    with it the path is not found. *)
Theorem Stat_file_or_directory (time_Parse : string -> option Z) (d : driver)
    (b : Bucket) (path : string) :
  healthy b ->
  wf_store (objects b) ->
  (forall o t,
      lookup (s3Path d path) (objects b) = Some o ->
      time_Parse (LastModified o) = Some t ->
      Stat time_Parse d b path
      = (b, inl {| Path := path; FileSize := len (Data o); ModTime := t;
                   IsDir := false |}))
  /\ (lookup (s3Path d path) (objects b) = None ->
      (exists k, In k (map fst (objects b))
                 /\ String.prefix (s3Path d path) k = true) ->
      Stat time_Parse d b path
      = (b, inl {| Path := path; FileSize := 0; ModTime := 0; IsDir := true |}))
  /\ ((forall k, In k (map fst (objects b)) ->
                 String.prefix (s3Path d path) k = false) ->
      Stat time_Parse d b path = (b, inr (PathNotFoundError path))).
Proof.
  intros Hb W. unfold Stat. rewrite (list_one b _ Hb W). cbn [Contents CommonPrefixes].
  repeat split.
  - intros o t Ho Ht.
    destruct (filter_under_exact _ _ _ W Ho) as [rest ->]. cbn.
    now rewrite String.eqb_refl, Ht.
  - intros Hn [k [Hk Hp]].
    destruct (filter_under_some _ _ _ Hk Hp) as [k' [o' [rest [-> Hin]]]]. cbn.
    destruct (String.eqb_spec k' (s3Path d path)) as [E | _]; [| reflexivity].
    exfalso. apply lookup_None in Hn. apply Hn. subst k'.
    apply in_map_iff. now exists (s3Path d path, o').
  - intros Hnone. now rewrite (filter_under_none _ _ Hnone).
Qed.

Lemma Stat_file_or_directory_witness :
  (forall o t,
      lookup (s3Path Sample.drv "/p")
        (objects (Sample.store [("p"%string, Sample.object Sample.abc);
                                ("q/r"%string, Sample.object [])] [])) = Some o ->
      Sample.instant (LastModified o) = Some t ->
      Stat Sample.instant Sample.drv
        (Sample.store [("p"%string, Sample.object Sample.abc);
                       ("q/r"%string, Sample.object [])] []) "/p"
      = (Sample.store [("p"%string, Sample.object Sample.abc);
                       ("q/r"%string, Sample.object [])] [],
         inl {| Path := "/p"; FileSize := len (Data o); ModTime := t;
                IsDir := false |}))
  /\ (lookup (s3Path Sample.drv "/p")
        (objects (Sample.store [("p"%string, Sample.object Sample.abc);
                                ("q/r"%string, Sample.object [])] [])) = None ->
      (exists k, In k (map fst (objects (Sample.store
                                  [("p"%string, Sample.object Sample.abc);
                                   ("q/r"%string, Sample.object [])] [])))
                 /\ String.prefix (s3Path Sample.drv "/p") k = true) ->
      Stat Sample.instant Sample.drv
        (Sample.store [("p"%string, Sample.object Sample.abc);
                       ("q/r"%string, Sample.object [])] []) "/p"
      = (Sample.store [("p"%string, Sample.object Sample.abc);
                       ("q/r"%string, Sample.object [])] [],
         inl {| Path := "/p"; FileSize := 0; ModTime := 0; IsDir := true |}))
  /\ ((forall k, In k (map fst (objects (Sample.store
                                  [("p"%string, Sample.object Sample.abc);
                                   ("q/r"%string, Sample.object [])] []))) ->
                 String.prefix (s3Path Sample.drv "/p") k = false) ->
      Stat Sample.instant Sample.drv
        (Sample.store [("p"%string, Sample.object Sample.abc);
                       ("q/r"%string, Sample.object [])] []) "/p"
      = (Sample.store [("p"%string, Sample.object Sample.abc);
                       ("q/r"%string, Sample.object [])] [],
         inr (PathNotFoundError "/p"))).
Proof.
  apply (Stat_file_or_directory Sample.instant Sample.drv
           (Sample.store [("p"%string, Sample.object Sample.abc);
                          ("q/r"%string, Sample.object [])] []) "/p").
  - reflexivity.
  - split; cbn; repeat constructor; discriminate.
Defined.

(** The three answers of [Stat] on a store with the keys [p] and [q/r]:
    a file, a directory, and a path that is not found. *)
Example Stat_examples :
  Stat Sample.instant Sample.drv
    (Sample.store [("p"%string, Sample.object Sample.abc);
                   ("q/r"%string, Sample.object [])] []) "/p"
  = (Sample.store [("p"%string, Sample.object Sample.abc);
                   ("q/r"%string, Sample.object [])] [],
     inl {| Path := "/p"; FileSize := 3; ModTime := 20; IsDir := false |})
  /\ Stat Sample.instant Sample.drv
       (Sample.store [("p"%string, Sample.object Sample.abc);
                      ("q/r"%string, Sample.object [])] []) "/q"
     = (Sample.store [("p"%string, Sample.object Sample.abc);
                      ("q/r"%string, Sample.object [])] [],
        inl {| Path := "/q"; FileSize := 0; ModTime := 0; IsDir := true |})
  /\ Stat Sample.instant Sample.drv
       (Sample.store [("p"%string, Sample.object Sample.abc);
                      ("q/r"%string, Sample.object [])] []) "/r"
     = (Sample.store [("p"%string, Sample.object Sample.abc);
                      ("q/r"%string, Sample.object [])] [],
        inr (PathNotFoundError "/r")).
Proof. repeat split. Qed.

End StatFacts.

(** ** Delete *)
Module DeleteFacts.

Import Strings KeyOrder S3 Driver StoreFacts ListingFacts.

(** The keys that do not start with [p]. *)
Definition outside (p : string) (ko : string * Object) : bool :=
  negb (String.prefix p (fst ko)).

Lemma filter_comm {A : Type} (f g : A -> bool) (l : list A) :
  filter f (filter g l) = filter g (filter f l).
Proof.
  induction l as [| x l IH]; cbn; [reflexivity |].
  destruct (g x) eqn:G, (f x) eqn:F; cbn; rewrite ?G, ?F, IH; reflexivity.
Qed.

Lemma filter_all {A : Type} (f : A -> bool) (l : list A) :
  (forall x, In x l -> f x = true) -> filter f l = l.
Proof.
  intros H. rewrite (filter_ext_in f (fun _ => true) l H). apply filter_true.
Qed.

Lemma filter_none {A : Type} (f : A -> bool) (l : list A) :
  (forall x, In x l -> f x = false) -> filter f l = [].
Proof.
  intros H. rewrite (filter_ext_in f (fun _ => false) l H). apply filter_false.
Qed.

Lemma sorted_app_lt {A : Type} (R : A -> A -> Prop) (l1 l2 : list A) :
  StronglySorted R (l1 ++ l2) ->
  forall x y, In x l1 -> In y l2 -> R x y.
Proof.
  induction l1 as [| a l1 IH]; cbn; intros H x y Hx Hy; [destruct Hx |].
  apply StronglySorted_inv in H. destruct H as [Hs Ha].
  destruct Hx as [<- | Hx]; [| now apply IH].
  rewrite Forall_forall in Ha. apply Ha. apply in_or_app. now right.
Qed.

(** Removing the first [n] keys under [p] leaves the other keys under [p]
    and every key outside [p]. *)
Lemma remove_page (s : list (string * Object)) (p : string) (n : nat) :
  wf_store s ->
  filter (under p) (remove_all (map fst (firstn n (filter (under p) s))) s)
  = skipn n (filter (under p) s)
  /\ filter (outside p) (remove_all (map fst (firstn n (filter (under p) s))) s)
     = filter (outside p) s.
Proof.
  intros W. unfold remove_all.
  set (F := filter (under p) s).
  set (g := fun ko : string * Object =>
              negb (existsb (String.eqb (fst ko)) (map fst (firstn n F)))).
  assert (SF : StronglySorted by_key (firstn n F ++ skipn n F)).
  { rewrite firstn_skipn. apply sorted_filter. now apply wf_by_key. }
  split.
  - rewrite filter_comm. fold F.
    rewrite <- (firstn_skipn n F) at 1. rewrite filter_app.
    rewrite filter_none, filter_all; trivial.
    + intros y Hy. unfold g.
      destruct (existsb _ _) eqn:E; [| reflexivity].
      apply existsb_exists in E. destruct E as [k [Hk E]].
      apply String.eqb_eq in E. apply in_map_iff in Hk. destruct Hk as [x [<- Hx]].
      pose proof (sorted_app_lt _ _ _ SF x y Hx Hy) as L. unfold by_key in L.
      rewrite E in L. destruct (lt_irrefl _ L).
    + intros x Hx. unfold g.
      replace (existsb _ _) with true; [reflexivity |].
      symmetry. apply existsb_exists. exists (fst x). split.
      * now apply in_map.
      * apply String.eqb_refl.
  - rewrite filter_comm. apply filter_all.
    intros x Hx. apply filter_In in Hx. destruct Hx as [_ Hx]. unfold g.
    destruct (existsb _ _) eqn:E; [| reflexivity].
    apply existsb_exists in E. destruct E as [k [Hk E]].
    apply String.eqb_eq in E. apply in_map_iff in Hk. destruct Hk as [x' [<- Hx']].
    assert (Hu : In x' F).
    { rewrite <- (firstn_skipn n F). apply in_or_app. now left. }
    apply filter_In in Hu. destruct Hu as [_ Hu].
    unfold under in Hu. unfold outside in Hx. rewrite E, Hu in Hx. discriminate.
Qed.

Lemma list_page (b : Bucket) (p : string) :
  healthy b -> wf_store (objects b) ->
  S3.List b p "" "" listMax
  = (b, inl (page (map (fun ko => EKey (key_of ko)) (filter (under p) (objects b)))
                  "" (Z.to_nat listMax))).
Proof.
  intros Hb W. unfold S3.List. rewrite (request_healthy b _ Hb).
  now rewrite (listing_nodelim _ _ W).
Qed.

Lemma page_contents (F : list (string * Object)) (m : nat) :
  Contents (page (map (fun ko => EKey (key_of ko)) F) "" m)
  = map key_of (firstn m F).
Proof. unfold page. cbn [Contents]. now rewrite firstn_map, keys_of_EKey. Qed.

Lemma key_names (F : list (string * Object)) :
  map KeyName (map key_of F) = map fst F.
Proof. rewrite map_map. reflexivity. Qed.

(** The loop of [Delete] on a store that serves every request: it ends
    once no key under the path is left, and leaves the other keys. *)
Lemma Delete_loop_healthy (d : driver) (path : string) :
  forall (fuel : nat) (b : Bucket),
    healthy b -> wf_store (objects b) ->
    (length (filter (under (s3Path d path)) (objects b)) < fuel)%nat ->
    Delete_loop fuel d b path
      (page (map (fun ko => EKey (key_of ko))
                 (filter (under (s3Path d path)) (objects b)))
            "" (Z.to_nat listMax))
    = Some (set_objects b (filter (outside (s3Path d path)) (objects b)), None).
Proof.
  set (p := s3Path d path).
  assert (M : (1 <= Z.to_nat listMax)%nat) by (unfold listMax; lia).
  induction fuel as [| fuel IH]; intros b Hb W Hf; [lia |].
  change (s3Path d path) with p in Hf.
  cbn [Delete_loop]. rewrite page_contents.
  destruct (filter (under p) (objects b)) as [| x F] eqn:EF.
  - rewrite firstn_nil. cbn [map len length]. cbn.
    f_equal. f_equal.
    rewrite filter_all; [symmetry; apply set_objects_same |].
    intros y Hy. unfold outside.
    destruct (String.prefix p (fst y)) eqn:E; [| reflexivity].
    assert (In y (filter (under p) (objects b))) by (apply filter_In; now split).
    rewrite EF in H. destruct H.
  - rewrite <- EF.
    replace (0 <? len (map key_of (firstn (Z.to_nat listMax) (filter (under p) (objects b)))))
      with true.
    2:{ symmetry. apply Z.ltb_lt. unfold len. rewrite length_map, EF, length_firstn.
        cbn [length]. lia. }
    rewrite key_names. unfold DelMulti at 1. rewrite (request_healthy b _ Hb).
    destruct (remove_page (objects b) p (Z.to_nat listMax) W) as [R1 R2].
    fold p in R1, R2.
    set (b' := set_objects b _).
    assert (Hb' : healthy b') by exact Hb.
    assert (W' : wf_store (objects b')) by (apply wf_filter; exact W).
    rewrite (list_page b' _ Hb' W').
    unfold p. rewrite IH; trivial.
    + fold p. unfold b' at 2. cbn [objects set_objects]. rewrite R2. reflexivity.
    + fold p. unfold b'. cbn [objects set_objects]. rewrite R1, length_skipn.
      rewrite EF in *. cbn [length] in *. lia.
Qed.

(** Nothing in the store starts with the key of the path: [Delete] finds
    no entry in the first page and reports that the path is not found. *)
Lemma Delete_nothing_under (d : driver) (b : Bucket) (path : string) (fuel : nat) :
  wf_store (objects b) -> healthy b ->
  (forall k, In k (map fst (objects b)) ->
             String.prefix (s3Path d path) k = false) ->
  Delete fuel d b path = Some (b, Some (PathNotFoundError path)).
Proof.
  intros W Hb Hnone. unfold Delete. rewrite (list_page b _ Hb W).
  rewrite page_contents, (filter_under_none _ _ Hnone). reflexivity.
Qed.

(** Some key starts with the key of the path: the loop of [Delete] runs
    until no page is left. *)
Lemma Delete_something_under (d : driver) (b : Bucket) (path : string)
    (fuel : nat) (k : string) :
  wf_store (objects b) -> healthy b ->
  In k (map fst (objects b)) -> String.prefix (s3Path d path) k = true ->
  (length (objects b) < fuel)%nat ->
  Delete fuel d b path
  = Some (set_objects b (filter (outside (s3Path d path)) (objects b)), None).
Proof.
  intros W Hb Hk Hp Hfuel. unfold Delete.
  rewrite (list_page b _ Hb W), page_contents.
  destruct (filter_under_some _ _ _ Hk Hp) as [k' [o' [rest [E _]]]].
  replace (len (map key_of (firstn (Z.to_nat listMax)
                              (filter (under (s3Path d path)) (objects b)))) =? 0)
    with false.
  2:{ symmetry. apply Z.eqb_neq. unfold len. rewrite length_map, E, length_firstn.
      unfold listMax. cbn [length]. lia. }
  apply Delete_loop_healthy; trivial.
  pose proof (filter_length_le (under (s3Path d path)) (objects b)). lia.
Qed.

(** C6.  On a store that serves every request and keeps its keys in
    order, [Delete] returns (given fuel for one round per object) and
    leaves in the store exactly the
    objects whose key does not start with the key of the path: it has
    removed the object of the path and every object whose key the key of
    the path is a prefix of, page after page until no match was left, and
    kept all others.  It reports that the path is not found exactly when
    no key is the key of the path or starts with it, and reports success
    exactly when there is such a key. *)
Theorem Delete_removes_prefixed (d : driver) (b : Bucket) (path : string)
    (fuel : nat) :
  wf_store (objects b) ->
  healthy b ->
  (length (objects b) < fuel)%nat ->
  exists err,
    Delete fuel d b path
    = Some (set_objects b (filter (outside (s3Path d path)) (objects b)), err)
    /\ (err = Some (PathNotFoundError path)
        <-> forall k, In k (map fst (objects b)) ->
                      String.prefix (s3Path d path) k = false)
    /\ (err = None
        <-> exists k, In k (map fst (objects b))
                      /\ String.prefix (s3Path d path) k = true).
Proof.
  intros W Hb Hfuel.
  destruct (existsb (String.prefix (s3Path d path)) (map fst (objects b))) eqn:X.
  - apply existsb_exists in X. destruct X as [k [Hk Hp]].
    exists None. split; [now apply (Delete_something_under d b path fuel k) |].
    split.
    + split; [discriminate |]. intros A. rewrite (A k Hk) in Hp. discriminate.
    + split; [intros _; now exists k | reflexivity].
  - assert (Hnone : forall k, In k (map fst (objects b)) ->
                              String.prefix (s3Path d path) k = false).
    { intros k Hk. destruct (String.prefix (s3Path d path) k) eqn:Hp; [| reflexivity].
      rewrite <- X. symmetry. apply existsb_exists. now exists k. }
    exists (Some (PathNotFoundError path)). split.
    + rewrite (Delete_nothing_under d b path fuel W Hb Hnone). f_equal. f_equal.
      rewrite filter_all; [now rewrite set_objects_same |].
      intros [k o] Hin. unfold outside. cbn [fst].
      rewrite (Hnone k); [reflexivity |]. now apply (in_map fst) in Hin.
    + split; [split; [intros _; exact Hnone | reflexivity] |].
      split; [discriminate |]. intros [k [Hk Hp]]. rewrite (Hnone k Hk) in Hp.
      discriminate.
Qed.

Lemma Delete_removes_prefixed_witness :
  exists err,
    Delete 4 Sample.drv
      (Sample.store [("p"%string, Sample.object Sample.abc);
                     ("p/q"%string, Sample.object []);
                     ("r"%string, Sample.object [])] []) "/p"
    = Some (set_objects
              (Sample.store [("p"%string, Sample.object Sample.abc);
                             ("p/q"%string, Sample.object []);
                             ("r"%string, Sample.object [])] [])
              (filter (outside (s3Path Sample.drv "/p"))
                 (objects (Sample.store [("p"%string, Sample.object Sample.abc);
                                         ("p/q"%string, Sample.object []);
                                         ("r"%string, Sample.object [])] []))),
            err)
    /\ (err = Some (PathNotFoundError "/p")
        <-> forall k,
              In k (map fst (objects
                     (Sample.store [("p"%string, Sample.object Sample.abc);
                                    ("p/q"%string, Sample.object []);
                                    ("r"%string, Sample.object [])] []))) ->
              String.prefix (s3Path Sample.drv "/p") k = false)
    /\ (err = None
        <-> exists k,
              In k (map fst (objects
                     (Sample.store [("p"%string, Sample.object Sample.abc);
                                    ("p/q"%string, Sample.object []);
                                    ("r"%string, Sample.object [])] [])))
              /\ String.prefix (s3Path Sample.drv "/p") k = true).
Proof.
  apply (Delete_removes_prefixed Sample.drv
           (Sample.store [("p"%string, Sample.object Sample.abc);
                          ("p/q"%string, Sample.object []);
                          ("r"%string, Sample.object [])] []) "/p" 4).
  - split; cbn; repeat constructor; discriminate.
  - reflexivity.
  - cbn. lia.
Defined.

(** A store that does not serve the first listing: the guard
    [err != nil || len(listResponse.Contents) == 0] turns the failure of
    the request into [PathNotFoundError], whatever the store holds, where
    the listing in the loop returns the error of the request. *)
Lemma Delete_first_listing_fails (d : driver) (b : Bucket) (path : string)
    (e : error) (rest : list (option error)) (fuel : nat) :
  faults b = Some e :: rest ->
  Delete fuel d b path = Some (set_faults b rest, Some (PathNotFoundError path)).
Proof. intros Hf. unfold Delete, S3.List, request. now rewrite Hf. Qed.

(** The object [p] exists, the first listing fails, and [Delete] answers
    that the path is not found. *)
Example Delete_not_found_though_present :
  lookup (s3Path Sample.drv "/p")
    (objects (Sample.store [("p"%string, Sample.object Sample.abc)]
                [Some (OtherError "connection reset")]))
  = Some (Sample.object Sample.abc)
  /\ Delete 1 Sample.drv
       (Sample.store [("p"%string, Sample.object Sample.abc)]
          [Some (OtherError "connection reset")]) "/p"
     = Some (Sample.store [("p"%string, Sample.object Sample.abc)] [],
             Some (PathNotFoundError "/p")).
Proof. split; reflexivity. Qed.

(** [Delete] on a store with three keys, two of them under the path. *)
Example Delete_example :
  Delete 4 Sample.drv
    (Sample.store [("p"%string, Sample.object Sample.abc);
                   ("p/q"%string, Sample.object []);
                   ("r"%string, Sample.object [])] []) "/p"
  = Some (Sample.store [("r"%string, Sample.object [])] [], None).
Proof. reflexivity. Qed.

(** C5, the failing input: the listing succeeds, the bulk delete of the
    page fails, and [Delete] returns [nil]; the object is still there. *)
Lemma Delete_swallows_failed_bulk_delete :
  Delete 2 Sample.drv
    (Sample.store [("p"%string, Sample.object Sample.abc)]
       [None; Some (OtherError "bulk delete failed")]) "/p"
  = Some (Sample.store [("p"%string, Sample.object Sample.abc)] [], None).
Proof. reflexivity. Qed.

End DeleteFacts.

(** ** Listings with a delimiter *)
Module RollupFacts.

Import Strings KeyOrder S3 StoreFacts ListingFacts.

Lemma head_seg_nodelim (c : ascii) (r : string) :
  has_delim c r = false -> head_seg c r = r.
Proof.
  induction r as [| a r IH]; cbn; [reflexivity |].
  destruct (Ascii.eqb a c); cbn; [discriminate |].
  intros H. now rewrite IH.
Qed.

Lemma has_delim_head_seg (c : ascii) (r : string) :
  has_delim c (head_seg c r) = has_delim c r.
Proof.
  induction r as [| a r IH]; cbn; [reflexivity |].
  destruct (Ascii.eqb a c) eqn:E; cbn; rewrite E; cbn; trivial.
Qed.

Lemma head_seg_nonempty (c : ascii) (r : string) :
  r <> EmptyString -> head_seg c r <> EmptyString.
Proof. destruct r as [| a r]; cbn; [congruence |]. now destruct (Ascii.eqb a c). Qed.

(** Cutting keys at their first delimiter keeps them in order. *)
Lemma head_seg_mono (c : ascii) (r1 r2 : string) :
  lt r1 r2 -> le (head_seg c r1) (head_seg c r2).
Proof.
  revert r2; induction r1 as [| a r1 IH]; intros r2 H.
  - apply empty_le.
  - destruct r2 as [| a' r2]; [discriminate H |].
    unfold lt, String_as_OT.lt in H. cbn [String_as_OT.compare] in H.
    destruct (Ascii_as_OT.compare a a') eqn:E; [| | discriminate].
    + apply ascii_compare_eq in E. subst a'. cbn [head_seg].
      destruct (Ascii.eqb a c); [apply le_refl |].
      apply le_cons. now apply IH.
    + right. cbn [head_seg].
      destruct (Ascii.eqb a c), (Ascii.eqb a' c);
        unfold lt, String_as_OT.lt; cbn [String_as_OT.compare]; now rewrite E.
Qed.

(** The name under which a key under [p] is listed. *)
Lemma classify_name (p delim : string) (c : ascii) (ko : string * Object) :
  delim_char delim = Some c ->
  String.prefix p (fst ko) = true ->
  entry_name (classify p delim ko)
  = (p ++ head_seg c (drop (String.length p) (fst ko)))%string.
Proof.
  intros D U. unfold classify. rewrite D.
  destruct (has_delim c _) eqn:E; cbn [entry_name key_of KeyName]; [reflexivity |].
  rewrite (head_seg_nodelim _ _ E). now apply prefix_split.
Qed.

Lemma classify_name_nodelim (p delim : string) (ko : string * Object) :
  delim_char delim = None ->
  entry_name (classify p delim ko) = fst ko.
Proof. intros D. unfold classify. now rewrite D. Qed.

Lemma sorted_map_mono {A B : Type} (R : A -> A -> Prop) (R' : B -> B -> Prop)
    (g : A -> B) (l : list A) :
  (forall x y, In x l -> In y l -> R x y -> R' (g x) (g y)) ->
  StronglySorted R l -> StronglySorted R' (map g l).
Proof.
  intros M H. induction H as [| x l Hs IH Hx]; cbn; constructor.
  - apply IH. intros; apply M; trivial; now right.
  - rewrite Forall_map. rewrite Forall_forall in *. intros y Hy.
    apply M; [now left | now right | now apply Hx].
Qed.

(** The names of the listed keys ascend, weakly before the roll-up. *)
Lemma classify_sorted (s : list (string * Object)) (p delim : string) :
  wf_store s ->
  StronglySorted name_le (map (classify p delim) (filter (under p) s)).
Proof.
  intros W.
  apply (sorted_map_mono by_key).
  2:{ apply sorted_filter. now apply wf_by_key. }
  intros x y Hx Hy L. apply filter_In in Hx, Hy.
  destruct Hx as [_ Ux], Hy as [_ Uy]. unfold under in Ux, Uy. unfold by_key in L.
  unfold name_le.
  destruct (delim_char delim) as [c |] eqn:D.
  - rewrite (classify_name _ _ _ _ D Ux), (classify_name _ _ _ _ D Uy).
    rewrite (prefix_split _ _ Ux), (prefix_split _ _ Uy) in L.
    apply lt_app in L. apply (head_seg_mono c) in L.
    destruct L as [-> | L]; [left; reflexivity | right; now apply lt_app].
  - rewrite !classify_name_nodelim by trivial. now right.
Qed.

Lemma key_unique (s : list (string * Object)) (x y : string * Object) :
  StronglySorted by_key s -> In x s -> In y s -> fst x = fst y -> x = y.
Proof.
  induction 1 as [| a l Hs IH Ha]; cbn; [tauto |].
  rewrite Forall_forall in Ha.
  intros [-> | Hx] [-> | Hy] E; trivial.
  - specialize (Ha _ Hy). unfold by_key in Ha. rewrite E in Ha. destruct (lt_irrefl _ Ha).
  - specialize (Ha _ Hx). unfold by_key in Ha. rewrite E in Ha. destruct (lt_irrefl _ Ha).
  - now apply IH.
Qed.

(** Two keys listed under one name are rolled up into the same entry. *)
Lemma classify_same_name (s : list (string * Object)) (p delim : string)
    (x y : string * Object) :
  wf_store s ->
  In x (filter (under p) s) -> In y (filter (under p) s) ->
  entry_name (classify p delim x) = entry_name (classify p delim y) ->
  classify p delim x = classify p delim y.
Proof.
  intros W Hx Hy. apply filter_In in Hx, Hy.
  destruct Hx as [Ix Ux], Hy as [Iy Uy]. unfold under in Ux, Uy.
  assert (K : fst x = fst y -> x = y)
    by (apply (key_unique s); trivial; now apply wf_by_key).
  unfold classify. destruct (delim_char delim) as [c |].
  2:{ cbn. intros E. now rewrite (K E). }
  set (rx := drop (String.length p) (fst x)).
  set (ry := drop (String.length p) (fst y)).
  assert (Ex : fst x = (p ++ rx)%string) by now apply prefix_split.
  assert (Ey : fst y = (p ++ ry)%string) by now apply prefix_split.
  destruct (has_delim c rx) eqn:Dx, (has_delim c ry) eqn:Dy; cbn.
  - now intros ->.
  - rewrite Ey. intros E. apply app_inj in E.
    rewrite <- (has_delim_head_seg c rx), E in Dx. congruence.
  - rewrite Ex. intros E. apply app_inj in E.
    rewrite <- (has_delim_head_seg c ry), <- E in Dy. congruence.
  - intros E. now rewrite (K E).
Qed.

End RollupFacts.

(** ** The pages of a listing *)
Module PageFacts.

Import Strings KeyOrder S3 StoreFacts ListingFacts RollupFacts.

Lemma collapse_incl (l : list entry) (e : entry) :
  In e (collapse l) -> In e l.
Proof.
  induction l as [| x tl IH]; [trivial |].
  cbn [collapse]. destruct tl as [| x' tl']; [trivial |].
  destruct (String.eqb _ _).
  - intros H. right. now apply IH.
  - intros [<- | H]; [now left | right; now apply IH].
Qed.

(** The roll-up leaves the names in strictly ascending order. *)
Lemma collapse_sorted (l : list entry) :
  StronglySorted name_le l -> StronglySorted name_lt (collapse l).
Proof.
  induction 1 as [| x tl Hs IH Hx]; [constructor |].
  cbn [collapse]. destruct tl as [| x' tl']; [repeat constructor |].
  destruct (String.eqb_spec (entry_name x) (entry_name x')) as [E | N]; [exact IH |].
  constructor; [exact IH |].
  rewrite Forall_forall in *. intros y Hy. apply collapse_incl in Hy.
  pose proof (Hx x' (or_introl eq_refl)) as [E | L]; [contradiction |].
  destruct Hy as [<- | Hy]; [exact L |].
  apply StronglySorted_inv in Hs. destruct Hs as [_ Hx'].
  rewrite Forall_forall in Hx'. exact (lt_le_trans _ _ _ L (Hx' _ Hy)).
Qed.

(** An entry survives the roll-up when the entries of its name are all
    equal to it. *)
Lemma collapse_complete (l : list entry) (e : entry) :
  In e l -> (forall e', In e' l -> entry_name e' = entry_name e -> e' = e) ->
  In e (collapse l).
Proof.
  induction l as [| x tl IH]; [trivial |].
  intros He Hu. cbn [collapse]. destruct tl as [| x' tl'].
  - destruct He as [<- | []]. now left.
  - assert (IH' : In e (x' :: tl') -> In e (collapse (x' :: tl'))).
    { intros H. apply IH; trivial. intros e' He'. apply Hu. now right. }
    destruct (String.eqb_spec (entry_name x) (entry_name x')) as [E | N].
    + destruct He as [<- | He]; [| now apply IH'].
      apply IH'. left. apply Hu; [right; now left | now symmetry].
    + destruct He as [<- | He]; [now left | right; now apply IH'].
Qed.

Lemma listing_sorted (s : list (string * Object)) (p delim : string) :
  wf_store s -> StronglySorted name_lt (listing s p delim).
Proof. intros W. apply collapse_sorted. now apply classify_sorted. Qed.

(** Every key under the prefix is reported, as itself or through its
    common prefix. *)
Lemma listing_complete (s : list (string * Object)) (p delim : string)
    (ko : string * Object) :
  wf_store s -> In ko s -> String.prefix p (fst ko) = true ->
  In (classify p delim ko) (listing s p delim).
Proof.
  intros W I U.
  assert (F : In ko (filter (under p) s)) by (apply filter_In; now split).
  apply collapse_complete; [now apply in_map |].
  intros e' He' E. apply in_map_iff in He'. destruct He' as [ko' [<- F']].
  now apply (classify_same_name s).
Qed.

(** Every entry of a listing stands for a key of the store under the
    prefix. *)
Lemma listing_sound (s : list (string * Object)) (p delim : string) (e : entry) :
  In e (listing s p delim) ->
  exists ko, In ko s /\ String.prefix p (fst ko) = true /\ e = classify p delim ko.
Proof.
  intros H. apply collapse_incl in H. apply in_map_iff in H.
  destruct H as [ko [<- F]]. apply filter_In in F. now exists ko.
Qed.

Lemma listing_names_nonempty (s : list (string * Object)) (p delim : string)
    (e : entry) :
  wf_store s -> In e (listing s p delim) -> entry_name e <> EmptyString.
Proof.
  intros [_ W] H. apply listing_sound in H. destruct H as [ko [I [U ->]]].
  rewrite Forall_forall in W. specialize (W (fst ko) (in_map fst _ _ I)).
  unfold classify. destruct (delim_char delim) as [c |]; [| exact W].
  destruct (has_delim c _) eqn:D; [| exact W]. cbn [entry_name].
  destruct p; [| discriminate]. cbn [append].
  apply head_seg_nonempty. intros E. rewrite E in D. discriminate.
Qed.

Lemma keys_of_app (l1 l2 : list entry) :
  keys_of (l1 ++ l2) = keys_of l1 ++ keys_of l2.
Proof. induction l1 as [| [k | q] l1 IH]; cbn; congruence. Qed.

Lemma prefixes_of_app (l1 l2 : list entry) :
  prefixes_of (l1 ++ l2) = prefixes_of l1 ++ prefixes_of l2.
Proof. induction l1 as [| [k | q] l1 IH]; cbn; congruence. Qed.

Lemma last_name_snoc (l : list entry) (e : entry) :
  last_name (l ++ [e]) = entry_name e.
Proof. unfold last_name. now rewrite rev_unit. Qed.

Lemma last_name_app (l1 l2 : list entry) :
  l2 <> [] -> last_name (l1 ++ l2) = last_name l2.
Proof.
  intros N. destruct (exists_last N) as [l [e ->]].
  now rewrite app_assoc, !last_name_snoc.
Qed.

(** The entries after the marker that ended a page are the entries that
    follow the page. *)
Lemma after_last_name (l1 l2 : list entry) :
  StronglySorted name_lt (l1 ++ l2) ->
  l1 <> [] -> last_name l1 <> EmptyString ->
  after_marker (last_name l1) (l1 ++ l2) = l2.
Proof.
  intros S N M. destruct (exists_last N) as [l [e ->]].
  rewrite last_name_snoc in *. unfold after_marker.
  destruct (entry_name e) as [| a m] eqn:E; [congruence |]. rewrite <- E.
  pose proof (DeleteFacts.sorted_app_lt _ _ _ S e) as After.
  rewrite <- app_assoc in *. cbn [app] in *.
  rewrite filter_app. cbn [filter]. rewrite ltb_irrefl.
  rewrite DeleteFacts.filter_none, DeleteFacts.filter_all; trivial.
  - intros y Hy. apply ltb_lt. apply After; trivial.
    apply in_or_app. right. now left.
  - intros x Hx.
    assert (L : name_lt x e).
    { apply (DeleteFacts.sorted_app_lt _ _ _ S); [trivial | now left]. }
    destruct (ltb (entry_name e) (entry_name x)) eqn:Q; [| reflexivity].
    apply ltb_lt in Q. destruct (lt_asym _ _ L Q).
Qed.

End PageFacts.

(** ** List *)
Module ListFacts.

Import Strings KeyOrder S3 Driver StoreFacts ListingFacts RollupFacts PageFacts.

Lemma collapse_length (l : list entry) : (length (collapse l) <= length l)%nat.
Proof.
  induction l as [| x tl IH]; [trivial |].
  cbn [collapse]. destruct tl as [| x' tl']; [trivial |].
  destruct (String.eqb _ _); cbn [length] in *; lia.
Qed.

Lemma listing_length (s : list (string * Object)) (p delim : string) :
  (length (listing s p delim) <= length s)%nat.
Proof.
  unfold listing. pose proof (collapse_length (map (classify p delim) (filter (under p) s))).
  rewrite length_map in H. pose proof (filter_length_le (under p) s). lia.
Qed.

Lemma last_name_In (l : list entry) :
  l <> [] -> exists e, In e l /\ last_name l = entry_name e.
Proof.
  intros N. destruct (exists_last N) as [l' [e ->]]. exists e.
  rewrite last_name_snoc. split; trivial. apply in_or_app. right. now left.
Qed.

Lemma list_with_delimiter (b : Bucket) (p marker : string) :
  healthy b ->
  S3.List b p "/" marker listMax
  = (b, inl (page (after_marker marker (listing (objects b) p "/")) "/"
                  (Z.to_nat listMax))).
Proof. intros Hb. unfold S3.List. now rewrite (request_healthy b _ Hb). Qed.

(** The loop of [List] on a store that serves every request: the pages
    partition the listing, so the loop gathers every entry once. *)
Lemma List_loop_healthy (d : driver) (b : Bucket) (dir : string) :
  healthy b -> wf_store (objects b) ->
  forall (fuel : nat) (done rest : list entry) (files directories : list string),
    listing (objects b) (s3Path d dir) "/" = done ++ rest ->
    (length rest < fuel)%nat ->
    List_loop fuel d b dir (page rest "/" (Z.to_nat listMax)) files directories
    = Some (b, inl ((files ++ file_paths d rest)
                    ++ (directories ++ directory_paths d rest))).
Proof.
  intros Hb W.
  assert (M : (1 <= Z.to_nat listMax)%nat) by (unfold listMax; lia).
  set (m := Z.to_nat listMax) in *.
  induction fuel as [| fuel IH]; intros done rest files directories HL Hf; [lia |].
  cbn [List_loop].
  change (Contents (page rest "/" m)) with (keys_of (firstn m rest)).
  change (CommonPrefixes (page rest "/" m)) with (prefixes_of (firstn m rest)).
  change (IsTruncated (page rest "/" m)) with (negb (Nat.leb (length rest) m)).
  change (NextMarker (page rest "/" m))
    with (if negb (Nat.leb (length rest) m)
          then last_name (firstn m rest) else EmptyString).
  destruct (Nat.leb (length rest) m) eqn:E; cbn [negb].
  - apply Nat.leb_le in E. now rewrite firstn_all2 by trivial.
  - apply Nat.leb_gt in E. rewrite (list_with_delimiter b _ _ Hb). fold m.
    assert (N : firstn m rest <> []).
    { intros Q. apply (f_equal (@length entry)) in Q.
      rewrite length_firstn in Q. cbn [length] in Q. lia. }
    assert (A : after_marker (last_name (firstn m rest))
                  (listing (objects b) (s3Path d dir) "/") = skipn m rest).
    { assert (S : StronglySorted name_lt ((done ++ firstn m rest) ++ skipn m rest)).
      { rewrite <- app_assoc, firstn_skipn, <- HL. now apply listing_sorted. }
      rewrite HL. rewrite <- (firstn_skipn m rest) at 2. rewrite app_assoc.
      rewrite <- (last_name_app done _ N).
      apply after_last_name; trivial.
      - intros Q. apply app_eq_nil in Q. tauto.
      - rewrite (last_name_app done _ N).
        destruct (last_name_In _ N) as [e [He ->]].
        apply (listing_names_nonempty (objects b) (s3Path d dir) "/"); trivial.
        rewrite HL. apply in_or_app. right.
        rewrite <- (firstn_skipn m rest). apply in_or_app. now left. }
    rewrite A.
    rewrite (IH (done ++ firstn m rest) (skipn m rest)).
    + unfold file_paths, directory_paths.
      assert (K : keys_of rest = keys_of (firstn m rest) ++ keys_of (skipn m rest))
        by now rewrite <- keys_of_app, firstn_skipn.
      assert (P : prefixes_of rest
                  = prefixes_of (firstn m rest) ++ prefixes_of (skipn m rest))
        by now rewrite <- prefixes_of_app, firstn_skipn.
      rewrite K, P, !map_app, <- !app_assoc. reflexivity.
    + now rewrite <- app_assoc, firstn_skipn.
    + rewrite length_skipn. lia.
Qed.

(** *** The reported paths *)

Lemma append_empty_r (s : string) : (s ++ "")%string = s.
Proof. induction s; cbn; congruence. Qed.

Lemma append_assoc (a b c : string) : ((a ++ b) ++ c)%string = (a ++ (b ++ c))%string.
Proof. induction a; cbn; congruence. Qed.

Lemma prefix_trans (a b c : string) :
  String.prefix a b = true -> String.prefix b c = true -> String.prefix a c = true.
Proof.
  intros H1 H2. rewrite (prefix_split _ _ H2), (prefix_split _ _ H1), append_assoc.
  apply prefix_app.
Qed.

Lemma TrimLeft_app (t x cutset : string) :
  TrimLeft t cutset <> EmptyString ->
  TrimLeft (t ++ x) cutset = (TrimLeft t cutset ++ x)%string.
Proof.
  induction t as [| c t IH]; cbn; [congruence |].
  destruct (inCutset c cutset); [exact IH | reflexivity].
Qed.

(** Every key of the driver starts with the key of the root. *)
Lemma s3Path_root (d : driver) (path : string) :
  String.prefix (s3Path d "") (s3Path d path) = true.
Proof.
  unfold s3Path. rewrite append_empty_r.
  destruct (TrimLeft (TrimRight (RootDirectory d) "/") "/") eqn:E;
    [apply prefix_empty |].
  rewrite TrimLeft_app by (rewrite E; discriminate). rewrite E. apply prefix_app.
Qed.

Lemma reported_under (d : driver) (name : string) :
  String.prefix (s3Path d "") name = true ->
  reported d name
  = ((if String.eqb (s3Path d "") "" then "/" else "")
       ++ drop (String.length (s3Path d "")) name)%string.
Proof.
  intros H. unfold reported. destruct name; cbn [Replace1]; now rewrite H.
Qed.

Lemma reported_inj (d : driver) (n1 n2 : string) :
  String.prefix (s3Path d "") n1 = true ->
  String.prefix (s3Path d "") n2 = true ->
  reported d n1 = reported d n2 -> n1 = n2.
Proof.
  intros H1 H2. rewrite !reported_under by trivial. intros E.
  apply app_inj in E. rewrite (prefix_split _ _ H1), (prefix_split _ _ H2).
  now rewrite E.
Qed.

Lemma last_append (p s : string) :
  s <> EmptyString -> Strings.last (p ++ s) = Strings.last s.
Proof.
  intros N. induction p as [| c p IH]; cbn [append]; [reflexivity |].
  cbn [Strings.last]. rewrite IH.
  destruct (p ++ s)%string eqn:E; [| reflexivity].
  destruct p, s; discriminate || congruence.
Qed.

Lemma dropLast_append (p s : string) :
  s <> EmptyString -> dropLast (p ++ s) = (p ++ dropLast s)%string.
Proof.
  intros N. induction p as [| c p IH]; cbn [append]; [reflexivity |].
  cbn [dropLast]. rewrite IH.
  destruct (p ++ s)%string eqn:E; [| reflexivity].
  destruct p, s; discriminate || congruence.
Qed.

Lemma dropLast_last (s : string) (c : ascii) :
  Strings.last s = Some c -> s = (dropLast s ++ String c "")%string.
Proof.
  induction s as [| a s IH]; [discriminate |].
  cbn [Strings.last dropLast]. destruct s as [| a' s].
  - now intros [= ->].
  - intros H. cbn [append]. f_equal. now apply IH.
Qed.

Lemma head_seg_last (c : ascii) (r : string) :
  has_delim c r = true -> Strings.last (head_seg c r) = Some c.
Proof.
  induction r as [| a r IH]; cbn [has_delim head_seg]; [discriminate |].
  destruct (Ascii.eqb_spec a c) as [-> | N]; cbn; [reflexivity |].
  intros H. rewrite (IH H).
  destruct (head_seg c r) eqn:E; [| reflexivity].
  destruct r; [discriminate H |]. cbn in E. destruct (Ascii.eqb a0 c); discriminate.
Qed.

Lemma sorted_names_NoDup (l : list entry) :
  StronglySorted name_lt l -> NoDup (map entry_name l).
Proof.
  induction 1 as [| e l Hs IH He]; cbn; constructor; trivial.
  intros I. apply in_map_iff in I. destruct I as [e' [E I]].
  rewrite Forall_forall in He. specialize (He _ I). unfold name_lt in He.
  rewrite E in He. destruct (lt_irrefl _ He).
Qed.

Lemma keys_of_In (l : list entry) (k : Key) : In k (keys_of l) <-> In (EKey k) l.
Proof.
  induction l as [| [k' | q] l IH]; cbn; [tauto | |].
  - rewrite IH. split; intros [H | H]; auto; left; congruence.
  - rewrite IH. split; [auto | intros [H | H]; [discriminate | trivial]].
Qed.

Lemma prefixes_of_In (l : list entry) (q : string) :
  In q (prefixes_of l) <-> In (EPrefix q) l.
Proof.
  induction l as [| [k' | q'] l IH]; cbn; [tauto | |].
  - rewrite IH. split; [auto | intros [H | H]; [discriminate | trivial]].
  - rewrite IH. split; intros [H | H]; auto; left; congruence.
Qed.

Lemma NoDup_map_on {A B : Type} (f : A -> B) (l : list A) :
  NoDup l -> (forall x y, In x l -> In y l -> f x = f y -> x = y) ->
  NoDup (map f l).
Proof.
  induction 1 as [| x l Hx Hl IH]; cbn; intros Inj; constructor.
  - intros I. apply in_map_iff in I. destruct I as [y [E I]].
    apply Hx. rewrite <- (Inj y x); auto.
  - apply IH. intros; apply Inj; auto.
Qed.

Lemma NoDup_keys_of (l : list entry) :
  NoDup (map entry_name l) -> NoDup (map KeyName (keys_of l)).
Proof.
  induction l as [| [k | q] l IH]; cbn; intros H; [constructor | |];
    apply NoDup_cons_iff in H; destruct H as [H1 H2]; auto.
  constructor; auto. intros I. apply H1.
  apply in_map_iff in I. destruct I as [k' [E I]].
  apply keys_of_In in I. rewrite <- E. now apply (in_map entry_name _ (EKey k')).
Qed.

Lemma NoDup_prefixes_of (l : list entry) :
  NoDup (map entry_name l) -> NoDup (prefixes_of l).
Proof.
  induction l as [| [k | q] l IH]; cbn; intros H; [constructor | |];
    apply NoDup_cons_iff in H; destruct H as [H1 H2]; auto.
  constructor; auto. intros I. apply H1.
  apply prefixes_of_In in I. now apply (in_map entry_name _ (EPrefix q)).
Qed.

(** No file is reported twice. *)
Lemma file_paths_NoDup (d : driver) (b : Bucket) (path : string) :
  wf_store (objects b) -> NoDup (file_paths d (children d b path)).
Proof.
  intros W. unfold file_paths, children.
  set (P := s3Path d (dir_path path)). set (L := listing (objects b) P "/").
  rewrite <- (map_map KeyName (reported d)).
  apply NoDup_map_on.
  - apply NoDup_keys_of, sorted_names_NoDup. now apply listing_sorted.
  - assert (U : forall n, In n (map KeyName (keys_of L)) ->
                          String.prefix (s3Path d "") n = true).
    { intros n I. apply in_map_iff in I. destruct I as [k [<- I]].
      apply keys_of_In in I. apply listing_sound in I.
      destruct I as [ko [_ [U E]]]. apply (prefix_trans _ P); [apply s3Path_root |].
      unfold classify in E. cbn [delim_char] in E.
      destruct (has_delim _ _); [discriminate |]. injection E as ->. exact U. }
    intros x y Hx Hy. apply reported_inj; auto.
Qed.

(** No directory is reported twice. *)
Lemma directory_paths_NoDup (d : driver) (b : Bucket) (path : string) :
  wf_store (objects b) -> NoDup (directory_paths d (children d b path)).
Proof.
  intros W. unfold directory_paths, children.
  set (P := s3Path d (dir_path path)). set (L := listing (objects b) P "/").
  apply NoDup_map_on.
  - apply NoDup_prefixes_of, sorted_names_NoDup. now apply listing_sorted.
  - assert (U : forall q, In q (prefixes_of L) ->
                          String.prefix (s3Path d "") (dropLast q) = true
                          /\ Strings.last q = Some "/"%char).
    { intros q I. apply prefixes_of_In in I. apply listing_sound in I.
      destruct I as [ko [_ [U E]]].
      unfold classify in E. cbn [delim_char] in E.
      destruct (has_delim _ _) eqn:D; [| discriminate]. injection E as ->.
      assert (N : head_seg "/" (drop (String.length P) (fst ko)) <> EmptyString).
      { apply head_seg_nonempty. intros Q. rewrite Q in D. discriminate. }
      split.
      - rewrite dropLast_append by trivial.
        apply (prefix_trans _ P); [apply s3Path_root | apply prefix_app].
      - rewrite last_append by trivial. now apply head_seg_last. }
    intros x y Hx Hy E.
    destruct (U _ Hx) as [Ux Lx], (U _ Hy) as [Uy Ly].
    apply reported_inj in E; trivial.
    rewrite (dropLast_last _ _ Lx), (dropLast_last _ _ Ly). now rewrite E.
Qed.

(** C8, as amended.  On a store that serves every request, whatever the
    number of keys and of pages, [List] follows the continuation markers
    to the last page and returns the paths of all files directly under the
    directory, followed by the paths of all its subdirectories: every key
    under the directory is reported (as a file, or through the
    subdirectory it lies in), nothing else is, no file is reported twice
    and no directory is reported twice. *)
Theorem List_children (d : driver) (b : Bucket) (path : string) (c : ascii) :
  healthy b ->
  wf_store (objects b) ->
  Strings.last path = Some c ->
  (forall fuel,
      (length (objects b) < fuel)%nat ->
      List fuel d b path
      = Some (b, inl (file_paths d (children d b path)
                      ++ directory_paths d (children d b path))))
  /\ (forall ko,
        In ko (objects b) ->
        String.prefix (s3Path d (dir_path path)) (fst ko) = true ->
        In (classify (s3Path d (dir_path path)) "/" ko) (children d b path))
  /\ (forall e,
        In e (children d b path) ->
        exists ko,
          In ko (objects b)
          /\ String.prefix (s3Path d (dir_path path)) (fst ko) = true
          /\ e = classify (s3Path d (dir_path path)) "/" ko)
  /\ NoDup (file_paths d (children d b path))
  /\ NoDup (directory_paths d (children d b path)).
Proof.
  intros Hb W Hc. repeat split.
  - intros fuel Hf. unfold List. rewrite Hc.
    change (if negb (String.eqb path "/") && negb (Ascii.eqb c "/")
            then (path ++ "/")%string else path) with
      (match Some c with
       | Some c => if negb (String.eqb path "/") && negb (Ascii.eqb c "/")
                   then (path ++ "/")%string else path
       | None => path
       end).
    rewrite <- Hc. fold (dir_path path).
    rewrite (list_with_delimiter b _ _ Hb). cbn [after_marker].
    rewrite (List_loop_healthy d b (dir_path path) Hb W fuel []); trivial.
    pose proof (listing_length (objects b) (s3Path d (dir_path path)) "/"). lia.
  - intros ko I U. now apply listing_complete.
  - intros e I. now apply listing_sound.
  - now apply file_paths_NoDup.
  - now apply directory_paths_NoDup.
Qed.

Lemma List_children_witness :
  (forall fuel,
      (length (objects Sample.tree) < fuel)%nat ->
      List fuel Sample.drv Sample.tree "/a"
      = Some (Sample.tree,
              inl (file_paths Sample.drv (children Sample.drv Sample.tree "/a")
                   ++ directory_paths Sample.drv
                        (children Sample.drv Sample.tree "/a"))))
  /\ (forall ko,
        In ko (objects Sample.tree) ->
        String.prefix (s3Path Sample.drv (dir_path "/a")) (fst ko) = true ->
        In (classify (s3Path Sample.drv (dir_path "/a")) "/" ko)
           (children Sample.drv Sample.tree "/a"))
  /\ (forall e,
        In e (children Sample.drv Sample.tree "/a") ->
        exists ko,
          In ko (objects Sample.tree)
          /\ String.prefix (s3Path Sample.drv (dir_path "/a")) (fst ko) = true
          /\ e = classify (s3Path Sample.drv (dir_path "/a")) "/" ko)
  /\ NoDup (file_paths Sample.drv (children Sample.drv Sample.tree "/a"))
  /\ NoDup (directory_paths Sample.drv (children Sample.drv Sample.tree "/a")).
Proof.
  apply (List_children Sample.drv Sample.tree "/a" "a"%char).
  - reflexivity.
  - split; cbn; repeat constructor; discriminate.
  - reflexivity.
Defined.

(** The listing of a small tree: the file first, then the directory,
    which holds two keys and is reported once. *)
Example List_tree :
  List 5 Sample.drv Sample.tree "/a"
  = Some (Sample.tree, inl ["/a/b"; "/a/c"]%string).
Proof. reflexivity. Qed.

(** A directory of 1001 files takes two pages; all 1001 are reported, in
    order. *)
Example List_two_pages :
  List 1 Sample.drv (Sample.store (Sample.numbered 1001) []) "/d" = None
  /\ List 2 Sample.drv (Sample.store (Sample.numbered 1001) []) "/d"
     = Some (Sample.store (Sample.numbered 1001) [],
             inl (map (fun i => String "/" (Sample.numbered_key i)) (seq 0 1001))).
Proof. split; vm_compute; reflexivity. Qed.

(** C8, the claim as stated fails: [a/b] is an object and also a prefix of
    the key [a/b/c], and [List] returns the path [/a/b] twice. *)
Lemma List_reports_a_path_twice :
  List 2 Sample.drv
    (Sample.store [("a/b"%string, Sample.object Sample.abc);
                   ("a/b/c"%string, Sample.object [])] []) "/a"
  = Some (Sample.store [("a/b"%string, Sample.object Sample.abc);
                        ("a/b/c"%string, Sample.object [])] [],
          inl ["/a/b"; "/a/b"]%string).
Proof. reflexivity. Qed.

End ListFacts.

(** ** Reading *)
Module ReadFacts.

Lemma Read_spec (r : Reader) (n : nat) (out : list byte) (err : option error)
    (r' : Reader) :
  Read r n = (out, err, r') ->
  rd_data r = out ++ rd_data r'
  /\ (length out <= n)%nat
  /\ rd_fail r' = rd_fail r
  /\ rd_eager r' = rd_eager r
  /\ (err = None -> (1 <= n)%nat -> (1 <= length out)%nat)
  /\ (forall e, err = Some e -> e = end_error r).
Proof.
  unfold Read. destruct (rd_data r) as [| x data] eqn:E.
  - intros [= <- <- <-]. rewrite E. repeat split; trivial; try (cbn; lia).
    + discriminate.
    + now intros e [= <-].
  - set (k := Nat.min n _).
    intros [= <- <- <-]. cbn [rd_data rd_fail rd_eager].
    rewrite firstn_skipn, length_firstn. repeat split; trivial; try lia.
    + intros _ Hn. cbn [length].
      assert (1 <= k)%nat by (unfold k; destruct (rd_grain r); lia). lia.
    + intros e. destruct (skipn k (x :: data)); [| discriminate].
      destruct (rd_eager r); [| discriminate]. congruence.
Qed.

Lemma Read_end (r : Reader) (n : nat) (out : list byte) (e : error) (r' : Reader) :
  Read r n = (out, Some e, r') -> rd_data r' = [].
Proof.
  unfold Read. destruct (rd_data r) as [| x data] eqn:E.
  - intros [= _ _ <-]. exact E.
  - intros [= _ H <-]. cbn [rd_data].
    destruct (skipn _ (x :: data)); [reflexivity | discriminate].
Qed.

Lemma Read_lazy (r : Reader) (n : nat) (out : list byte) (err : option error)
    (r' : Reader) :
  rd_eager r = false -> rd_data r <> [] ->
  Read r n = (out, err, r') -> err = None.
Proof.
  unfold Read. intros E N. destruct (rd_data r); [congruence |].
  rewrite E. intros [= _ <- _]. now destruct (skipn _ _).
Qed.

Lemma write_at_length (buf : list byte) (pos : Z) (data : list byte) :
  0 <= pos ->
  (Z.to_nat pos + length data <= length buf)%nat ->
  length (write_at buf pos data) = length buf.
Proof.
  intros Hp H. unfold write_at. rewrite !length_app, length_firstn, length_skipn. lia.
Qed.

(** What a read into [buf[pos:]] leaves in front of the position it
    reached. *)
Lemma write_at_firstn (buf : list byte) (pos : Z) (data : list byte) :
  0 <= pos -> (Z.to_nat pos <= length buf)%nat ->
  firstn (Z.to_nat (pos + len data)) (write_at buf pos data)
  = firstn (Z.to_nat pos) buf ++ data.
Proof.
  intros Hp H. unfold write_at, len.
  rewrite app_assoc, firstn_app.
  rewrite length_app, length_firstn.
  replace (Z.to_nat (pos + Z.of_nat (length data))
           - (Nat.min (Z.to_nat pos) (length buf) + length data))%nat with 0%nat by lia.
  cbn [firstn]. rewrite app_nil_r. apply firstn_all2.
  rewrite length_app, length_firstn. lia.
Qed.

End ReadFacts.

(** ** WriteStream: the count of bytes read from the source *)
Module ConsumedFacts.

Import S3 Driver ReadFacts.

Ltac st_simpl :=
  cbn [partNumber bytesRead putErrChan parts buf totalRead bucket reader released
       set_bytesRead set_buf set_bucket set_reader set_totalRead set_putErrChan
       set_released add_part] in *.

Section Run.

Variable d : driver.
Variable path : string.
Variable multi : Multi.
Hypothesis chunk_positive : 0 < ChunkSize d.

(** The buffer in use has the length of a chunk. *)
Definition buf_ok (st : wstate) : Prop :=
  length (buf st) = Z.to_nat (ChunkSize d).

(** From [st] to [st'] the call read some bytes from the source and added
    their number to [totalRead]. *)
Definition progress (st st' : wstate) : Prop :=
  buf_ok st'
  /\ rd_fail (reader st') = rd_fail (reader st)
  /\ exists out, rd_data (reader st) = out ++ rd_data (reader st')
                 /\ totalRead st' = totalRead st + len out.

Lemma progress_refl (st : wstate) : buf_ok st -> progress st st.
Proof.
  intros H. repeat split; trivial. exists []. cbn. split; [trivial | lia].
Qed.

Lemma progress_trans (a b c : wstate) : progress a b -> progress b c -> progress a c.
Proof.
  intros (_ & F1 & o1 & D1 & T1) (B & F2 & o2 & D2 & T2).
  repeat split; trivial; [congruence |].
  exists (o1 ++ o2). rewrite <- app_assoc, <- D2. split; trivial.
  unfold len in *. rewrite length_app. lia.
Qed.

(** A step that leaves the source and [totalRead] alone. *)
Lemma progress_frame (a b c : wstate) :
  progress a b -> reader c = reader b -> totalRead c = totalRead b -> buf_ok c ->
  progress a c.
Proof.
  intros (_ & F1 & o1 & D1 & T1) R T B. rewrite <- R, <- T in *.
  repeat split; trivial. now exists o1.
Qed.

Lemma failing_same (r r' : Reader) :
  rd_fail r' = rd_fail r -> failing r -> failing r'.
Proof. unfold failing. now intros ->. Qed.

Lemma getbuf_ok (st : wstate) : buf_ok (set_buf st (getbuf d)).
Proof. unfold buf_ok, getbuf, zeros. st_simpl. apply repeat_length. Qed.

(** The loop of [fromReader] ends, within a number of rounds bounded by
    the room left in the buffer. *)
Lemma fromReader_loop_total (from : Z) :
  0 <= from ->
  forall (fuel : nat) (st : wstate),
    buf_ok st -> 0 <= bytesRead st ->
    (Z.to_nat (ChunkSize d - (from + bytesRead st)) < fuel)%nat ->
    exists st' e,
      fromReader_loop d fuel from st = Some (st', e)
      /\ progress st st'
      /\ bytesRead st' - bytesRead st = totalRead st' - totalRead st
      /\ putErrChan st' = putErrChan st
      /\ (e = None -> failing (reader st) -> ChunkSize d <= from + bytesRead st').
Proof.
  intros Hfrom. induction fuel as [| fuel IH]; intros st B Hb Hf; [lia |].
  cbn [fromReader_loop].
  destruct (from + bytesRead st <? ChunkSize d) eqn:C.
  2:{ apply Z.ltb_ge in C. exists st, None.
      repeat split; trivial; try lia. now apply progress_refl. }
  apply Z.ltb_lt in C.
  destruct (Read (reader st) _) as [[data err] r'] eqn:R.
  apply Read_spec in R. destruct R as (D & L & F & _ & P1 & P2).
  unfold buf_ok, len in *. rewrite B in L.
  set (st1 := set_bytesRead _ _).
  assert (B1 : buf_ok st1).
  { unfold buf_ok, st1. st_simpl. rewrite write_at_length; trivial; lia. }
  assert (G1 : progress st st1).
  { repeat split; trivial. exists data. now split. }
  destruct err as [e |].
  - destruct (is_EOF e) eqn:Q.
    + exists st1, None. split; [reflexivity |]. split; [exact G1 |].
      unfold st1. st_simpl. split; [lia |]. split; [reflexivity |].
      intros _ [e0 [F0 Q0]]. exfalso.
      rewrite (P2 e eq_refl) in Q. unfold end_error in Q. rewrite F0 in Q. congruence.
    + exists st1, (Some e). split; [reflexivity |]. split; [exact G1 |].
      unfold st1. st_simpl. split; [lia |]. split; [reflexivity | discriminate].
  - specialize (P1 eq_refl).
    destruct (IH st1) as (st' & e & -> & G & Eq & Ch & Fl); trivial.
    + unfold st1. st_simpl. lia.
    + unfold st1. st_simpl. lia.
    + exists st', e. split; [reflexivity |].
      split; [now apply (progress_trans _ st1) |].
      unfold st1 in Eq, Ch, Fl. st_simpl. split; [lia |]. split; [exact Ch |].
      intros He Hfail. apply Fl; trivial.
      unfold failing in *. now rewrite F.
Qed.

(** A closure that reads nothing from the source. *)
Definition silent (st st' : wstate) : Prop :=
  reader st' = reader st /\ totalRead st' = totalRead st /\ buf_ok st'.

Lemma silent_progress (st st' : wstate) : buf_ok st -> silent st st' -> progress st st'.
Proof.
  intros B (R & T & B'). apply (progress_frame st st st'); trivial.
  now apply progress_refl.
Qed.

Lemma fromReader_total (from : Z) (fuel : nat) (st : wstate) :
  0 <= from ->
  buf_ok st ->
  (Z.to_nat (ChunkSize d) < fuel)%nat ->
  exists st' e,
    fromReader d multi fuel from st = Some (st', e)
    /\ progress st st'
    /\ (e = None ->
        bytesRead st' = totalRead st' - totalRead st
        /\ (failing (reader st) -> ChunkSize d <= from + bytesRead st')).
Proof.
  intros Hfrom B Hf. unfold fromReader.
  destruct (fromReader_loop_total from Hfrom fuel (set_bytesRead st 0))
    as (st1 & e & -> & G & Eq & Ch & Fl); trivial; st_simpl; try lia.
  assert (G' : progress st st1).
  { destruct G as (B1 & F1 & o & D1 & T1). st_simpl. repeat split; trivial. now exists o. }
  destruct e as [e |].
  { exists st1, (Some e). split; [reflexivity |]. split; [exact G' | discriminate]. }
  destruct (putErrChan st1) as [[putErr |] |] eqn:P.
  - eexists _, (Some putErr). split; [reflexivity |]. split; [| discriminate].
    apply (progress_frame st st1); trivial. apply G'.
  - eexists _, None. split; [reflexivity |].
    assert (U : reader (upload multi from st1) = reader st1
                /\ totalRead (upload multi from st1) = totalRead st1
                /\ bytesRead (upload multi from st1) = bytesRead st1).
    { unfold upload. destruct (0 <? bytesRead st1); [| now st_simpl].
      destruct (PutPart _ _ _ _) as [b' [part | err]]; now st_simpl. }
    destruct U as (U1 & U2 & U3). split.
    + apply (progress_frame st st1); trivial. apply getbuf_ok.
    + intros _. st_simpl. rewrite U3. split; [lia | now apply Fl].
  - eexists _, None. split; [reflexivity |].
    assert (U : reader (upload multi from st1) = reader st1
                /\ totalRead (upload multi from st1) = totalRead st1
                /\ bytesRead (upload multi from st1) = bytesRead st1).
    { unfold upload. destruct (0 <? bytesRead st1); [| now st_simpl].
      destruct (PutPart _ _ _ _) as [b' [part | err]]; now st_simpl. }
    destruct U as (U1 & U2 & U3). split.
    + apply (progress_frame st st1); trivial. apply getbuf_ok.
    + intros _. st_simpl. rewrite U3. split; [lia | now apply Fl].
Qed.

Lemma fromSmallCurrent_loop_total (total : Z) :
  total <= ChunkSize d ->
  forall (fuel : nat) (current : Reader) (st : wstate),
    buf_ok st -> 0 <= bytesRead st ->
    (Z.to_nat (total - bytesRead st) < fuel)%nat ->
    exists st' e,
      fromSmallCurrent_loop fuel total current st = Some (st', e) /\ silent st st'.
Proof.
  intros Ht. induction fuel as [| fuel IH]; intros current st B Hb Hf; [lia |].
  cbn [fromSmallCurrent_loop].
  destruct (bytesRead st <? total) eqn:C.
  2:{ exists st, None. now repeat split. }
  apply Z.ltb_lt in C.
  destruct (Read current _) as [[data err] r'] eqn:R.
  apply Read_spec in R. destruct R as (D & L & F & _ & P1 & P2).
  set (st1 := set_bytesRead _ _).
  assert (S1 : silent st st1).
  { unfold silent, buf_ok, st1. st_simpl. repeat split; trivial.
    unfold buf_ok in B. rewrite write_at_length; trivial; lia. }
  destruct err as [e |].
  - destruct (is_EOF e); eexists _, _; split; try reflexivity; exact S1.
  - specialize (P1 eq_refl).
    destruct (IH r' st1) as (st' & e & -> & (R' & T' & B')); [apply S1 | | |].
    + unfold st1, len. st_simpl. lia.
    + unfold st1, len. st_simpl. lia.
    + exists st', e. split; [reflexivity |].
      destruct S1 as (R1 & T1 & _). repeat split; trivial; congruence.
Qed.

Lemma fromSmallCurrent_total (total : Z) (fuel : nat) (st : wstate) :
  total <= ChunkSize d ->
  buf_ok st ->
  (Z.to_nat (ChunkSize d) < fuel)%nat ->
  exists st' e, fromSmallCurrent d path fuel total st = Some (st', e) /\ silent st st'.
Proof.
  intros Ht B Hf. unfold fromSmallCurrent.
  destruct (ReadStream d (bucket st) path 0) as [b' [current | err]].
  - destruct (fromSmallCurrent_loop_total total Ht fuel current
                (set_bytesRead (set_bucket st b') 0))
      as (st' & e & -> & S'); trivial; st_simpl; try lia.
    now exists st', e.
  - eexists _, _. split; [reflexivity |]. now repeat split.
Qed.

Lemma fromZeroFillSmall_loop_total (from to : Z) :
  0 <= from -> to <= ChunkSize d ->
  forall (fuel : nat) (st : wstate),
    buf_ok st -> 0 <= bytesRead st ->
    (Z.to_nat (to - (from + bytesRead st)) < fuel)%nat ->
    exists st' e,
      fromZeroFillSmall_loop d fuel from to st = Some (st', e) /\ silent st st'.
Proof.
  intros Hfrom Hto. induction fuel as [| fuel IH]; intros st B Hb Hf; [lia |].
  cbn [fromZeroFillSmall_loop].
  destruct (from + bytesRead st <? to) eqn:C.
  2:{ exists st, None. now repeat split. }
  apply Z.ltb_lt in C.
  destruct (Read (NewReader (zeros d)) _) as [[data err] r'] eqn:R.
  apply Read_spec in R. destruct R as (D & L & F & _ & P1 & P2).
  set (st1 := set_bytesRead _ _).
  assert (S1 : silent st st1).
  { unfold silent, buf_ok, st1. st_simpl. repeat split; trivial.
    unfold buf_ok in B. rewrite write_at_length; trivial; lia. }
  destruct err as [e |].
  - eexists _, _; split; try reflexivity; exact S1.
  - specialize (P1 eq_refl).
    destruct (IH st1) as (st' & e & -> & (R' & T' & B')); [apply S1 | | |].
    + unfold st1, len. st_simpl. lia.
    + unfold st1, len. st_simpl. lia.
    + exists st', e. split; [reflexivity |].
      destruct S1 as (R1 & T1 & _). repeat split; trivial; congruence.
Qed.

Lemma fromZeroFillSmall_total (from to : Z) (fuel : nat) (st : wstate) :
  0 <= from -> to <= ChunkSize d ->
  buf_ok st ->
  (Z.to_nat (ChunkSize d) < fuel)%nat ->
  exists st' e, fromZeroFillSmall d fuel from to st = Some (st', e) /\ silent st st'.
Proof.
  intros Hfrom Hto B Hf. unfold fromZeroFillSmall.
  destruct (fromZeroFillSmall_loop_total from to Hfrom Hto fuel (set_bytesRead st 0))
    as (st' & e & -> & S'); trivial; st_simpl; try lia.
  now exists st', e.
Qed.

Lemma fromZeroFillLarge_loop_total (from to : Z) :
  forall (fuel : nat) (bytesRead64 : Z) (st : wstate),
    buf_ok st ->
    (Z.to_nat (to - (from + bytesRead64)) < fuel)%nat ->
    exists st' e,
      fromZeroFillLarge_loop d multi fuel from to bytesRead64 st = Some (st', e)
      /\ silent st st'.
Proof.
  induction fuel as [| fuel IH]; intros n st B Hf; [lia |].
  cbn [fromZeroFillLarge_loop].
  destruct (ChunkSize d <=? to - (from + n)) eqn:C.
  2:{ exists st, None. now repeat split. }
  apply Z.leb_le in C.
  destruct (PutPart _ _ _ _) as [b' [part | err]].
  - destruct (IH (n + ChunkSize d) (add_part (set_bucket st b') part))
      as (st' & e & -> & S'); trivial; try lia.
    exists st', e. split; [reflexivity |]. exact S'.
  - eexists _, _. split; [reflexivity |]. now repeat split.
Qed.

Lemma fromZeroFillLarge_total (from to : Z) (fuel : nat) (st : wstate) :
  buf_ok st ->
  (Z.to_nat (ChunkSize d) + Z.to_nat (to - from) < fuel)%nat ->
  exists st' e, fromZeroFillLarge d multi fuel from to st = Some (st', e) /\ silent st st'.
Proof.
  intros B Hf. unfold fromZeroFillLarge.
  destruct (fromZeroFillLarge_loop_total from to fuel 0 st)
    as (st1 & e & -> & S1); trivial; try lia.
  destruct e as [e |]; [now exists st1, (Some e) |].
  assert (Z.rem (to - from) (ChunkSize d) <= ChunkSize d).
  { pose proof (Z.rem_bound_abs (to - from) (ChunkSize d)). lia. }
  destruct (fromZeroFillSmall_total 0 (Z.rem (to - from) (ChunkSize d)) fuel st1)
    as (st' & e & -> & S'); trivial; try lia; [apply S1 |].
  exists st', e. split; [reflexivity |].
  destruct S1 as (R1 & T1 & _), S' as (R' & T' & B'). repeat split; trivial; congruence.
Qed.

Lemma putPartNow_total (data : list byte) (st : wstate) :
  buf_ok st ->
  exists st' e, putPartNow multi data st = Some (st', e) /\ silent st st'.
Proof.
  intros B. unfold putPartNow.
  destruct (PutPart _ _ _ _) as [b' [part | err]];
    eexists _, _; (split; [reflexivity |]); now repeat split.
Qed.

(** The final loop ends: every round but the last takes a whole chunk
    from the source. *)
Lemma stream_total :
  forall (fuel : nat) (st : wstate),
    buf_ok st ->
    (length (rd_data (reader st)) + Z.to_nat (ChunkSize d) < fuel)%nat ->
    exists st' ret,
      stream d multi fuel st = Some (st', ret)
      /\ progress st st'
      /\ fst ret = totalRead st'
      /\ (snd ret = None -> ~ failing (reader st)).
Proof.
  induction fuel as [| fuel IH]; intros st B Hf; [lia |].
  cbn [stream].
  destruct (fromReader_total 0 (S fuel) st) as (st1 & e & -> & G & Post);
    trivial; try lia.
  destruct e as [e |].
  { eexists _, _. split; [reflexivity |]. split; [exact G |]. split; [reflexivity |].
    discriminate. }
  destruct (Post eq_refl) as [Hb Hfail].
  destruct (bytesRead st1 <? ChunkSize d) eqn:C.
  - apply Z.ltb_lt in C. eexists _, _. split; [reflexivity |].
    split; [exact G |]. split; [reflexivity |].
    intros _ F. specialize (Hfail F). lia.
  - apply Z.ltb_ge in C.
    destruct G as (B1 & F1 & out & D1 & T1).
    destruct (IH st1) as (st' & ret & -> & G' & R1 & R2); trivial.
    { rewrite D1, length_app in Hf. unfold len in T1. lia. }
    exists st', ret. split; [reflexivity |].
    split; [apply (progress_trans st st1); trivial; repeat split; eauto |].
    split; [exact R1 |].
    intros N F. apply (R2 N). unfold failing in *. now rewrite F1.
Qed.

(** What is established of a run of the statements under
    [if offset > 0] that started in [st0]. *)
Definition resumed (st0 : wstate)
    (res : option (wstate * option (Z * option error))) : Prop :=
  exists st' ret,
    res = Some (st', ret)
    /\ progress st0 st'
    /\ (forall n err, ret = Some (n, err) ->
          n = totalRead st' /\ (err = None -> ~ failing (reader st0))).

Lemma resumed_try (st0 : wstate) (o : outcome)
    (k : wstate -> option (wstate * option (Z * option error))) :
  (exists st1 e, o = Some (st1, e) /\ progress st0 st1
                 /\ (e = None -> resumed st0 (k st1))) ->
  resumed st0
    (match o with
     | None => None
     | Some (st', Some err) => Some (st', Some (totalRead st', Some err))
     | Some (st', None) => k st'
     end).
Proof.
  intros (st1 & e & -> & G & K). destruct e as [e |]; [| now apply K].
  exists st1, (Some (totalRead st1, Some e)). split; [reflexivity |].
  split; [exact G |]. intros n err [= <- <-]. split; [reflexivity | discriminate].
Qed.

(** A closure that reads nothing, followed by the rest of the block. *)
Lemma resumed_silent (st0 st : wstate) (o : outcome)
    (k : wstate -> option (wstate * option (Z * option error))) :
  progress st0 st ->
  (exists st1 e, o = Some (st1, e) /\ silent st st1) ->
  (forall st1, progress st0 st1 -> resumed st0 (k st1)) ->
  resumed st0
    (match o with
     | None => None
     | Some (st', Some err) => Some (st', Some (totalRead st', Some err))
     | Some (st', None) => k st'
     end).
Proof.
  intros G H K. apply resumed_try. destruct H as (st1 & e & -> & (R & T & B)).
  assert (G1 : progress st0 st1) by now apply (progress_frame st0 st).
  exists st1, e. split; [reflexivity |]. split; [exact G1 |]. intros _. now apply K.
Qed.

(** The last steps of every branch: fill the buffer from the source, and
    return when the source ended before the buffer was full. *)
Lemma resumed_tail (st0 st : wstate) (from : Z) (fuel : nat) :
  progress st0 st -> totalRead st0 = 0 -> 0 <= from ->
  (Z.to_nat (ChunkSize d) < fuel)%nat ->
  resumed st0
    (match fromReader d multi fuel from st with
     | None => None
     | Some (st', Some err) => Some (st', Some (totalRead st', Some err))
     | Some (st', None) =>
         if totalRead st' + from <? ChunkSize d
         then Some (st', Some (totalRead st', None))
         else Some (st', None)
     end).
Proof.
  intros G T0 Hfrom Hf. apply resumed_try.
  destruct (fromReader_total from fuel st) as (st1 & e & -> & G1 & Post);
    trivial; [apply G |].
  exists st1, e. split; [reflexivity |].
  split; [now apply (progress_trans st0 st) |]. intros ->.
  destruct (Post eq_refl) as [Hb Hfail].
  destruct (totalRead st1 + from <? ChunkSize d) eqn:C.
  - apply Z.ltb_lt in C. eexists _, _. split; [reflexivity |].
    split; [now apply (progress_trans st0 st) |].
    intros n err [= <- <-]. split; [reflexivity |]. intros _ F.
    destruct G as (_ & F0 & out & _ & T). unfold len in T.
    assert (failing (reader st)) by (unfold failing in *; now rewrite F0).
    specialize (Hfail H). lia.
  - eexists _, _. split; [reflexivity |].
    split; [now apply (progress_trans st0 st) |]. discriminate.
Qed.

Lemma resume_at_total (fuel : nat) (offset currentLength : Z) (st : wstate) :
  buf_ok st -> totalRead st = 0 -> 0 < offset -> 0 <= currentLength ->
  (Z.to_nat (ChunkSize d) + Z.to_nat offset < fuel)%nat ->
  resumed st (resume_at d path multi fuel offset currentLength st).
Proof.
  intros B T0 Hoff Hcl Hf. unfold resume_at.
  pose proof (progress_refl st B) as G0.
  assert (Hrem : forall x, 0 <= x -> 0 <= Z.rem x (ChunkSize d)).
  { intros x Hx. pose proof (Z.rem_bound_pos x (ChunkSize d)). lia. }
  destruct (offset <=? currentLength) eqn:C1;
    [apply Z.leb_le in C1 | apply Z.leb_gt in C1].
  - destruct (offset <? ChunkSize d) eqn:C2;
      [apply Z.ltb_lt in C2 | apply Z.ltb_ge in C2].
    + apply (resumed_silent st st); trivial.
      { apply fromSmallCurrent_total; trivial; lia. }
      intros st1 G1. apply resumed_tail; trivial; lia.
    + destruct (PutPartCopy _ _ _ _ _) as [b' [part | err]].
      * eexists _, _. split; [reflexivity |]. split; [| discriminate].
        now apply (progress_frame st st).
      * eexists _, _. split; [reflexivity |].
        split; [now apply (progress_frame st st) |].
        intros n e [= <- <-]. st_simpl. split; [now symmetry | discriminate].
  - destruct (currentLength <? ChunkSize d) eqn:C2;
      [apply Z.ltb_lt in C2 | apply Z.ltb_ge in C2].
    + destruct (offset <? ChunkSize d) eqn:C3;
        [apply Z.ltb_lt in C3 | apply Z.ltb_ge in C3].
      * apply (resumed_silent st st); trivial.
        { apply fromSmallCurrent_total; trivial; lia. }
        intros st1 G1. apply (resumed_silent st st1); trivial.
        { apply fromZeroFillSmall_total; trivial; try lia. apply G1. }
        intros st2 G2. apply resumed_tail; trivial; lia.
      * apply (resumed_silent st st); trivial.
        { apply fromSmallCurrent_total; trivial; lia. }
        intros st1 G1. apply (resumed_silent st st1); trivial.
        { apply fromZeroFillSmall_total; trivial; try lia. apply G1. }
        intros st2 G2. apply (resumed_silent st st2); trivial.
        { apply putPartNow_total. apply G2. }
        intros st3 G3. apply (resumed_silent st st3); trivial.
        { apply fromZeroFillLarge_total; [apply G3 | lia]. }
        intros st4 G4. apply resumed_tail; trivial; try lia. apply Hrem. lia.
    + destruct (PutPartCopy _ _ _ _ _) as [b' [part | err]].
      * assert (G1 : progress st (add_part (set_bucket st b') part))
          by now apply (progress_frame st st).
        apply (resumed_silent st (add_part (set_bucket st b') part)); trivial.
        { apply fromZeroFillLarge_total; [apply G1 | lia]. }
        intros st2 G2. apply resumed_tail; trivial; try lia. apply Hrem. lia.
      * eexists _, _. split; [reflexivity |].
        split; [now apply (progress_frame st st) |].
        intros n e [= <- <-]. st_simpl. split; [now symmetry | discriminate].
Qed.

Lemma Head_length (b b' : Bucket) (key : string) (n : Z) :
  Head b key = (b', inl n) -> 0 <= n.
Proof.
  unfold Head, request.
  destruct (faults b) as [| [e |] rest]; try discriminate;
    cbn [objects set_faults]; destruct (lookup key (objects b));
    intros [= <- <-]; unfold len; lia.
Qed.

Lemma resume_total (fuel : nat) (offset : Z) (st : wstate) :
  buf_ok st -> totalRead st = 0 -> 0 < offset ->
  (Z.to_nat (ChunkSize d) + Z.to_nat offset < fuel)%nat ->
  resumed st (resume d path multi fuel offset st).
Proof.
  intros B T0 Hoff Hf. unfold resume.
  destruct (Head (bucket st) (s3Path d path)) as [b' [n | err]] eqn:H.
  - apply Head_length in H.
    destruct (resume_at_total fuel offset n (set_bucket st b'))
      as (st' & ret & -> & G & R); trivial.
    exists st', ret. split; [reflexivity |]. split; [| exact R].
    destruct G as (B' & F' & out & D' & T'). st_simpl. repeat split; trivial. now exists out.
  - destruct (negb (isS3Code err "NoSuchKey")).
    + eexists _, _. split; [reflexivity |].
      split; [now apply (progress_frame st st); trivial; apply progress_refl |].
      intros n e [= <- <-]. st_simpl. split; [now symmetry | discriminate].
    + destruct (resume_at_total fuel offset 0 (set_bucket st b'))
        as (st' & ret & -> & G & R); trivial; try lia.
      exists st', ret. split; [reflexivity |]. split; [| exact R].
      destruct G as (B' & F' & out & D' & T'). st_simpl. repeat split; trivial.
      now exists out.
Qed.

Lemma body_total (fuel : nat) (offset : Z) (st : wstate) :
  buf_ok st -> totalRead st = 0 ->
  (length (rd_data (reader st)) + Z.to_nat (ChunkSize d) + Z.to_nat offset < fuel)%nat ->
  exists st' ret,
    body d path multi fuel offset st = Some (st', ret)
    /\ progress st st'
    /\ fst ret = totalRead st'
    /\ (snd ret = None -> ~ failing (reader st)).
Proof.
  intros B T0 Hf. unfold body.
  destruct (0 <? offset) eqn:C; [apply Z.ltb_lt in C | apply stream_total; trivial; lia].
  destruct (resume_total fuel offset st) as (st1 & ret & -> & G & R); trivial; try lia.
  destruct ret as [[n err] |].
  - destruct (R n err eq_refl) as [-> N]. exists st1, (totalRead st1, err).
    repeat split; trivial; apply G.
  - destruct (stream_total fuel st1) as (st' & ret & -> & G' & R1 & R2).
    + apply G.
    + destruct G as (_ & _ & out & D & _). rewrite D, length_app in Hf. lia.
    + exists st', ret. split; [reflexivity |].
      split; [now apply (progress_trans st st1) |]. split; [exact R1 |].
      intros N F. apply (R2 N). destruct G as (_ & F1 & _).
      unfold failing in *. now rewrite F1.
Qed.

End Run.

End ConsumedFacts.

(** ** WriteStream: what the deferred function leaves behind *)
Module CleanupFacts.

Import S3 Driver StoreFacts.

(** A missing object stops every resumed write: the probe takes it for an
    object of length 0, but [fromSmallCurrent] then opens it for reading
    and the call returns [PathNotFoundError] before it read or wrote
    anything.  The session it initiated is left pending. *)
Lemma WriteStream_on_missing_object (fuel : nat) (late : bool) (d : driver)
    (b : Bucket) (path : string) (offset : Z) (r : Reader) :
  healthy b ->
  lookup (s3Path d path) (objects b) = None ->
  0 < offset -> 0 < ChunkSize d ->
  WriteStream fuel late d b path offset r
  = Some (set_uploads b
            (uploads b ++ [{| up_key := s3Path d path; up_parts := [];
                              up_state := Pending |}]),
          r, 0, Some (PathNotFoundError path)).
Proof.
  intros Hb Hl Ho Hc. unfold WriteStream, InitMulti.
  rewrite (request_healthy b _ Hb).
  set (b1 := set_uploads b _).
  assert (Hb1 : healthy b1) by exact Hb.
  unfold body. replace (0 <? offset) with true by (symmetry; now apply Z.ltb_lt).
  unfold resume. cbn [bucket]. unfold Head. rewrite (request_healthy b1 _ Hb1).
  change (objects b1) with (objects b). rewrite Hl. cbn [isS3Code String.eqb negb].
  cbn -[resume_at].
  unfold resume_at.
  replace (offset <=? 0) with false by (symmetry; apply Z.leb_gt; lia).
  replace (0 <? ChunkSize d) with true by (symmetry; now apply Z.ltb_lt).
  assert (F : fromSmallCurrent d path fuel 0
                (set_bucket
                   {| partNumber := 1; bytesRead := 0; putErrChan := None;
                      parts := []; buf := getbuf d; totalRead := 0;
                      bucket := b1; reader := r; released := false |} b1)
              = Some (set_bucket
                        {| partNumber := 1; bytesRead := 0; putErrChan := None;
                           parts := []; buf := getbuf d; totalRead := 0;
                           bucket := b1; reader := r; released := false |} b1,
                      Some (PathNotFoundError path))).
  { unfold fromSmallCurrent, ReadStream, GetResponseWithHeaders. cbn [bucket set_bucket].
    rewrite (request_healthy b1 _ Hb1). change (objects b1) with (objects b).
    rewrite Hl. reflexivity. }
  destruct (offset <? ChunkSize d); rewrite F; reflexivity.
Qed.

(** C10, the failing input: no object at [/p], offset 1.  The call
    returns [PathNotFoundError], reads nothing and writes nothing. *)
Lemma WriteStream_missing_object_not_found :
  WriteStream 4 false Sample.drv (Sample.store [] []) "/p" 1
    (Sample.source Sample.abc)
  = Some (set_uploads (Sample.store [] [])
            [{| up_key := "p"; up_parts := []; up_state := Pending |}],
          Sample.source Sample.abc, 0, Some (PathNotFoundError "/p")).
Proof. reflexivity. Qed.

(** The same beyond the first chunk. *)
Example WriteStream_missing_object_beyond_chunk :
  WriteStream 4 false Sample.drv (Sample.store [] []) "/p" 9
    (Sample.source Sample.abc)
  = Some (set_uploads (Sample.store [] [])
            [{| up_key := "p"; up_parts := []; up_state := Pending |}],
          Sample.source Sample.abc, 0, Some (PathNotFoundError "/p")).
Proof. reflexivity. Qed.

(** A source without bytes at offset 0: no part is uploaded, the deferred
    function finds [parts] empty and neither completes nor aborts the
    session; the object (if any) stays as it was and the call reports
    success. *)
Lemma WriteStream_of_nothing (fuel : nat) (late : bool) (d : driver)
    (b : Bucket) (path : string) :
  healthy b -> 0 < ChunkSize d ->
  WriteStream (S fuel) late d b path 0 (NewReader [])
  = Some (set_uploads b
            (uploads b ++ [{| up_key := s3Path d path; up_parts := [];
                              up_state := Pending |}]),
          NewReader [], 0, None).
Proof.
  intros Hb Hc. unfold WriteStream, InitMulti.
  rewrite (request_healthy b _ Hb).
  assert (E : (0 <? ChunkSize d) = true) by now apply Z.ltb_lt.
  unfold body. cbn [Z.ltb Z.compare]. cbn [stream]. unfold fromReader.
  cbn [fromReader_loop set_bytesRead bytesRead Z.add].
  rewrite E. cbn. rewrite E. reflexivity.
Qed.

(** C2, the failing input: the session that [WriteStream] initiated for
    an empty source is still pending when the call has returned. *)
Lemma WriteStream_leaves_session_pending :
  WriteStream 2 false Sample.drv (Sample.store [] []) "/p" 0 (Sample.source [])
  = Some (set_uploads (Sample.store [] [])
            [{| up_key := "p"; up_parts := []; up_state := Pending |}],
          Sample.source [], 0, None)
  /\ state_of
       (set_uploads (Sample.store [] [])
          [{| up_key := "p"; up_parts := []; up_state := Pending |}]) 0%nat
     = Some Pending.
Proof. split; reflexivity. Qed.

(** C3, the failing input: the part is uploaded, the completion call
    fails, the deferred function aborts the session, and the call returns
    the count with a [nil] error although no object was written. *)
Lemma WriteStream_hides_failed_completion :
  WriteStream 2 false Sample.drv
    (Sample.store [] [None; None; Some (OtherError "completion failed")])
    "/p" 0 (Sample.source Sample.abc)
  = Some ({| objects := [];
             uploads := [{| up_key := "p"; up_parts := [(1, Sample.abc)];
                            up_state := Aborted |}];
             faults := []; min_part := 4;
             clock := "2015-02-02T00:00:00Z"; body_grain := [] |},
          Sample.source [], 3, None).
Proof. reflexivity. Qed.

(** A failed upload is reported, but the deferred function completes the
    session with the parts uploaded before instead of aborting it: six
    bytes were read, the object holds the first four. *)
Example WriteStream_failed_upload_commits_prefix :
  WriteStream 3 false Sample.drv
    (Sample.store [] [None; None; Some (OtherError "upload failed")])
    "/p" 0 (Sample.source (Sample.abc ++ Sample.abc))
  = Some ({| objects := [("p"%string,
                          {| Data := ["a"; "b"; "c"; "a"]%byte;
                             LastModified := "2015-02-02T00:00:00Z" |})];
             uploads := [{| up_key := "p";
                            up_parts := [(1, ["a"; "b"; "c"; "a"]%byte)];
                            up_state := Completed |}];
             faults := []; min_part := 4;
             clock := "2015-02-02T00:00:00Z"; body_grain := [] |},
          Sample.source [], 6, Some (OtherError "upload failed")).
Proof. reflexivity. Qed.

End CleanupFacts.

(** ** WriteStream: the object written *)
Module ContentFacts.

Import S3 Driver StoreFacts ReadFacts.
Import ConsumedFacts.

Lemma nth_error_update (us : list Upload) (m : nat) (f : Upload -> Upload) (u : Upload) :
  nth_error us m = Some u ->
  nth_error (update_upload m f us) m = Some (f u).
Proof.
  revert m; induction us as [| x us IH]; intros [| m]; cbn; try discriminate.
  - now intros [= ->].
  - apply IH.
Qed.

Lemma set_part_new (n : Z) (x : list byte) (datas : list (list byte)) (k : Z) :
  k + len datas = n ->
  set_part n x (numbered k datas) = numbered k (datas ++ [x]).
Proof.
  revert k; induction datas as [| y datas IH]; intros k H; unfold len in *; cbn in *.
  - now replace n with k by lia.
  - replace (k =? n) with false by (symmetry; apply Z.eqb_neq; lia).
    f_equal. apply IH. lia.
Qed.

Lemma parts_from_app (k : Z) (datas : list (list byte)) (x : list byte) :
  parts_from k (datas ++ [x])
  = parts_from k datas ++ [{| PartN := k + len datas; ETag := etag x; Size := len x |}].
Proof.
  revert k; induction datas as [| y datas IH]; intros k; unfold len in *; cbn.
  - now rewrite Z.add_0_r.
  - rewrite IH. do 4 f_equal. lia.
Qed.

Lemma bytes_eqb_refl (x : list byte) : bytes_eqb x x = true.
Proof.
  induction x as [| a x IH]; cbn; trivial.
  rewrite IH, andb_true_r. now apply Byte.byte_dec_lb.
Qed.

Lemma find_part_numbered (k : Z) (pre suf : list (list byte)) (x : list byte) :
  find_part (k + len pre) (numbered k (pre ++ x :: suf)) = Some x.
Proof.
  revert k; induction pre as [| y pre IH]; intros k; unfold len in *; cbn.
  - now rewrite Z.add_0_r, Z.eqb_refl.
  - replace (k =? k + Z.pos (Pos.of_succ_nat (length pre))) with false
      by (symmetry; apply Z.eqb_neq; lia).
    rewrite <- (IH (k + 1)). f_equal. lia.
Qed.

(** The completion call finds every part the driver recorded. *)
Lemma gather_numbered (k : Z) (pre suf : list (list byte)) :
  gather (numbered k (pre ++ suf)) (parts_from (k + len pre) suf) = Some suf.
Proof.
  revert pre; induction suf as [| x suf IH]; intros pre; cbn; [reflexivity |].
  rewrite find_part_numbered. unfold etag. rewrite bytes_eqb_refl.
  specialize (IH (pre ++ [x])). rewrite <- app_assoc in IH. cbn in IH.
  replace (k + len (pre ++ [x])) with (k + len pre + 1) in IH
    by (unfold len; rewrite length_app; cbn; lia).
  now rewrite IH.
Qed.

Lemma ascending_parts (k : Z) (datas : list (list byte)) :
  ascending (map PartN (parts_from k datas)) = true.
Proof.
  revert k; induction datas as [| x datas IH]; intros k; [reflexivity |].
  cbn [parts_from map ascending]. specialize (IH (k + 1)).
  destruct datas as [| y datas]; [reflexivity |].
  cbn [parts_from map PartN] in *. rewrite IH, andb_true_r. apply Z.ltb_lt. lia.
Qed.

Lemma sizes_ok_weaken (m m' : Z) (ds : list (list byte)) :
  m' <= m -> sizes_ok m ds = true -> sizes_ok m' ds = true.
Proof.
  intros H. induction ds as [| x ds IH]; [reflexivity |].
  cbn [sizes_ok]. destruct ds as [| y ds]; [reflexivity |].
  intros Q. apply andb_true_iff in Q. destruct Q as [Q1 Q2].
  apply andb_true_iff. split; [| now apply IH].
  apply Z.leb_le in Q1. apply Z.leb_le. lia.
Qed.

(** Full parts may be followed by a sequence of parts that is in order. *)
Lemma sizes_ok_app (m : Z) (full tail : list (list byte)) :
  Forall (fun x => m <= len x) full -> sizes_ok m tail = true ->
  sizes_ok m (full ++ tail) = true.
Proof.
  induction 1 as [| x full Hx Hfull IH]; intros Ht; [exact Ht |].
  cbn [app sizes_ok]. specialize (IH Ht).
  destruct (full ++ tail); [reflexivity |].
  apply andb_true_iff. split; [now apply Z.leb_le | exact IH].
Qed.

Section Healthy.

Variable d : driver.
Variable path : string.
Variable multi : Multi.
Variable b0 : Bucket.
Hypothesis chunk_positive : 0 < ChunkSize d.

(** The store during a call that met no failure: it serves every request,
    holds the objects of [b0], and the session of the call is pending with
    the parts [datas] uploaded under the numbers 1, 2, ... *)
Definition session (datas : list (list byte)) (b : Bucket) : Prop :=
  faults b = []
  /\ objects b = objects b0
  /\ min_part b = min_part b0
  /\ clock b = clock b0
  /\ body_grain b = body_grain b0
  /\ nth_error (uploads b) multi
     = Some {| up_key := s3Path d path; up_parts := numbered 1 datas;
               up_state := Pending |}.

(** The variables of such a call: the driver recorded the parts the store
    holds, no upload has failed, and the buffer is a chunk long. *)
Definition good (datas : list (list byte)) (st : wstate) : Prop :=
  session datas (bucket st)
  /\ parts st = parts_from 1 datas
  /\ partNumber st = 1 + len datas
  /\ (forall e, putErrChan st <> Some (Some e))
  /\ released st = false
  /\ length (buf st) = Z.to_nat (ChunkSize d).

Lemma session_healthy (datas : list (list byte)) (b : Bucket) :
  session datas b -> healthy b.
Proof. now intros (F & _). Qed.

Lemma store_part_session (datas : list (list byte)) (b : Bucket) (x : list byte) :
  session datas b ->
  exists b',
    store_part b multi (1 + len datas) x
    = (b', inl {| PartN := 1 + len datas; ETag := etag x; Size := len x |})
    /\ session (datas ++ [x]) b'.
Proof.
  intros (F & O & M & C & G & U). unfold store_part, pending. rewrite U.
  cbn [up_state]. eexists. split; [reflexivity |].
  unfold session. cbn [faults objects min_part clock body_grain uploads set_uploads].
  repeat split; trivial.
  rewrite (nth_error_update _ _ _ _ U). cbn [up_key up_parts up_state].
  now rewrite set_part_new.
Qed.

(** An upload in a good state succeeds and records its part. *)
Lemma PutPart_good (datas : list (list byte)) (st : wstate) (x : list byte) :
  good datas st ->
  exists b' part,
    PutPart (bucket st) multi (partNumber st) x = (b', inl part)
    /\ good (datas ++ [x]) (add_part (set_bucket st b') part).
Proof.
  intros (S & P & N & C & R & B). unfold PutPart.
  rewrite (request_healthy _ _ (session_healthy _ _ S)), N.
  destruct (store_part_session datas (bucket st) x S) as (b' & -> & S').
  eexists _, _. split; [reflexivity |].
  unfold good. st_simpl.
  split; [exact S' |]. split; [now rewrite P, parts_from_app |].
  split; [unfold len in *; rewrite length_app; cbn [length]; lia |].
  repeat split; trivial.
Qed.

(** A step that leaves the store and the record of the parts alone. *)
Lemma good_same (datas : list (list byte)) (st st' : wstate) :
  good datas st ->
  bucket st' = bucket st -> parts st' = parts st ->
  partNumber st' = partNumber st ->
  (forall e, putErrChan st' <> Some (Some e)) ->
  released st' = released st ->
  length (buf st') = Z.to_nat (ChunkSize d) ->
  good datas st'.
Proof.
  intros (S & P & N & C & R & B) E1 E2 E3 E4 E5 E6. unfold good.
  rewrite E1, E2, E3, E5. split; [exact S |]. repeat split; trivial.
Qed.

Lemma Head_good (datas : list (list byte)) (b : Bucket) :
  session datas b ->
  Head b (s3Path d path)
  = (b, match lookup (s3Path d path) (objects b0) with
        | Some o => inl (len (Data o))
        | None => inr (S3Error "NoSuchKey")
        end).
Proof.
  intros S. unfold Head. rewrite (request_healthy _ _ (session_healthy _ _ S)).
  destruct S as (_ & -> & _). now destruct (lookup _ _).
Qed.

(** A copy of a range of the object in a good state succeeds and records
    its part. *)
Lemma PutPartCopy_good (datas : list (list byte)) (st : wstate) (o : Object)
    (range : option (Z * Z)) (x : list byte) :
  good datas st ->
  lookup (s3Path d path) (objects b0) = Some o ->
  match range with
  | None => x = Data o
  | Some (first, last) =>
      0 <= first <= last /\ last < len (Data o)
      /\ x = firstn (Z.to_nat (last - first + 1)) (skipn (Z.to_nat first) (Data o))
  end ->
  exists b' part,
    PutPartCopy (bucket st) multi (partNumber st) range (s3Path d path)
    = (b', inl part)
    /\ good (datas ++ [x]) (add_part (set_bucket st b') part).
Proof.
  intros (S & P & N & C & R & B) L Hr. unfold PutPartCopy.
  rewrite (request_healthy _ _ (session_healthy _ _ S)), N.
  pose proof S as (_ & O & _). rewrite O, L.
  destruct (store_part_session datas (bucket st) x S) as (b' & E & S').
  assert (Q : exists part,
             match range with
             | None => store_part (bucket st) multi (1 + len datas) (Data o)
             | Some (first, last) =>
                 if (0 <=? first) && (first <=? last) && (last <? len (Data o))
                 then store_part (bucket st) multi (1 + len datas)
                        (firstn (Z.to_nat (last - first + 1))
                           (skipn (Z.to_nat first) (Data o)))
                 else (bucket st, inr (S3Error "InvalidRange"))
             end = (b', inl part)
             /\ part = {| PartN := 1 + len datas; ETag := etag x; Size := len x |}).
  { destruct range as [[first last] |].
    - destruct Hr as (H1 & H2 & ->).
      replace ((0 <=? first) && (first <=? last) && (last <? len (Data o))) with true.
      + eexists. split; [exact E | reflexivity].
      + symmetry. rewrite !andb_true_iff, !Z.leb_le, Z.ltb_lt. lia.
    - subst x. eexists. split; [exact E | reflexivity]. }
  destruct Q as (part & -> & ->).
  eexists _, _. split; [reflexivity |].
  unfold good. st_simpl.
  split; [exact S' |]. split; [now rewrite P, parts_from_app |].
  split; [unfold len in *; rewrite length_app; cbn [length]; lia |].
  repeat split; trivial.
Qed.

(** The deferred function in a good state with at least one part: the
    completion call succeeds and the object is the concatenation of the
    parts. *)
Lemma deferred_good (late : bool) (datas : list (list byte)) (st : wstate) (n : Z) :
  good datas st -> datas <> [] ->
  sizes_ok (min_part b0) datas = true ->
  exists b',
    deferred multi late st (n, None) = (b', reader st, n, None)
    /\ objects b'
       = put (s3Path d path)
           {| Data := List.concat datas; LastModified := clock b0 |} (objects b0).
Proof.
  intros (S & P & N & C & R & B) Hne Hs. unfold deferred.
  assert (E : match putErrChan st with
              | Some (Some putErr) => (set_released st true, Some putErr)
              | _ => (st, snd (n, @None error))
              end = (st, None)).
  { destruct (putErrChan st) as [[e |] |]; trivial. now destruct (C e). }
  rewrite E. rewrite R. cbn [andb fst]. rewrite P.
  replace (0 <? len (parts_from 1 datas)) with true.
  2:{ symmetry. apply Z.ltb_lt. destruct datas; [congruence |]. unfold len. cbn. lia. }
  unfold Complete. rewrite (request_healthy _ _ (session_healthy _ _ S)).
  destruct S as (F & O & M & Cl & G & U). unfold pending. rewrite U. cbn [up_state].
  destruct (parts_from 1 datas) eqn:Q; [destruct datas; discriminate || congruence |].
  rewrite <- Q. rewrite ascending_parts. cbn [negb up_parts up_key].
  pose proof (gather_numbered 1 [] datas) as Ga. cbn in Ga. rewrite Ga.
  rewrite M, Hs. cbn [negb]. eexists. split; [reflexivity |].
  cbn [objects set_uploads set_objects]. now rewrite O, Cl.
Qed.

(** The loop of [fromReader] on a source that ends cleanly: it stops when
    the buffer is full or the source is exhausted, with the bytes it read
    stored behind those the buffer held. *)
Lemma fill_spec (from : Z) :
  0 <= from ->
  forall (fuel : nat) (st : wstate),
    length (buf st) = Z.to_nat (ChunkSize d) ->
    0 <= bytesRead st -> from + bytesRead st <= ChunkSize d ->
    rd_fail (reader st) = None ->
    (Z.to_nat (ChunkSize d - (from + bytesRead st)) < fuel)%nat ->
    exists st' out,
      fromReader_loop d fuel from st = Some (st', None)
      /\ rd_data (reader st) = out ++ rd_data (reader st')
      /\ rd_fail (reader st') = None
      /\ bytesRead st' = bytesRead st + len out
      /\ totalRead st' = totalRead st + len out
      /\ from + bytesRead st' <= ChunkSize d
      /\ (from + bytesRead st' = ChunkSize d \/ rd_data (reader st') = [])
      /\ firstn (Z.to_nat (from + bytesRead st')) (buf st')
         = firstn (Z.to_nat (from + bytesRead st)) (buf st) ++ out
      /\ length (buf st') = Z.to_nat (ChunkSize d)
      /\ bucket st' = bucket st /\ parts st' = parts st
      /\ partNumber st' = partNumber st /\ putErrChan st' = putErrChan st
      /\ released st' = released st.
Proof.
  intros Hfrom. induction fuel as [| fuel IH]; intros st B Hb Hle Hr Hf; [lia |].
  cbn [fromReader_loop].
  destruct (from + bytesRead st <? ChunkSize d) eqn:C.
  2:{ apply Z.ltb_ge in C. exists st, []. rewrite app_nil_r. cbn.
      repeat split; trivial; lia. }
  apply Z.ltb_lt in C.
  destruct (Read (reader st) _) as [[data err] r'] eqn:R.
  pose proof (Read_spec _ _ _ _ _ R) as (D & L & F & _ & P1 & P2).
  unfold len in *. rewrite B in L.
  set (st1 := set_bytesRead _ _).
  assert (W : firstn (Z.to_nat (from + (bytesRead st + Z.of_nat (length data))))
                (write_at (buf st) (from + bytesRead st) data)
              = firstn (Z.to_nat (from + bytesRead st)) (buf st) ++ data).
  { rewrite Z.add_assoc. apply write_at_firstn; lia. }
  assert (B1 : length (buf st1) = Z.to_nat (ChunkSize d)).
  { unfold st1. st_simpl. rewrite write_at_length; trivial; lia. }
  destruct err as [e |].
  - rewrite (P2 e eq_refl). unfold end_error. rewrite Hr. cbn [is_EOF].
    exists st1, data. split; [reflexivity |].
    unfold st1 in *. st_simpl. rewrite F.
    repeat split; trivial; try lia.
    right. exact (Read_end _ _ _ _ _ R).
  - destruct (IH st1) as (st' & out & -> & D' & F' & Bn & Tn & Le & Or & Fi & Bu & Rest);
      trivial; try (unfold st1; st_simpl; try congruence; lia).
    { specialize (P1 eq_refl). unfold st1. st_simpl. lia. }
    exists st', (data ++ out). split; [reflexivity |].
    unfold st1 in *. st_simpl.
    rewrite length_app, <- app_assoc, <- D'.
    repeat split; trivial; try lia; try tauto.
    rewrite app_assoc, <- W. exact Fi.
Qed.

(** [fromReader] in a good state, on a source that ends cleanly: the bytes
    it read are uploaded, behind the bytes [pre] the buffer held before
    [from], unless it read none. *)
Lemma fromReader_good (from : Z) (fuel : nat) (datas : list (list byte))
    (st : wstate) (pre : list byte) :
  good datas st ->
  0 <= from <= ChunkSize d ->
  firstn (Z.to_nat from) (buf st) = pre ->
  rd_fail (reader st) = None ->
  (Z.to_nat (ChunkSize d) < fuel)%nat ->
  exists st' out,
    fromReader d multi fuel from st = Some (st', None)
    /\ rd_data (reader st) = out ++ rd_data (reader st')
    /\ rd_fail (reader st') = None
    /\ bytesRead st' = len out
    /\ totalRead st' = totalRead st + len out
    /\ from + len out <= ChunkSize d
    /\ (from + len out = ChunkSize d \/ rd_data (reader st') = [])
    /\ good (if 0 <? len out then datas ++ [pre ++ out] else datas) st'.
Proof.
  intros G Hfrom Hpre Hr Hf. unfold fromReader.
  pose proof G as (S & P & N & C & Rl & B).
  destruct (fill_spec from (proj1 Hfrom) fuel (set_bytesRead st 0))
    as (st1 & out & -> & D & F & Bn & Tn & Le & Or & Fi & Bu & Eb & Ep & En & Ec & Er);
    trivial; st_simpl; try lia.
  rewrite Z.add_0_r in *. cbn [Z.add] in Bn.
  assert (G1 : good datas st1).
  { apply (good_same datas st); trivial. now rewrite Ec. }
  assert (Lb : length (getbuf d) = Z.to_nat (ChunkSize d))
    by (unfold getbuf, zeros; apply repeat_length).
  assert (U : exists st2,
             upload multi from st1 = st2
             /\ reader st2 = reader st1 /\ bytesRead st2 = bytesRead st1
             /\ totalRead st2 = totalRead st1
             /\ good (if 0 <? len out then datas ++ [pre ++ out] else datas)
                  (set_buf st2 (getbuf d))).
  { unfold upload. rewrite Bn. destruct (0 <? len out) eqn:Q.
    - destruct (PutPart_good datas st1 (slice_to (buf st1) (len out + from)) G1)
        as (b' & part & E & G2).
      rewrite E. eexists. split; [reflexivity |]. st_simpl.
      do 3 (split; [first [reflexivity | exact Bn] |]).
      assert (X : slice_to (buf st1) (len out + from) = pre ++ out).
      { unfold slice_to. rewrite Z.add_comm, <- Bn, Fi. now rewrite Hpre. }
      rewrite X in G2.
      apply (good_same (datas ++ [pre ++ out]) (add_part (set_bucket st1 b') part));
        trivial. discriminate.
    - eexists. split; [reflexivity |]. st_simpl.
      do 3 (split; [first [reflexivity | exact Bn] |]).
      apply (good_same datas st1); trivial. discriminate. }
  destruct U as (st2 & -> & U1 & U2 & U3 & G2).
  destruct (putErrChan st1) as [[e |] |] eqn:Pe;
    [exfalso; exact (C e (eq_sym Ec)) | |];
    (exists (set_buf st2 (getbuf d)), out; split; [reflexivity |]; st_simpl;
     rewrite U1, U2, U3;
     split; [exact D |]; split; [exact F |]; split; [exact Bn |];
     split; [exact Tn |]; split; [lia |]; split; [| exact G2];
     destruct Or as [Or | Or]; [left; lia | right; exact Or]).
Qed.

(** The final loop in a good state, on a source that ends cleanly: the
    rest of the source is uploaded in chunks, every chunk but the last of
    full size. *)
Lemma stream_good :
  forall (fuel : nat) (st : wstate) (datas : list (list byte)),
    good datas st ->
    rd_fail (reader st) = None ->
    (length (rd_data (reader st)) + Z.to_nat (ChunkSize d) < fuel)%nat ->
    exists st' tail,
      stream d multi fuel st
      = Some (st', (totalRead st + len (rd_data (reader st)), None))
      /\ good (datas ++ tail) st'
      /\ List.concat tail = rd_data (reader st)
      /\ sizes_ok (ChunkSize d) tail = true
      /\ rd_data (reader st') = []
      /\ rd_fail (reader st') = None.
Proof.
  induction fuel as [| fuel IH]; intros st datas G Hr Hf; [lia |].
  cbn [stream].
  destruct (fromReader_good 0 (S fuel) datas st [] G)
    as (st1 & out & -> & D & F & Bn & Tn & Le & Or & G1); trivial; try lia.
  rewrite Bn. rewrite Z.add_0_l in *. cbn [app] in G1.
  destruct (len out <? ChunkSize d) eqn:C.
  - apply Z.ltb_lt in C. destruct Or as [Or | Or]; [lia |].
    rewrite Or, app_nil_r in D. subst out.
    exists st1, (if 0 <? len (rd_data (reader st)) then [rd_data (reader st)] else []).
    rewrite Tn. split; [reflexivity |].
    destruct (0 <? len (rd_data (reader st))) eqn:Q.
    + split; [exact G1 |]. cbn. rewrite app_nil_r. repeat split; trivial.
    + rewrite app_nil_r. split; [exact G1 |]. cbn. repeat split; trivial.
      apply Z.ltb_ge in Q. unfold len in Q.
      destruct (rd_data (reader st)); [reflexivity | cbn in Q; lia].
  - apply Z.ltb_ge in C.
    replace (0 <? len out) with true in G1 by (symmetry; apply Z.ltb_lt; lia).
    destruct (IH st1 (datas ++ [out]) G1 F) as (st' & tail & -> & G' & Co & Sz & De & Fe).
    { rewrite D, length_app in Hf. unfold len in C. lia. }
    exists st', (out :: tail). split.
    { do 3 f_equal. rewrite Tn, D. unfold len. rewrite length_app. lia. }
    rewrite <- app_assoc in G'. cbn [app] in G'.
    split; [exact G' |]. repeat split; trivial.
    + cbn [List.concat]. now rewrite Co.
    + cbn [sizes_ok]. destruct tail; [reflexivity |].
      rewrite Sz, andb_true_r. apply Z.leb_le. lia.
Qed.

(** A closure that leaves everything but the buffer and [bytesRead]. *)
Definition buffered (st st' : wstate) : Prop :=
  length (buf st') = Z.to_nat (ChunkSize d)
  /\ bucket st' = bucket st /\ parts st' = parts st
  /\ partNumber st' = partNumber st /\ putErrChan st' = putErrChan st
  /\ released st' = released st
  /\ reader st' = reader st /\ totalRead st' = totalRead st.

Lemma buffered_good (datas : list (list byte)) (st st' : wstate) :
  good datas st -> buffered st st' -> good datas st'.
Proof.
  intros G (B & E1 & E2 & E3 & E4 & E5 & _). apply (good_same datas st); trivial.
  rewrite E4. apply G.
Qed.

(** The loop of [fromSmallCurrent] when the object holds the bytes asked
    for: they end up at the front of the buffer. *)
Lemma copy_spec (total : Z) :
  total <= ChunkSize d ->
  forall (fuel : nat) (current : Reader) (st : wstate),
    length (buf st) = Z.to_nat (ChunkSize d) ->
    0 <= bytesRead st <= total ->
    rd_fail current = None ->
    total - bytesRead st <= len (rd_data current) ->
    (Z.to_nat (total - bytesRead st) < fuel)%nat ->
    exists st',
      fromSmallCurrent_loop fuel total current st = Some (st', None)
      /\ firstn (Z.to_nat total) (buf st')
         = firstn (Z.to_nat (bytesRead st)) (buf st)
           ++ firstn (Z.to_nat (total - bytesRead st)) (rd_data current)
      /\ buffered st st'.
Proof.
  intros Ht. induction fuel as [| fuel IH]; intros current st B Hb Hr Hl Hf; [lia |].
  cbn [fromSmallCurrent_loop].
  destruct (bytesRead st <? total) eqn:C.
  2:{ apply Z.ltb_ge in C. exists st. split; [reflexivity |].
      replace (total - bytesRead st) with 0 by lia. cbn [Z.to_nat firstn].
      rewrite app_nil_r. replace total with (bytesRead st) by lia.
      split; [reflexivity |]. now repeat split. }
  apply Z.ltb_lt in C.
  destruct (Read current _) as [[data err] r'] eqn:R.
  pose proof (Read_spec _ _ _ _ _ R) as (D & L & F & _ & P1 & P2).
  unfold len in *.
  set (st1 := set_bytesRead _ _).
  assert (W : firstn (Z.to_nat (bytesRead st + Z.of_nat (length data)))
                (write_at (buf st) (bytesRead st) data)
              = firstn (Z.to_nat (bytesRead st)) (buf st) ++ data).
  { apply write_at_firstn; lia. }
  assert (B1 : buffered st st1).
  { unfold buffered, st1. st_simpl. repeat split; trivial.
    rewrite write_at_length; trivial; lia. }
  destruct err as [e |].
  - rewrite (P2 e eq_refl). unfold end_error. rewrite Hr. cbn [is_EOF].
    exists st1. split; [reflexivity |]. split; [| exact B1].
    pose proof (Read_end _ _ _ _ _ R) as En. rewrite En, app_nil_r in D.
    rewrite D in Hl |- *.
    assert (Z.of_nat (length data) = total - bytesRead st) by lia.
    rewrite (firstn_all2 (n := Z.to_nat (total - bytesRead st)) data) by lia.
    unfold st1. st_simpl. rewrite <- W. f_equal. lia.
  - specialize (P1 eq_refl).
    destruct (IH r' st1) as (st' & -> & Fi & B'); trivial;
      try (unfold st1; st_simpl; try congruence; lia).
    { apply B1. }
    { unfold st1. st_simpl. rewrite D, length_app in Hl. lia. }
    exists st'. split; [reflexivity |]. split.
    + rewrite Fi. unfold st1. st_simpl. rewrite W, <- app_assoc. f_equal.
      rewrite D, firstn_app.
      rewrite (firstn_all2 (n := Z.to_nat (total - bytesRead st)) data) by lia.
      do 2 f_equal. lia.
    + destruct B1 as (_ & E1 & E2 & E3 & E4 & E5 & E6 & E7).
      destruct B' as (L' & F1 & F2 & F3 & F4 & F5 & F6 & F7).
      unfold buffered. repeat split; congruence.
Qed.

(** [fromSmallCurrent] in a good state: the first [total] bytes of the
    object are read into the front of the buffer. *)
Lemma fromSmallCurrent_good (fuel : nat) (total : Z) (datas : list (list byte))
    (st : wstate) (o : Object) :
  good datas st ->
  lookup (s3Path d path) (objects b0) = Some o ->
  0 <= total <= ChunkSize d ->
  total <= len (Data o) ->
  (Z.to_nat (ChunkSize d) < fuel)%nat ->
  exists st',
    fromSmallCurrent d path fuel total st = Some (st', None)
    /\ firstn (Z.to_nat total) (buf st') = firstn (Z.to_nat total) (Data o)
    /\ buffered st st'.
Proof.
  intros G L Ht Hl Hf. pose proof G as (S & _ & _ & _ & _ & B).
  unfold fromSmallCurrent, ReadStream, GetResponseWithHeaders.
  rewrite (request_healthy _ _ (session_healthy _ _ S)).
  pose proof S as (_ & O & _). rewrite O, L.
  assert (X : exists current,
             (if len (Data o) <=? 0
              then (bucket st, @inr Reader error (S3Error "InvalidRange"))
              else (bucket st,
                    inl {| rd_data := skipn (Z.to_nat 0) (Data o); rd_fail := None;
                           rd_grain := body_grain (bucket st); rd_eager := false |}))
             = (bucket st,
                if len (Data o) <=? 0 then inr (S3Error "InvalidRange") else inl current)
             /\ rd_fail current = None
             /\ (0 < len (Data o) -> rd_data current = Data o)).
  { eexists. split; [destruct (len (Data o) <=? 0); reflexivity |]. now split. }
  destruct X as (current & -> & Cf & Cd).
  destruct (len (Data o) <=? 0) eqn:Q; cbn [isS3Code String.eqb Ascii.eqb Bool.eqb].
  - apply Z.leb_le in Q. assert (total = 0) by lia. subst total.
    destruct (copy_spec 0 (proj2 Ht) fuel (NewReader [])
                (set_bytesRead (set_bucket st (bucket st)) 0))
      as (st' & -> & Fi & B'); trivial; st_simpl; cbn; try lia.
    exists st'. split; [reflexivity |]. split; [reflexivity |].
    destruct B' as (L' & F1 & F2 & F3 & F4 & F5 & F6 & F7). st_simpl.
    now repeat split.
  - apply Z.leb_gt in Q.
    destruct (copy_spec total (proj2 Ht) fuel current
                (set_bytesRead (set_bucket st (bucket st)) 0))
      as (st' & -> & Fi & B'); trivial; st_simpl; try lia.
    { rewrite (Cd Q). lia. }
    exists st'. split; [reflexivity |]. split.
    + rewrite Fi, (Cd Q). cbn [Z.to_nat firstn app]. now rewrite Z.sub_0_r.
    + destruct B' as (L' & F1 & F2 & F3 & F4 & F5 & F6 & F7). st_simpl.
      now repeat split.
Qed.

(** The loop of [fromZeroFillSmall]: zeros fill the buffer from where it
    stands up to [to]. *)
Lemma zero_spec (from to : Z) :
  0 <= from -> to <= ChunkSize d ->
  forall (fuel : nat) (st : wstate),
    length (buf st) = Z.to_nat (ChunkSize d) ->
    0 <= bytesRead st -> from + bytesRead st <= to ->
    (Z.to_nat (to - (from + bytesRead st)) < fuel)%nat ->
    exists st',
      fromZeroFillSmall_loop d fuel from to st = Some (st', None)
      /\ firstn (Z.to_nat to) (buf st')
         = firstn (Z.to_nat (from + bytesRead st)) (buf st)
           ++ repeat x00 (Z.to_nat (to - (from + bytesRead st)))
      /\ buffered st st'.
Proof.
  intros Hfrom Hto. induction fuel as [| fuel IH]; intros st B Hb Hle Hf; [lia |].
  cbn [fromZeroFillSmall_loop].
  destruct (from + bytesRead st <? to) eqn:C.
  2:{ apply Z.ltb_ge in C. exists st. split; [reflexivity |].
      replace (to - (from + bytesRead st)) with 0 by lia. cbn [Z.to_nat repeat].
      rewrite app_nil_r. replace to with (from + bytesRead st) by lia.
      split; [reflexivity |]. now repeat split. }
  apply Z.ltb_lt in C.
  destruct (Read (NewReader (zeros d)) _) as [[data err] r'] eqn:R.
  pose proof (Read_spec _ _ _ _ _ R) as (D & L & F & _ & P1 & P2).
  assert (err = None).
  { apply (Read_lazy (NewReader (zeros d))
             (Z.to_nat (to - (from + bytesRead st))) data err r');
      [reflexivity | | exact R].
    cbn. unfold zeros.
    destruct (Z.to_nat (ChunkSize d)) eqn:Q; [lia | discriminate]. }
  subst err. specialize (P1 eq_refl).
  cbn [rd_data NewReader] in D. unfold zeros in D.
  apply repeat_eq_app in D. destruct D as [Dz _].
  unfold len in *.
  set (st1 := set_bytesRead _ _).
  assert (W : firstn (Z.to_nat (from + bytesRead st + Z.of_nat (length data)))
                (write_at (buf st) (from + bytesRead st) data)
              = firstn (Z.to_nat (from + bytesRead st)) (buf st) ++ data).
  { apply write_at_firstn; lia. }
  assert (B1 : buffered st st1).
  { unfold buffered, st1. st_simpl. repeat split; trivial.
    rewrite write_at_length; trivial; lia. }
  destruct (IH st1) as (st' & -> & Fi & B'); trivial;
    try (unfold st1; st_simpl; lia).
  { apply B1. }
  exists st'. split; [reflexivity |]. split.
  - rewrite Fi. unfold st1. st_simpl. rewrite Z.add_assoc, W, <- app_assoc. f_equal.
    rewrite <- Dz at 1. rewrite <- repeat_app. f_equal. lia.
  - destruct B1 as (_ & E1 & E2 & E3 & E4 & E5 & E6 & E7).
    destruct B' as (L' & F1 & F2 & F3 & F4 & F5 & F6 & F7).
    unfold buffered. repeat split; congruence.
Qed.

Lemma fromZeroFillSmall_good (fuel : nat) (from to : Z) (st : wstate) :
  length (buf st) = Z.to_nat (ChunkSize d) ->
  0 <= from <= to -> to <= ChunkSize d ->
  (Z.to_nat (ChunkSize d) < fuel)%nat ->
  exists st',
    fromZeroFillSmall d fuel from to st = Some (st', None)
    /\ firstn (Z.to_nat to) (buf st')
       = firstn (Z.to_nat from) (buf st) ++ repeat x00 (Z.to_nat (to - from))
    /\ buffered st st'.
Proof.
  intros B Hfrom Hto Hf. unfold fromZeroFillSmall.
  destruct (zero_spec from to (proj1 Hfrom) Hto fuel (set_bytesRead st 0))
    as (st' & -> & Fi & B'); trivial; st_simpl; try lia.
  exists st'. split; [reflexivity |]. rewrite Z.add_0_r in Fi. split; [exact Fi |].
  destruct B' as (L' & F1 & F2 & F3 & F4 & F5 & F6 & F7). st_simpl. now repeat split.
Qed.

(** The loop of [fromZeroFillLarge] in a good state: one part of zeros for
    every whole chunk of the gap. *)
Lemma zero_parts_spec (from to : Z) :
  forall (fuel : nat) (n : Z) (st : wstate) (datas : list (list byte)),
    good datas st ->
    0 <= to - (from + n) ->
    (Z.to_nat (to - (from + n)) < fuel)%nat ->
    exists st',
      fromZeroFillLarge_loop d multi fuel from to n st = Some (st', None)
      /\ good (datas ++ repeat (zeros d)
                          (Z.to_nat ((to - (from + n)) / ChunkSize d))) st'
      /\ buf st' = buf st /\ reader st' = reader st
      /\ totalRead st' = totalRead st.
Proof.
  induction fuel as [| fuel IH]; intros n st datas G Hn Hf; [lia |].
  cbn [fromZeroFillLarge_loop].
  destruct (ChunkSize d <=? to - (from + n)) eqn:C.
  - apply Z.leb_le in C.
    destruct (PutPart_good datas st (zeros d) G) as (b' & part & -> & G1).
    destruct (IH (n + ChunkSize d) _ _ G1) as (st' & -> & G' & E1 & E2 & E3);
      try lia.
    st_simpl. exists st'. split; [reflexivity |].
    split; [| split; [exact E1 | split; [exact E2 | exact E3]]].
    replace ((to - (from + n)) / ChunkSize d)
      with (1 + (to - (from + (n + ChunkSize d))) / ChunkSize d).
    2:{ rewrite <- Z_div_plus_full_l by lia. f_equal. lia. }
    assert (0 <= (to - (from + (n + ChunkSize d))) / ChunkSize d)
      by (apply Z.div_pos; lia).
    rewrite Z2Nat.inj_add by lia. change (Z.to_nat 1) with 1%nat.
    cbn [Nat.add repeat]. rewrite <- app_assoc in G'. exact G'.
  - apply Z.leb_gt in C. exists st. split; [reflexivity |].
    rewrite Z.div_small by lia. cbn [Z.to_nat repeat]. rewrite app_nil_r.
    split; [exact G |]. now split; [| split].
Qed.

Lemma fromZeroFillLarge_good (fuel : nat) (from to : Z) (datas : list (list byte))
    (st : wstate) :
  good datas st ->
  from <= to ->
  (Z.to_nat (ChunkSize d) + Z.to_nat (to - from) < fuel)%nat ->
  exists st',
    fromZeroFillLarge d multi fuel from to st = Some (st', None)
    /\ good (datas ++ repeat (zeros d) (Z.to_nat ((to - from) / ChunkSize d))) st'
    /\ firstn (Z.to_nat (Z.rem (to - from) (ChunkSize d))) (buf st')
       = repeat x00 (Z.to_nat (Z.rem (to - from) (ChunkSize d)))
    /\ reader st' = reader st /\ totalRead st' = totalRead st.
Proof.
  intros G Hle Hf. unfold fromZeroFillLarge.
  destruct (zero_parts_spec from to fuel 0 st datas G) as (st1 & -> & G1 & E1 & E2 & E3);
    try lia.
  rewrite Z.add_0_r in G1.
  pose proof (Z.rem_bound_pos (to - from) (ChunkSize d)) as Hr.
  destruct (fromZeroFillSmall_good fuel 0 (Z.rem (to - from) (ChunkSize d)) st1)
    as (st' & -> & Fi & B'); try lia; [apply G1 |].
  exists st'. split; [reflexivity |].
  split; [now apply (buffered_good _ st1) |].
  split; [rewrite Fi, Z.sub_0_r; reflexivity |].
  destruct B' as (_ & _ & _ & _ & _ & _ & F6 & F7). split; congruence.
Qed.

Lemma putPartNow_good (datas : list (list byte)) (st : wstate) (x : list byte) :
  good datas st ->
  exists st',
    putPartNow multi x st = Some (st', None)
    /\ good (datas ++ [x]) st'
    /\ buf st' = buf st /\ reader st' = reader st /\ totalRead st' = totalRead st.
Proof.
  intros G. unfold putPartNow.
  destruct (PutPart_good datas st x G) as (b' & part & -> & G1).
  eexists. split; [reflexivity |]. split; [exact G1 |]. now repeat split.
Qed.

(** The end of every branch of the block, and what follows it: the buffer
    that holds [pre] is filled from the source and uploaded; unless the
    source ended before it was full, the final loop uploads the rest. *)
Lemma finish_good (fuel : nat) (from : Z) (datas : list (list byte))
    (st : wstate) (pre : list byte) :
  good datas st ->
  0 <= from < ChunkSize d ->
  firstn (Z.to_nat from) (buf st) = pre ->
  len pre = from ->
  rd_fail (reader st) = None ->
  rd_data (reader st) <> [] ->
  totalRead st = 0 ->
  (length (rd_data (reader st)) + Z.to_nat (ChunkSize d) < fuel)%nat ->
  exists st' tail,
    match
      match fromReader d multi fuel from st with
      | None => None
      | Some (st', Some err) => Some (st', Some (totalRead st', Some err))
      | Some (st', None) =>
          if totalRead st' + from <? ChunkSize d
          then Some (st', Some (totalRead st', None))
          else Some (st', None)
      end
    with
    | None => None
    | Some (st', Some ret) => Some (st', ret)
    | Some (st', None) => stream d multi fuel st'
    end = Some (st', (len (rd_data (reader st)), None))
    /\ good (datas ++ tail) st'
    /\ List.concat tail = pre ++ rd_data (reader st)
    /\ sizes_ok (ChunkSize d) tail = true
    /\ tail <> []
    /\ rd_data (reader st') = [].
Proof.
  intros G Hfrom Hpre Hlen Hr Hne T0 Hf.
  destruct (fromReader_good from fuel datas st pre G)
    as (st1 & out & -> & D & F & Bn & Tn & Le & Or & G1); trivial; try lia.
  rewrite T0, Z.add_0_l in Tn. rewrite Tn.
  assert (No : 0 < len out).
  { unfold len. destruct out; [| cbn; lia]. exfalso.
    cbn [app] in D. destruct Or as [Or | Or]; [unfold len in Or; cbn in Or; lia |].
    rewrite Or in D. contradiction. }
  replace (0 <? len out) with true in G1 by (symmetry; now apply Z.ltb_lt).
  destruct (len out + from <? ChunkSize d) eqn:C.
  - apply Z.ltb_lt in C. destruct Or as [Or | Or]; [lia |].
    rewrite Or, app_nil_r in D. exists st1, [pre ++ out].
    split; [now rewrite D |]. split; [exact G1 |].
    cbn. rewrite app_nil_r, D. repeat split; trivial. discriminate.
  - apply Z.ltb_ge in C.
    destruct (stream_good fuel st1 (datas ++ [pre ++ out]) G1 F)
      as (st' & tail & -> & G' & Co & Sz & De & Fe).
    { rewrite D, length_app in Hf. lia. }
    exists st', ((pre ++ out) :: tail). split.
    { do 3 f_equal. rewrite Tn, D. unfold len. rewrite length_app. lia. }
    rewrite <- app_assoc in G'. split; [exact G' |].
    repeat split; trivial; try discriminate.
    + cbn [List.concat]. now rewrite Co, D, app_assoc.
    + cbn [sizes_ok]. destruct tail; [reflexivity |].
      rewrite Sz, andb_true_r. apply Z.leb_le. unfold len in *.
      rewrite length_app. lia.
Qed.

Lemma set_bucket_same (st : wstate) : set_bucket st (bucket st) = st.
Proof. now destruct st. Qed.

Lemma concat_zeros (n : nat) :
  List.concat (repeat (zeros d) n) = repeat x00 (n * Z.to_nat (ChunkSize d)).
Proof.
  induction n as [| n IH]; [reflexivity |].
  cbn [repeat List.concat Nat.mul]. now rewrite IH, repeat_app.
Qed.

Lemma zeros_full (n : nat) :
  Forall (fun x => ChunkSize d <= len x) (repeat (zeros d) n).
Proof.
  apply Forall_forall. intros x Hx. apply repeat_spec in Hx. subst x.
  unfold len, zeros. rewrite repeat_length. lia.
Qed.

Lemma written_within (existing : list byte) (offset : Z) (data : list byte) :
  offset <= len existing ->
  written existing offset data = firstn (Z.to_nat offset) existing ++ data.
Proof.
  intros H. unfold written, len in *.
  replace (Z.to_nat offset - length existing)%nat with 0%nat by lia. reflexivity.
Qed.

Lemma written_beyond (existing : list byte) (offset : Z) (data : list byte) :
  len existing <= offset ->
  written existing offset data
  = existing ++ repeat x00 (Z.to_nat (offset - len existing)) ++ data.
Proof.
  intros H. unfold written, len in *. rewrite firstn_all2 by lia.
  do 2 f_equal. f_equal. lia.
Qed.

(** The gap between the object and the offset, counted as the code fills
    it: whole chunks of zeros, then the rest in the buffer. *)
Lemma gap_split (from to : Z) :
  from <= to ->
  (Z.to_nat ((to - from) / ChunkSize d) * Z.to_nat (ChunkSize d)
   + Z.to_nat (Z.rem (to - from) (ChunkSize d)))%nat
  = Z.to_nat (to - from).
Proof.
  intros H. rewrite Z.rem_mod_nonneg by lia.
  pose proof (Z.div_mod (to - from) (ChunkSize d)) as E.
  pose proof (Z.mod_pos_bound (to - from) (ChunkSize d) chunk_positive).
  assert (0 <= (to - from) / ChunkSize d) by (apply Z.div_pos; lia).
  rewrite <- Z2Nat.inj_mul, <- Z2Nat.inj_add by nia. f_equal. nia.
Qed.

(** The block under [if offset > 0] and the final loop, when the object
    exists and the source yields at least one byte: the parts uploaded
    hold the bytes of the object before [offset], zeros up to [offset],
    and the bytes of the source. *)
Lemma resume_good (fuel : nat) (offset : Z) (o : Object) (st : wstate) :
  good [] st ->
  totalRead st = 0 ->
  0 < offset ->
  lookup (s3Path d path) (objects b0) = Some o ->
  rd_fail (reader st) = None ->
  rd_data (reader st) <> [] ->
  (length (rd_data (reader st)) + 2 * Z.to_nat (ChunkSize d) + Z.to_nat offset
   < fuel)%nat ->
  exists st' datas,
    match resume d path multi fuel offset st with
    | None => None
    | Some (st', Some ret) => Some (st', ret)
    | Some (st', None) => stream d multi fuel st'
    end = Some (st', (len (rd_data (reader st)), None))
    /\ good datas st'
    /\ List.concat datas = written (Data o) offset (rd_data (reader st))
    /\ sizes_ok (ChunkSize d) datas = true
    /\ datas <> []
    /\ rd_data (reader st') = [].
Proof.
  intros G T0 Hoff L Hr Hne Hf.
  unfold resume. rewrite (Head_good [] (bucket st) (proj1 G)), L.
  rewrite set_bucket_same. unfold resume_at.
  assert (Hlen : 0 <= len (Data o)) by (unfold len; lia).
  destruct (offset <=? len (Data o)) eqn:C1;
    [apply Z.leb_le in C1 | apply Z.leb_gt in C1].
  - destruct (offset <? ChunkSize d) eqn:C2;
      [apply Z.ltb_lt in C2 | apply Z.ltb_ge in C2].
    + (* chunkSize > currentLength >= offset *)
      destruct (fromSmallCurrent_good fuel offset [] st o G L)
        as (st1 & -> & Fi & B1); try lia.
      pose proof (buffered_good _ _ _ G B1) as G1.
      destruct B1 as (_ & _ & _ & _ & _ & _ & R1 & T1).
      destruct (finish_good fuel offset [] st1 (firstn (Z.to_nat offset) (Data o)) G1)
        as (st' & tail & E & G' & Co & Sz & Ne & De);
        try rewrite R1; try congruence; try lia.
      { unfold len in *. rewrite length_firstn. lia. }
      rewrite R1 in E, Co. exists st', tail. split; [exact E |].
      split; [exact G' |]. split; [now rewrite written_within |].
      now repeat split.
    + (* currentLength >= offset >= chunkSize *)
      destruct (PutPartCopy_good [] st o (Some (0, offset - 1))
                  (firstn (Z.to_nat (offset - 1 - 0 + 1)) (skipn (Z.to_nat 0) (Data o)))
                  G L) as (b' & part & -> & G1).
      { repeat split; lia. }
      cbn [app Z.to_nat skipn] in G1. replace (offset - 1 - 0 + 1) with offset in G1 by lia.
      destruct (stream_good fuel (add_part (set_bucket st b') part) _ G1)
        as (st' & tail & E & G' & Co & Sz & De & _); st_simpl; trivial; try lia.
      rewrite T0, Z.add_0_l in E.
      exists st', (firstn (Z.to_nat offset) (Data o) :: tail).
      split; [exact E |]. split; [exact G' |].
      split; [cbn [List.concat]; now rewrite Co, written_within |].
      split; [| split; [discriminate | exact De]].
      apply (sizes_ok_app _ [_]); trivial. constructor; [| constructor].
      unfold len in *. rewrite length_firstn. lia.
  - destruct (len (Data o) <? ChunkSize d) eqn:C2;
      [apply Z.ltb_lt in C2 | apply Z.ltb_ge in C2].
    + destruct (fromSmallCurrent_good fuel (len (Data o)) [] st o G L)
        as (st1 & E1 & Fi & B1); try lia.
      assert (F1 : firstn (Z.to_nat (len (Data o))) (buf st1) = Data o).
      { rewrite Fi. apply firstn_all2. unfold len. lia. }
      pose proof (buffered_good _ _ _ G B1) as G1.
      destruct B1 as (_ & _ & _ & _ & _ & _ & R1 & T1).
      destruct (offset <? ChunkSize d) eqn:C3;
        [apply Z.ltb_lt in C3 | apply Z.ltb_ge in C3].
      * (* chunkSize > offset > currentLength *)
        rewrite E1.
        destruct (fromZeroFillSmall_good fuel (len (Data o)) offset st1)
          as (st2 & -> & F2 & B2); try lia; [apply G1 |].
        rewrite F1 in F2.
        pose proof (buffered_good _ _ _ G1 B2) as G2.
        destruct B2 as (_ & _ & _ & _ & _ & _ & R2 & T2).
        destruct (finish_good fuel offset [] st2 _ G2 (conj (Z.lt_le_incl _ _ Hoff) C3) F2)
          as (st' & tail & E & G' & Co & Sz & Ne & De);
          try rewrite R2, R1; try congruence; try lia.
        { unfold len in *. rewrite length_app, repeat_length. lia. }
        rewrite R2, R1 in E, Co. exists st', tail. split; [exact E |].
        split; [exact G' |].
        split; [rewrite Co, written_beyond by lia; now rewrite <- app_assoc |].
        now repeat split.
      * (* offset >= chunkSize > currentLength *)
        rewrite E1.
        destruct (fromZeroFillSmall_good fuel (len (Data o)) (ChunkSize d) st1)
          as (st2 & -> & F2 & B2); try lia; [apply G1 |].
        rewrite F1 in F2.
        pose proof (buffered_good _ _ _ G1 B2) as G2.
        destruct B2 as (L2 & _ & _ & _ & _ & _ & R2 & T2).
        rewrite firstn_all2 in F2 by lia.
        destruct (putPartNow_good [] st2 (buf st2) G2)
          as (st3 & -> & G3 & _ & R3 & T3).
        cbn [app] in G3.
        destruct (fromZeroFillLarge_good fuel (ChunkSize d) offset _ st3 G3 C3)
          as (st4 & -> & G4 & F4 & R4 & T4); try lia.
        assert (Q : Z.rem (offset - ChunkSize d) (ChunkSize d)
                    = Z.rem offset (ChunkSize d)).
        { rewrite !Z.rem_mod_nonneg by lia.
          replace (offset - ChunkSize d) with (offset + (-1) * ChunkSize d) by lia.
          apply Z_mod_plus_full. }
        assert (Hb : 0 <= Z.rem offset (ChunkSize d) < ChunkSize d)
          by (apply Z.rem_bound_pos; lia).
        rewrite Q in F4.
        destruct (finish_good fuel _ _ st4 _ G4 Hb F4)
          as (st' & tail & E & G' & Co & Sz & Ne & De);
          try rewrite R4, R3, R2, R1; try congruence; try lia.
        { unfold len. rewrite repeat_length. lia. }
        rewrite R4, R3, R2, R1 in E, Co.
        eexists st', _. split; [exact E |]. split; [exact G' |].
        split; [| split; [| split; [discriminate | exact De]]].
        -- cbn [app List.concat]. rewrite concat_app, concat_zeros, Co, F2.
           rewrite written_beyond by lia. rewrite <- !app_assoc. f_equal.
           rewrite !app_assoc. f_equal. rewrite <- !repeat_app. f_equal.
           pose proof (gap_split (ChunkSize d) offset C3) as Ga.
           rewrite Q in Ga. unfold len in *. lia.
        -- apply (sizes_ok_app _ (_ :: _)); trivial.
           constructor; [unfold len; lia | apply zeros_full].
    + (* offset > currentLength >= chunkSize *)
      destruct (PutPartCopy_good [] st o None (Data o) G L eq_refl)
        as (b' & part & -> & G1).
      cbv zeta. cbn [app] in G1.
      destruct (fromZeroFillLarge_good fuel (len (Data o)) offset _ _ G1)
        as (st2 & -> & G2 & F2 & R2 & T2); try lia.
      st_simpl.
      assert (Hb : 0 <= Z.rem (offset - len (Data o)) (ChunkSize d) < ChunkSize d)
        by (apply Z.rem_bound_pos; lia).
      destruct (finish_good fuel _ _ st2 _ G2 Hb F2)
        as (st' & tail & E & G' & Co & Sz & Ne & De);
        try rewrite R2; try congruence; try lia.
      { unfold len in *. rewrite repeat_length. lia. }
      rewrite R2 in E, Co.
      eexists st', _. split; [exact E |]. split; [exact G' |].
      split; [| split; [| split; [discriminate | exact De]]].
      * cbn [app List.concat]. rewrite concat_app, concat_zeros, Co.
        rewrite written_beyond by lia. f_equal.
        rewrite !app_assoc. f_equal. rewrite <- !repeat_app. f_equal.
        apply gap_split. lia.
      * apply (sizes_ok_app _ (_ :: _)); trivial.
        constructor; [exact C2 | apply zeros_full].
Qed.

End Healthy.

(** The body of [WriteStream] on a store that serves every request, for a
    source that yields at least one byte and then ends. *)
Lemma body_good (d : driver) (path : string) (multi : Multi) (b0 : Bucket)
    (fuel : nat) (offset : Z) (st : wstate) :
  0 < ChunkSize d ->
  good d path multi b0 [] st ->
  totalRead st = 0 ->
  0 <= offset ->
  offset = 0 \/ lookup (s3Path d path) (objects b0) <> None ->
  rd_fail (reader st) = None ->
  rd_data (reader st) <> [] ->
  (length (rd_data (reader st)) + 2 * Z.to_nat (ChunkSize d) + Z.to_nat offset
   < fuel)%nat ->
  exists st' datas,
    body d path multi fuel offset st
    = Some (st', (len (rd_data (reader st)), None))
    /\ good d path multi b0 datas st'
    /\ List.concat datas
       = written (content b0 (s3Path d path)) offset (rd_data (reader st))
    /\ sizes_ok (ChunkSize d) datas = true
    /\ datas <> []
    /\ rd_data (reader st') = [].
Proof.
  intros Hcs G T0 Hoff Hex Hr Hne Hf. unfold body.
  destruct (0 <? offset) eqn:C; [apply Z.ltb_lt in C | apply Z.ltb_ge in C].
  - destruct Hex as [-> | Hex]; [lia |]. unfold content.
    destruct (lookup (s3Path d path) (objects b0)) as [o |] eqn:L; [| congruence].
    exact (resume_good d path multi b0 Hcs fuel offset o st G T0 C L Hr Hne Hf).
  - assert (offset = 0) by lia. subst offset.
    destruct (stream_good d path multi b0 Hcs fuel st [] G Hr)
      as (st' & tail & E & G' & Co & Sz & De & _); [lia |].
    rewrite T0, Z.add_0_l in E. exists st', tail.
    split; [exact E |]. split; [exact G' |]. split; [exact Co |].
    split; [exact Sz |]. split; [| exact De].
    intros ->. cbn in Co. now rewrite <- Co in Hne.
Qed.

(** The written bytes for a source of at least one byte.  On a store that
    serves every request and asks for parts no larger than the chunk size,
    for every path, every offset >= 0 and every source that yields at
    least one byte and then ends, when an object exists at the path or the
    offset is 0: [WriteStream] returns the number of bytes of the source
    and no error, and the object at the path then holds the bytes the
    object had before [offset], zeros up to [offset] where it was shorter,
    and then the bytes of the source.  All the other objects are left as
    they were. *)
Theorem WriteStream_writes (late : bool) (d : driver) (b : Bucket)
    (path : string) (offset : Z) (r : Reader) :
  healthy b ->
  0 < ChunkSize d ->
  min_part b <= ChunkSize d ->
  0 <= offset ->
  offset = 0 \/ lookup (s3Path d path) (objects b) <> None ->
  rd_fail r = None ->
  rd_data r <> [] ->
  exists fuel0, forall fuel, (fuel0 <= fuel)%nat ->
    exists b' r',
      WriteStream fuel late d b path offset r
      = Some (b', r', len (rd_data r), None)
      /\ objects b'
         = put (s3Path d path)
             {| Data := written (content b (s3Path d path)) offset (rd_data r);
                LastModified := clock b |}
             (objects b)
      /\ content b' (s3Path d path)
         = written (content b (s3Path d path)) offset (rd_data r)
      /\ rd_data r' = [].
Proof.
  intros Hh Hcs Hmin Hoff Hex Hr Hne.
  exists (S (length (rd_data r) + 2 * Z.to_nat (ChunkSize d) + Z.to_nat offset)).
  intros fuel Hf. unfold WriteStream, InitMulti. rewrite (request_healthy _ _ Hh).
  set (b0 := set_uploads b _). set (multi := length (uploads b)).
  set (st0 := Build_wstate _ _ _ _ _ _ _ _ _).
  assert (G0 : good d path multi b0 [] st0).
  { unfold good, session, st0, b0, multi. st_simpl.
    cbn [faults objects min_part clock body_grain uploads set_uploads].
    split; [| repeat split; trivial; try discriminate;
              unfold getbuf, zeros; apply repeat_length].
    split; [exact Hh |]. do 4 (split; [reflexivity |]).
    rewrite nth_error_app2, Nat.sub_diag by lia. reflexivity. }
  destruct (body_good d path multi b0 fuel offset st0 Hcs G0 eq_refl Hoff Hex Hr Hne)
    as (st' & datas & -> & G' & Co & Sz & Ne & De); [unfold st0; st_simpl; lia |].
  change (reader st0) with r in *.
  destruct (deferred_good d path multi b0 late datas st' (len (rd_data r)) G' Ne)
    as (b' & -> & O); [now apply (sizes_ok_weaken (ChunkSize d)) |].
  exists b', (reader st').
  assert (O' : objects b'
               = put (s3Path d path)
                   {| Data := written (content b (s3Path d path)) offset (rd_data r);
                      LastModified := clock b |}
                   (objects b)).
  { rewrite O, Co. reflexivity. }
  split; [reflexivity |]. split; [exact O' |]. split; [| exact De].
  unfold content at 1. now rewrite O', StoreFacts.lookup_put_same.
Qed.

Lemma WriteStream_writes_witness :
  exists fuel0, forall fuel, (fuel0 <= fuel)%nat ->
    exists b' r',
      WriteStream fuel false Sample.drv
        (Sample.store [("p"%string, Sample.object Sample.abc)] []) "/p" 6
        (Sample.source Sample.abc)
      = Some (b', r', 3, None)
      /\ objects b'
         = [("p"%string,
             {| Data := ["a"; "b"; "c"; x00; x00; x00; "a"; "b"; "c"]%byte;
                LastModified := "2015-02-02T00:00:00Z" |})]
      /\ content b' "p" = ["a"; "b"; "c"; x00; x00; x00; "a"; "b"; "c"]%byte
      /\ rd_data r' = [].
Proof.
  apply (WriteStream_writes false Sample.drv
           (Sample.store [("p"%string, Sample.object Sample.abc)] []) "/p" 6
           (Sample.source Sample.abc)).
  - reflexivity.
  - reflexivity.
  - cbn. lia.
  - lia.
  - right. vm_compute. discriminate.
  - reflexivity.
  - vm_compute. discriminate.
Defined.

(** The five cases of the algorithm with chunks of four bytes, the source
    yielding [abc]: streaming from offset 0, the merge with a short
    object, the copy of a prefix of at least a chunk, the zero-fill beyond
    a short object, and the copy of the whole object followed by the
    zero-fill. *)
Example WriteStream_five_cases :
  let run (existing : list byte) (offset : Z) :=
    option_map (fun '(b', _, n, err) => (content b' "p", n, err))
      (WriteStream 30 false Sample.drv
         (Sample.store [("p"%string, Sample.object existing)] []) "/p" offset
         (Sample.source Sample.abc)) in
  run ["a"; "b"; "c"]%byte 0 = Some (["a"; "b"; "c"]%byte, 3, None)
  /\ run ["a"; "b"; "c"]%byte 2 = Some (["a"; "b"; "a"; "b"; "c"]%byte, 3, None)
  /\ run ["a"; "b"; "c"; "d"; "e"]%byte 4
     = Some (["a"; "b"; "c"; "d"; "a"; "b"; "c"]%byte, 3, None)
  /\ run ["a"; "b"; "c"]%byte 9
     = Some (["a"; "b"; "c"; x00; x00; x00; x00; x00; x00; "a"; "b"; "c"]%byte,
             3, None)
  /\ run ["a"; "b"; "c"; "d"; "e"]%byte 7
     = Some (["a"; "b"; "c"; "d"; "e"; x00; x00; "a"; "b"; "c"]%byte, 3, None).
Proof. intros run. repeat apply conj; vm_compute; reflexivity. Qed.

(** C1, the failing input: a source of no bytes, on a store that serves
    every request and holds the object [abc], with chunks of four bytes.
    At offset 6 the call succeeds with the count 0 and completes the
    upload, and the object then holds the four bytes [abc] and one zero,
    where the bytes before the offset, padded with zeros up to the offset,
    are six: the first chunk [abc\0] was uploaded, and the two zeros that
    wait in the buffer are uploaded only under [if bytesRead > 0].  At
    offset 0 the call succeeds with the count 0 as well, no part was
    uploaded, [if len(parts) > 0] skips the completion, the session stays
    pending and the object still holds [abc], where the bytes before
    offset 0 followed by those of the source are no bytes at all. *)
Theorem WriteStream_of_empty_source_loses_bytes :
  option_map
    (fun '(b', _, n, err) => (content b' "p", map up_state (uploads b'), n, err))
    (WriteStream 30 false Sample.drv
       (Sample.store [("p"%string, Sample.object Sample.abc)] []) "/p" 6
       (Sample.source []))
  = Some (["a"; "b"; "c"; x00]%byte, [Completed], 0, None)
  /\ written
       (content (Sample.store [("p"%string, Sample.object Sample.abc)] []) "p")
       6 []
     = ["a"; "b"; "c"; x00; x00; x00]%byte
  /\ option_map
       (fun '(b', _, n, err) => (content b' "p", map up_state (uploads b'), n, err))
       (WriteStream 30 false Sample.drv
          (Sample.store [("p"%string, Sample.object Sample.abc)] []) "/p" 0
          (Sample.source []))
     = Some (["a"; "b"; "c"]%byte, [Pending], 0, None)
  /\ written
       (content (Sample.store [("p"%string, Sample.object Sample.abc)] []) "p")
       0 []
     = [].
Proof. repeat apply conj; vm_compute; reflexivity. Qed.

(** Where no byte waits in the buffer, a source of no bytes loses nothing:
    at an offset that is a multiple of the chunk size the object holds
    the bytes before the offset, padded with zeros. *)
Example WriteStream_of_empty_source_at_chunk_boundary :
  let run (existing : list byte) (offset : Z) :=
    option_map (fun '(b', _, n, err) => (content b' "p", n, err))
      (WriteStream 30 false Sample.drv
         (Sample.store [("p"%string, Sample.object existing)] []) "/p" offset
         (Sample.source [])) in
  run ["a"; "b"; "c"; "d"; "e"]%byte 4
  = Some (["a"; "b"; "c"; "d"]%byte, 0, None)
  /\ run ["a"; "b"; "c"; "d"]%byte 8
     = Some (["a"; "b"; "c"; "d"; x00; x00; x00; x00]%byte, 0, None).
Proof. intros run. split; vm_compute; reflexivity. Qed.

End ContentFacts.

(** ** WriteStream: the end of the source and its failure *)
Module SourceFacts.

Import S3 Driver StoreFacts ReadFacts ConsumedFacts ContentFacts.

Section Drain.

Variable d : driver.
Variable path : string.
Variable multi : Multi.

(** The source has no byte left. *)
Definition drained (st : wstate) : Prop := rd_data (reader st) = [].

(** A closure that leaves the source and [totalRead] alone. *)
Definition quiet (o : outcome) (st : wstate) : Prop :=
  forall st' e, o = Some (st', e) ->
                reader st' = reader st /\ totalRead st' = totalRead st.

(** The loop of [fromReader] ends without an error only when the source
    is exhausted or the buffer is full. *)
Lemma fromReader_loop_ends :
  forall (fuel : nat) (from : Z) (st st' : wstate),
    fromReader_loop d fuel from st = Some (st', None) ->
    (drained st' \/ ChunkSize d <= from + bytesRead st')
    /\ bytesRead st' - bytesRead st = totalRead st' - totalRead st.
Proof.
  induction fuel as [| fuel IH]; intros from st st'; [discriminate |].
  cbn [fromReader_loop].
  destruct (from + bytesRead st <? ChunkSize d) eqn:C.
  2:{ apply Z.ltb_ge in C. intros [= <-]. split; [now right | lia]. }
  destruct (Read (reader st) _) as [[data err] r'] eqn:R.
  destruct err as [e |].
  - destruct (is_EOF e); [| discriminate]. intros [= <-]. st_simpl.
    split; [| lia]. left. exact (Read_end _ _ _ _ _ R).
  - intros H. apply IH in H. st_simpl. destruct H as [H1 H2]. split; [exact H1 | lia].
Qed.

Lemma upload_fields (from : Z) (st : wstate) :
  reader (upload multi from st) = reader st
  /\ totalRead (upload multi from st) = totalRead st
  /\ bytesRead (upload multi from st) = bytesRead st.
Proof.
  unfold upload. destruct (0 <? bytesRead st); [| now st_simpl].
  destruct (PutPart _ _ _ _) as [b' [part | err]]; now st_simpl.
Qed.

Lemma fromReader_ends (fuel : nat) (from : Z) (st st' : wstate) :
  fromReader d multi fuel from st = Some (st', None) ->
  (drained st' \/ ChunkSize d <= from + bytesRead st')
  /\ bytesRead st' = totalRead st' - totalRead st.
Proof.
  unfold fromReader.
  destruct (fromReader_loop d fuel from (set_bytesRead st 0))
    as [[st1 [err |]] |] eqn:E; try discriminate.
  apply fromReader_loop_ends in E. st_simpl. destruct E as [E1 E2].
  destruct (upload_fields from st1) as (U1 & U2 & U3).
  destruct (putErrChan st1) as [[putErr |] |]; try discriminate;
    intros [= <-]; unfold drained; st_simpl; rewrite U1, U2, U3;
    (split; [exact E1 | lia]).
Qed.

(** The final loop returns without an error only when the source is
    exhausted. *)
Lemma stream_ends :
  forall (fuel : nat) (st st' : wstate) (n : Z),
    stream d multi fuel st = Some (st', (n, None)) -> drained st'.
Proof.
  induction fuel as [| fuel IH]; intros st st' n; [discriminate |].
  cbn [stream].
  destruct (fromReader d multi (S fuel) 0 st) as [[st1 [err |]] |] eqn:E;
    try discriminate.
  apply fromReader_ends in E. destruct E as [[E | E] _].
  - destruct (bytesRead st1 <? ChunkSize d); [now intros [= <- _] | apply IH].
  - destruct (bytesRead st1 <? ChunkSize d) eqn:C; [| apply IH].
    apply Z.ltb_lt in C. lia.
Qed.

Lemma fromSmallCurrent_loop_quiet :
  forall (fuel : nat) (total : Z) (current : Reader) (st : wstate),
    quiet (fromSmallCurrent_loop fuel total current st) st.
Proof.
  induction fuel as [| fuel IH]; intros total current st st' e; [discriminate |].
  cbn [fromSmallCurrent_loop].
  destruct (bytesRead st <? total); [| now intros [= <- _]].
  destruct (Read current _) as [[data err] r'].
  destruct err as [e0 |].
  - destruct (is_EOF e0); now intros [= <- _].
  - intros H. now apply IH in H.
Qed.

Lemma fromSmallCurrent_quiet (fuel : nat) (total : Z) (st : wstate) :
  quiet (fromSmallCurrent d path fuel total st) st.
Proof.
  intros st' e. unfold fromSmallCurrent.
  destruct (ReadStream d (bucket st) path 0) as [b' [current | err]].
  - intros H. now apply fromSmallCurrent_loop_quiet in H.
  - now intros [= <- _].
Qed.

Lemma fromZeroFillSmall_loop_quiet :
  forall (fuel : nat) (from to : Z) (st : wstate),
    quiet (fromZeroFillSmall_loop d fuel from to st) st.
Proof.
  induction fuel as [| fuel IH]; intros from to st st' e; [discriminate |].
  cbn [fromZeroFillSmall_loop].
  destruct (from + bytesRead st <? to); [| now intros [= <- _]].
  destruct (Read (NewReader (zeros d)) _) as [[data err] r'].
  destruct err as [e0 |].
  - now intros [= <- _].
  - intros H. now apply IH in H.
Qed.

Lemma fromZeroFillSmall_quiet (fuel : nat) (from to : Z) (st : wstate) :
  quiet (fromZeroFillSmall d fuel from to st) st.
Proof.
  intros st' e H. unfold fromZeroFillSmall in H.
  now apply fromZeroFillSmall_loop_quiet in H.
Qed.

Lemma fromZeroFillLarge_loop_quiet :
  forall (fuel : nat) (from to n : Z) (st : wstate),
    quiet (fromZeroFillLarge_loop d multi fuel from to n st) st.
Proof.
  induction fuel as [| fuel IH]; intros from to n st st' e; [discriminate |].
  cbn [fromZeroFillLarge_loop].
  destruct (ChunkSize d <=? to - (from + n)); [| now intros [= <- _]].
  destruct (PutPart _ _ _ _) as [b' [part | err]].
  - intros H. now apply IH in H.
  - now intros [= <- _].
Qed.

Lemma fromZeroFillLarge_quiet (fuel : nat) (from to : Z) (st : wstate) :
  quiet (fromZeroFillLarge d multi fuel from to st) st.
Proof.
  intros st' e. unfold fromZeroFillLarge.
  destruct (fromZeroFillLarge_loop d multi fuel from to 0 st)
    as [[st1 [err |]] |] eqn:E; try discriminate;
    apply fromZeroFillLarge_loop_quiet in E; destruct E as [E1 E2].
  - now intros [= <- _].
  - intros H. apply fromZeroFillSmall_quiet in H. destruct H as [H1 H2].
    split; congruence.
Qed.

Lemma putPartNow_quiet (data : list byte) (st : wstate) :
  quiet (putPartNow multi data st) st.
Proof.
  intros st' e. unfold putPartNow.
  destruct (PutPart _ _ _ _) as [b' [part | err]]; now intros [= <- _].
Qed.

(** A block returns without an error only when the source is exhausted. *)
Definition ends (res : option (wstate * option (Z * option error))) : Prop :=
  forall st' n, res = Some (st', Some (n, None)) -> drained st'.

Lemma ends_try (st : wstate) (o : outcome)
    (k : wstate -> option (wstate * option (Z * option error))) :
  quiet o st -> totalRead st = 0 ->
  (forall st1, totalRead st1 = 0 -> ends (k st1)) ->
  ends (match o with
        | None => None
        | Some (st', Some err) => Some (st', Some (totalRead st', Some err))
        | Some (st', None) => k st'
        end).
Proof.
  intros Q T K st' n. destruct o as [[st1 [err |]] |]; try discriminate.
  apply K. destruct (Q st1 None eq_refl) as [_ T1]. congruence.
Qed.

Lemma ends_tail (fuel : nat) (from : Z) (st : wstate) :
  totalRead st = 0 ->
  ends (match fromReader d multi fuel from st with
        | None => None
        | Some (st', Some err) => Some (st', Some (totalRead st', Some err))
        | Some (st', None) =>
            if totalRead st' + from <? ChunkSize d
            then Some (st', Some (totalRead st', None))
            else Some (st', None)
        end).
Proof.
  intros T st' n.
  destruct (fromReader d multi fuel from st) as [[st1 [err |]] |] eqn:E;
    try discriminate.
  apply fromReader_ends in E. destruct E as [E1 E2].
  destruct (totalRead st1 + from <? ChunkSize d) eqn:C; [| discriminate].
  apply Z.ltb_lt in C. intros [= <- _]. destruct E1 as [E1 | E1]; [exact E1 | lia].
Qed.

Lemma resume_at_ends (fuel : nat) (offset currentLength : Z) (st : wstate) :
  totalRead st = 0 ->
  ends (resume_at d path multi fuel offset currentLength st).
Proof.
  intros T. unfold resume_at.
  destruct (offset <=? currentLength).
  - destruct (offset <? ChunkSize d).
    + apply (ends_try st); trivial; [apply fromSmallCurrent_quiet |].
      intros st1 T1. now apply ends_tail.
    + intros st' n.
      destruct (PutPartCopy _ _ _ _ _) as [b' [part | err]]; discriminate.
  - destruct (currentLength <? ChunkSize d).
    + destruct (offset <? ChunkSize d).
      * apply (ends_try st); trivial; [apply fromSmallCurrent_quiet |].
        intros st1 T1. apply (ends_try st1); trivial;
          [apply fromZeroFillSmall_quiet |].
        intros st2 T2. now apply ends_tail.
      * apply (ends_try st); trivial; [apply fromSmallCurrent_quiet |].
        intros st1 T1. apply (ends_try st1); trivial;
          [apply fromZeroFillSmall_quiet |].
        intros st2 T2. apply (ends_try st2); trivial; [apply putPartNow_quiet |].
        intros st3 T3. apply (ends_try st3); trivial;
          [apply fromZeroFillLarge_quiet |].
        intros st4 T4. now apply ends_tail.
    + destruct (PutPartCopy _ _ _ _ _) as [b' [part | err]].
      * cbv zeta. apply (ends_try (add_part (set_bucket st b') part)); trivial;
          [apply fromZeroFillLarge_quiet |].
        intros st2 T2. now apply ends_tail.
      * intros st' n. discriminate.
Qed.

Lemma body_ends (fuel : nat) (offset : Z) (st st' : wstate) (n : Z) :
  totalRead st = 0 ->
  body d path multi fuel offset st = Some (st', (n, None)) -> drained st'.
Proof.
  intros T. unfold body. destruct (0 <? offset); [| apply stream_ends].
  unfold resume.
  assert (R : forall cl b',
             match resume_at d path multi fuel offset cl (set_bucket st b') with
             | None => None
             | Some (st1, Some ret) => Some (st1, ret)
             | Some (st1, None) => stream d multi fuel st1
             end = Some (st', (n, None)) -> drained st').
  { intros cl b'.
    destruct (resume_at d path multi fuel offset cl (set_bucket st b'))
      as [[st1 [ret |]] |] eqn:E; try discriminate.
    - intros [= -> ->].
      exact (resume_at_ends fuel offset cl (set_bucket st b') T _ _ E).
    - apply stream_ends. }
  destruct (Head (bucket st) (s3Path d path)) as [b' [cl | err]]; [apply R |].
  destruct (negb (isS3Code err "NoSuchKey")); [discriminate | apply R].
Qed.

End Drain.

Section Failing.

Variable d : driver.
Variable path : string.
Variable multi : Multi.
Variable b0 : Bucket.
Variable e : error.
Hypothesis chunk_positive : 0 < ChunkSize d.
Hypothesis not_EOF : is_EOF e = false.

(** The source ends in the failure [e]. *)
Definition fails (st : wstate) : Prop := rd_fail (reader st) = Some e.

(** The variables of a call on a store that serves every request: the
    session holds the parts the driver recorded, whichever they are, and
    no upload has failed. *)
Definition served (st : wstate) : Prop :=
  exists datas, good d path multi b0 datas st.

Lemma fails_failing (st : wstate) : fails st -> failing (reader st).
Proof. intros H. exists e. now split. Qed.

(** The loop of [fromReader] on a source that fails: it stops without an
    error only when the buffer is full, and with the failure of the
    source once the source has no byte left. *)
Lemma fill_failing (from : Z) :
  0 <= from ->
  forall (fuel : nat) (st : wstate),
    length (buf st) = Z.to_nat (ChunkSize d) ->
    0 <= bytesRead st ->
    fails st ->
    (Z.to_nat (ChunkSize d - (from + bytesRead st)) < fuel)%nat ->
    exists st' err,
      fromReader_loop d fuel from st = Some (st', err)
      /\ fails st'
      /\ (err = None \/ (err = Some e /\ drained st'))
      /\ length (buf st') = Z.to_nat (ChunkSize d)
      /\ bucket st' = bucket st /\ parts st' = parts st
      /\ partNumber st' = partNumber st /\ putErrChan st' = putErrChan st
      /\ released st' = released st.
Proof.
  intros Hfrom. induction fuel as [| fuel IH]; intros st B Hb Hs Hf; [lia |].
  cbn [fromReader_loop].
  destruct (from + bytesRead st <? ChunkSize d) eqn:C.
  2:{ exists st, None. split; [reflexivity |]. split; [exact Hs |].
      split; [now left |]. now repeat split. }
  apply Z.ltb_lt in C.
  destruct (Read (reader st) _) as [[data err] r'] eqn:R.
  pose proof (Read_spec _ _ _ _ _ R) as (D & L & F & _ & P1 & P2).
  unfold len in *. rewrite B in L.
  set (st1 := set_bytesRead _ _).
  assert (B1 : length (buf st1) = Z.to_nat (ChunkSize d)).
  { unfold st1. st_simpl. rewrite write_at_length; trivial; lia. }
  assert (S1 : fails st1).
  { unfold fails, st1 in *. st_simpl. now rewrite F. }
  destruct err as [x |].
  - assert (X : x = e).
    { rewrite (P2 x eq_refl). unfold end_error. unfold fails in Hs. now rewrite Hs. }
    subst x. rewrite not_EOF.
    exists st1, (Some e). split; [reflexivity |]. split; [exact S1 |].
    split.
    { right. split; [reflexivity |]. unfold drained, st1. st_simpl.
      exact (Read_end _ _ _ _ _ R). }
    split; [exact B1 |]. unfold st1. st_simpl. now repeat split.
  - specialize (P1 eq_refl).
    destruct (IH st1) as (st' & err & -> & S' & Or & Bu & Rest); trivial.
    + unfold st1. st_simpl. lia.
    + unfold st1. st_simpl. lia.
    + exists st', err. split; [reflexivity |]. split; [exact S' |].
      split; [exact Or |]. split; [exact Bu |].
      unfold st1 in Rest. st_simpl. exact Rest.
Qed.

(** [fromReader] on a store that serves every request, for a source that
    fails: the upload of the chunk succeeds, and the only error is the
    failure of the source, reported when no byte of it is left. *)
Lemma fromReader_failing (from : Z) (fuel : nat) (st : wstate) :
  served st -> 0 <= from -> fails st ->
  (Z.to_nat (ChunkSize d) < fuel)%nat ->
  exists st' err,
    fromReader d multi fuel from st = Some (st', err)
    /\ served st' /\ fails st'
    /\ (err = None \/ (err = Some e /\ drained st')).
Proof.
  intros [datas G] Hfrom Hs Hf. unfold fromReader.
  pose proof G as (S & P & N & C & Rl & B).
  destruct (fill_failing from Hfrom fuel (set_bytesRead st 0))
    as (st1 & err & -> & S1 & Or & Bu & Eb & Ep & En & Ec & Er);
    trivial; st_simpl; try lia.
  assert (G1 : good d path multi b0 datas st1).
  { apply (good_same d path multi b0 datas st); trivial. now rewrite Ec. }
  destruct Or as [-> | [-> Dr]].
  2:{ exists st1, (Some e). split; [reflexivity |].
      split; [now exists datas |]. split; [exact S1 |]. right. now split. }
  assert (Lb : length (getbuf d) = Z.to_nat (ChunkSize d))
    by (unfold getbuf, zeros; apply repeat_length).
  assert (U : served (set_buf (upload multi from st1) (getbuf d))
              /\ fails (set_buf (upload multi from st1) (getbuf d))).
  { unfold upload. destruct (0 <? bytesRead st1).
    - destruct (PutPart_good d path multi b0 chunk_positive datas st1
                  (slice_to (buf st1) (bytesRead st1 + from)) G1)
        as (b' & part & E & G2).
      rewrite E. split; [| exact S1].
      exists (datas ++ [slice_to (buf st1) (bytesRead st1 + from)]).
      apply (good_same d path multi b0 _ (add_part (set_bucket st1 b') part));
        trivial. discriminate.
    - split; [| exact S1]. exists datas.
      apply (good_same d path multi b0 datas st1); trivial. discriminate. }
  destruct (putErrChan st1) as [[x |] |] eqn:Pe;
    [exfalso; apply (C x); congruence | |];
    (eexists _, None; split; [reflexivity |];
     split; [exact (proj1 U) |]; split; [exact (proj2 U) | now left]).
Qed.

(** The final loop, for a source that fails: it returns the failure of
    the source, when no byte of the source is left. *)
Lemma stream_failing :
  forall (fuel : nat) (st : wstate),
    served st -> fails st ->
    (length (rd_data (reader st)) + Z.to_nat (ChunkSize d) < fuel)%nat ->
    exists st' n,
      stream d multi fuel st = Some (st', (n, Some e))
      /\ served st' /\ drained st'.
Proof.
  induction fuel as [| fuel IH]; intros st G Hs Hf; [lia |].
  cbn [stream].
  assert (B : buf_ok d st) by (destruct G as [datas G]; apply G).
  destruct (fromReader_total d multi chunk_positive 0 (S fuel) st)
    as (st1 & err & E & P & Post); trivial; try lia.
  destruct (fromReader_failing 0 (S fuel) st G) as (st2 & err2 & E2 & G1 & S1 & Or);
    trivial; try lia.
  rewrite E in E2. injection E2 as <- <-. rewrite E.
  destruct Or as [-> | [-> Dr]].
  - destruct (Post eq_refl) as [Hb Hfail].
    specialize (Hfail (fails_failing st Hs)).
    replace (bytesRead st1 <? ChunkSize d) with false
      by (symmetry; apply Z.ltb_ge; lia).
    destruct P as (_ & _ & out & D1 & T1).
    apply IH; trivial. rewrite D1, length_app in Hf. unfold len in T1. lia.
  - exists st1, (totalRead st1). split; [reflexivity |]. now split.
Qed.

(** The last steps of every branch under [if offset > 0], followed by the
    final loop. *)
Lemma tail_failing (fuel : nat) (from : Z) (st : wstate) :
  served st -> fails st -> 0 <= from -> totalRead st = 0 ->
  (length (rd_data (reader st)) + Z.to_nat (ChunkSize d) < fuel)%nat ->
  exists st' n,
    match
      match fromReader d multi fuel from st with
      | None => None
      | Some (st', Some err) => Some (st', Some (totalRead st', Some err))
      | Some (st', None) =>
          if totalRead st' + from <? ChunkSize d
          then Some (st', Some (totalRead st', None))
          else Some (st', None)
      end
    with
    | None => None
    | Some (st', Some ret) => Some (st', ret)
    | Some (st', None) => stream d multi fuel st'
    end = Some (st', (n, Some e))
    /\ served st' /\ drained st'.
Proof.
  intros G Hs Hfrom T0 Hf.
  assert (B : buf_ok d st) by (destruct G as [datas G]; apply G).
  destruct (fromReader_total d multi chunk_positive from fuel st)
    as (st1 & err & E & P & Post); trivial; try lia.
  destruct (fromReader_failing from fuel st G) as (st2 & err2 & E2 & G1 & S1 & Or);
    trivial; try lia.
  rewrite E in E2. injection E2 as <- <-. rewrite E.
  destruct Or as [-> | [-> Dr]].
  - destruct (Post eq_refl) as [Hb Hfail].
    specialize (Hfail (fails_failing st Hs)).
    replace (totalRead st1 + from <? ChunkSize d) with false
      by (symmetry; apply Z.ltb_ge; lia).
    destruct P as (_ & _ & out & D1 & T1).
    apply stream_failing; trivial. rewrite D1, length_app in Hf. lia.
  - exists st1, (totalRead st1). split; [reflexivity |]. now split.
Qed.

(** The block under [if offset > 0] and the final loop, when the object
    exists and the source fails. *)
Lemma resume_failing (fuel : nat) (offset : Z) (o : Object) (st : wstate) :
  good d path multi b0 [] st ->
  totalRead st = 0 ->
  0 < offset ->
  lookup (s3Path d path) (objects b0) = Some o ->
  fails st ->
  (length (rd_data (reader st)) + 2 * Z.to_nat (ChunkSize d) + Z.to_nat offset
   < fuel)%nat ->
  exists st' n,
    match resume d path multi fuel offset st with
    | None => None
    | Some (st', Some ret) => Some (st', ret)
    | Some (st', None) => stream d multi fuel st'
    end = Some (st', (n, Some e))
    /\ served st' /\ drained st'.
Proof.
  intros G T0 Hoff L Hs Hf.
  unfold resume. rewrite (Head_good d path multi b0 [] (bucket st) (proj1 G)), L.
  rewrite set_bucket_same. unfold resume_at.
  assert (Hlen : 0 <= len (Data o)) by (unfold len; lia).
  assert (Hrem : forall x, 0 <= x -> 0 <= Z.rem x (ChunkSize d)).
  { intros x Hx. pose proof (Z.rem_bound_pos x (ChunkSize d)). lia. }
  destruct (offset <=? len (Data o)) eqn:C1;
    [apply Z.leb_le in C1 | apply Z.leb_gt in C1].
  - destruct (offset <? ChunkSize d) eqn:C2;
      [apply Z.ltb_lt in C2 | apply Z.ltb_ge in C2].
    + (* chunkSize > currentLength >= offset *)
      destruct (fromSmallCurrent_good d path multi b0 chunk_positive fuel offset [] st o G L)
        as (st1 & -> & _ & B1); try lia.
      pose proof (buffered_good d path multi b0 _ _ _ G B1) as G1.
      destruct B1 as (_ & _ & _ & _ & _ & _ & R1 & T1).
      apply tail_failing;
        [now exists [] | unfold fails in *; congruence | lia | congruence
        | rewrite R1; lia].
    + (* currentLength >= offset >= chunkSize *)
      destruct (PutPartCopy_good d path multi b0 chunk_positive [] st o (Some (0, offset - 1))
                  (firstn (Z.to_nat (offset - 1 - 0 + 1)) (skipn (Z.to_nat 0) (Data o)))
                  G L) as (b' & part & -> & G1).
      { repeat split; lia. }
      apply stream_failing; [eexists; exact G1 | exact Hs | st_simpl; lia].
  - destruct (len (Data o) <? ChunkSize d) eqn:C2;
      [apply Z.ltb_lt in C2 | apply Z.ltb_ge in C2].
    + destruct (fromSmallCurrent_good d path multi b0 chunk_positive fuel
                  (len (Data o)) [] st o G L)
        as (st1 & E1 & _ & B1); try lia.
      pose proof (buffered_good d path multi b0 _ _ _ G B1) as G1.
      destruct B1 as (_ & _ & _ & _ & _ & _ & R1 & T1).
      destruct (offset <? ChunkSize d) eqn:C3;
        [apply Z.ltb_lt in C3 | apply Z.ltb_ge in C3].
      * (* chunkSize > offset > currentLength *)
        rewrite E1.
        destruct (fromZeroFillSmall_good d chunk_positive fuel (len (Data o)) offset st1)
          as (st2 & -> & _ & B2); try lia; [apply G1 |].
        pose proof (buffered_good d path multi b0 _ _ _ G1 B2) as G2.
        destruct B2 as (_ & _ & _ & _ & _ & _ & R2 & T2).
        apply tail_failing;
          [now exists [] | unfold fails in *; congruence | lia | congruence
          | rewrite R2, R1; lia].
      * (* offset >= chunkSize > currentLength *)
        rewrite E1.
        destruct (fromZeroFillSmall_good d chunk_positive fuel (len (Data o))
                    (ChunkSize d) st1)
          as (st2 & -> & _ & B2); try lia; [apply G1 |].
        pose proof (buffered_good d path multi b0 _ _ _ G1 B2) as G2.
        destruct B2 as (_ & _ & _ & _ & _ & _ & R2 & T2).
        destruct (putPartNow_good d path multi b0 chunk_positive [] st2 (buf st2) G2)
          as (st3 & -> & G3 & _ & R3 & T3).
        destruct (fromZeroFillLarge_good d path multi b0 chunk_positive fuel
                    (ChunkSize d) offset _ st3 G3 C3)
          as (st4 & -> & G4 & _ & R4 & T4); try lia.
        apply tail_failing;
          [eexists; exact G4 | unfold fails in *; congruence
          | apply Hrem; lia | congruence | rewrite R4, R3, R2, R1; lia].
    + (* offset > currentLength >= chunkSize *)
      destruct (PutPartCopy_good d path multi b0 chunk_positive [] st o None (Data o) G L eq_refl)
        as (b' & part & -> & G1).
      cbv zeta.
      destruct (fromZeroFillLarge_good d path multi b0 chunk_positive fuel
                  (len (Data o)) offset _ _ G1)
        as (st2 & -> & G2 & _ & R2 & T2); try lia.
      st_simpl.
      apply tail_failing;
        [eexists; exact G2 | unfold fails in *; rewrite R2; exact Hs
        | apply Hrem; lia | rewrite T2; exact T0 | rewrite R2; st_simpl; lia].
Qed.

(** The body of [WriteStream] on a store that serves every request, for a
    source that fails: the failure of the source is what it returns, after
    it read every byte the source had. *)
Lemma body_failing (fuel : nat) (offset : Z) (st : wstate) :
  good d path multi b0 [] st ->
  totalRead st = 0 ->
  offset <= 0 \/ lookup (s3Path d path) (objects b0) <> None ->
  fails st ->
  (length (rd_data (reader st)) + 2 * Z.to_nat (ChunkSize d) + Z.to_nat offset
   < fuel)%nat ->
  exists st' n,
    body d path multi fuel offset st = Some (st', (n, Some e))
    /\ served st' /\ drained st'.
Proof.
  intros G T0 Hex Hs Hf. unfold body.
  destruct (0 <? offset) eqn:C; [apply Z.ltb_lt in C | apply Z.ltb_ge in C].
  - destruct Hex as [Hex | Hex]; [lia |].
    destruct (lookup (s3Path d path) (objects b0)) as [o |] eqn:L; [| congruence].
    now apply (resume_failing fuel offset o).
  - apply stream_failing; [now exists [] | exact Hs | lia].
Qed.

End Failing.

(** C4.  Whatever the store answers and whatever the source does,
    [WriteStream] returns (the chunk size being positive), and its first
    result is the number of bytes it read from the source: the source is
    left advanced by exactly that many bytes, also when an error is
    returned.  A source that fails makes the call return an error, and a
    call that returns no error has read the source to its end and returns
    the number of bytes the source held.  On a store that serves every
    request, when the object exists or the offset is 0, a source that
    fails after N bytes is read to its failure: the call returns the
    count N together with the error of the source. *)
Theorem WriteStream_returns_bytes_read (late : bool) (d : driver) (b : Bucket)
    (path : string) (offset : Z) (r : Reader) :
  0 < ChunkSize d ->
  exists fuel0, forall fuel, (fuel0 <= fuel)%nat ->
    exists b' r' n err,
      WriteStream fuel late d b path offset r = Some (b', r', n, err)
      /\ consumed r r' n
      /\ (failing r -> err <> None)
      /\ (err = None -> rd_data r' = [] /\ n = len (rd_data r))
      /\ (healthy b ->
          offset <= 0 \/ lookup (s3Path d path) (objects b) <> None ->
          forall e, rd_fail r = Some e -> is_EOF e = false ->
            rd_data r' = [] /\ n = len (rd_data r) /\ err = Some e).
Proof.
  intros Hc.
  exists (S (length (rd_data r) + 2 * Z.to_nat (ChunkSize d) + Z.to_nat offset)).
  intros fuel Hf. unfold WriteStream.
  destruct (InitMulti b (s3Path d path)) as [b1 [multi | err]] eqn:I.
  2:{ exists b1, r, 0, (Some err). split; [reflexivity |].
      split; [unfold consumed, len; cbn; repeat split; lia |].
      split; [discriminate |]. split; [discriminate |].
      intros Hh. unfold InitMulti in I. rewrite (request_healthy _ _ Hh) in I.
      discriminate. }
  set (st0 := {| partNumber := 1; bytesRead := 0; putErrChan := None; parts := [];
                 buf := getbuf d; totalRead := 0; bucket := b1; reader := r;
                 released := false |}).
  destruct (body_total d path multi Hc fuel offset st0) as (st' & ret & E & G & R1 & R2).
  { unfold buf_ok, st0, getbuf, zeros. cbn. apply repeat_length. }
  { reflexivity. }
  { unfold st0. cbn [reader]. lia. }
  rewrite E. destruct G as (_ & F & out & D & T).
  unfold st0 in F, D, T, R2. cbn in F, D, T, R2.
  assert (C : consumed r (reader st') (fst ret)).
  { rewrite R1, T. unfold consumed, len. rewrite D, length_app.
    split; [lia |]. split; [| exact F].
    rewrite Nat2Z.id, skipn_app, skipn_all, Nat.sub_diag. reflexivity. }
  assert (A : rd_data (reader st') = [] -> fst ret = len (rd_data r)).
  { intros Dr. rewrite R1, T, D, Dr, app_nil_r. lia. }
  assert (K : snd ret = None ->
              rd_data (reader st') = [] /\ fst ret = len (rd_data r)).
  { destruct ret as [n x]. cbn [fst snd] in *. intros ->.
    pose proof (body_ends d path multi fuel offset st0 st' n eq_refl E) as Dr.
    split; [exact Dr | exact (A Dr)]. }
  assert (Q : healthy b ->
              offset <= 0 \/ lookup (s3Path d path) (objects b) <> None ->
              forall e, rd_fail r = Some e -> is_EOF e = false ->
                (rd_data (reader st') = [] /\ fst ret = len (rd_data r)
                 /\ snd ret = Some e)
                /\ forall x, putErrChan st' <> Some (Some x)).
  { intros Hh Hex e He Hn. unfold InitMulti in I.
    rewrite (request_healthy _ _ Hh) in I. injection I as <- <-.
    set (b0 := set_uploads b _) in *. set (multi := length (uploads b)) in *.
    assert (G0 : good d path multi b0 [] st0).
    { unfold good, session, st0, b0, multi. st_simpl.
      cbn [faults objects min_part clock body_grain uploads set_uploads].
      split; [| repeat split; trivial; try discriminate;
                unfold getbuf, zeros; apply repeat_length].
      split; [exact Hh |]. do 4 (split; [reflexivity |]).
      rewrite nth_error_app2, Nat.sub_diag by lia. reflexivity. }
    destruct (body_failing d path multi b0 e Hc Hn fuel offset st0 G0 eq_refl)
      as (st2 & n & E2 & [datas G2] & Dr); trivial;
      try (unfold st0; st_simpl; lia).
    rewrite E in E2. injection E2 as <- ->. cbn [fst snd] in *.
    split; [| apply G2].
    split; [exact Dr |]. split; [exact (A Dr) | reflexivity]. }
  unfold deferred. destruct (putErrChan st') as [[putErr |] |] eqn:Pe; cbn [fst snd].
  - eexists _, _, _, _. split; [reflexivity |]. cbn [reader].
    split; [exact C |]. split; [discriminate |]. split; [discriminate |].
    intros Hh Hex e He Hn. destruct (Q Hh Hex e He Hn) as [_ N].
    now destruct (N putErr).
  - eexists _, _, _, _. split; [reflexivity |]. cbn [reader].
    split; [exact C |]. split; [intros Fl N; exact (R2 N Fl) |].
    split; [exact K |].
    intros Hh Hex e He Hn. exact (proj1 (Q Hh Hex e He Hn)).
  - eexists _, _, _, _. split; [reflexivity |]. cbn [reader].
    split; [exact C |]. split; [intros Fl N; exact (R2 N Fl) |].
    split; [exact K |].
    intros Hh Hex e He Hn. exact (proj1 (Q Hh Hex e He Hn)).
Qed.

Lemma WriteStream_returns_bytes_read_witness :
  exists fuel0, forall fuel, (fuel0 <= fuel)%nat ->
    exists b' r' n err,
      WriteStream fuel false Sample.drv
        (Sample.store [("p"%string, Sample.object Sample.abc)] []) "/p" 2
        (Sample.broken_source Sample.abc)
      = Some (b', r', n, err)
      /\ consumed (Sample.broken_source Sample.abc) r' n
      /\ (failing (Sample.broken_source Sample.abc) -> err <> None)
      /\ (err = None ->
          rd_data r' = [] /\ n = len (rd_data (Sample.broken_source Sample.abc)))
      /\ (healthy (Sample.store [("p"%string, Sample.object Sample.abc)] []) ->
          2 <= 0
          \/ lookup (s3Path Sample.drv "/p")
               (objects (Sample.store [("p"%string, Sample.object Sample.abc)] []))
             <> None ->
          forall e,
            rd_fail (Sample.broken_source Sample.abc) = Some e ->
            is_EOF e = false ->
            rd_data r' = []
            /\ n = len (rd_data (Sample.broken_source Sample.abc))
            /\ err = Some e).
Proof.
  apply (WriteStream_returns_bytes_read false Sample.drv
           (Sample.store [("p"%string, Sample.object Sample.abc)] []) "/p" 2
           (Sample.broken_source Sample.abc)).
  reflexivity.
Defined.

(** A source that fails after three bytes, read two bytes at a time, on an
    object of three bytes resumed at offset 2: the call returns the count 3
    and the failure of the source.  The first chunk, filled before the
    failure, is committed by the deferred completion. *)
Example WriteStream_broken_source :
  WriteStream 8 false Sample.drv
    (Sample.store [("p"%string, Sample.object Sample.abc)] []) "/p" 2
    (Sample.broken_source Sample.abc)
  = Some ({| objects := [("p"%string,
                          {| Data := ["a"; "b"; "a"; "b"]%byte;
                             LastModified := "2015-02-02T00:00:00Z" |})];
             uploads := [{| up_key := "p";
                            up_parts := [(1, ["a"; "b"; "a"; "b"]%byte)];
                            up_state := Completed |}];
             faults := []; min_part := 4;
             clock := "2015-02-02T00:00:00Z"; body_grain := [] |},
          {| rd_data := []; rd_fail := Some (OtherError "broken pipe");
             rd_grain := [1; 1; 1; 1; 1; 1]%nat; rd_eager := false |},
          3, Some (OtherError "broken pipe")).
Proof. reflexivity. Qed.

End SourceFacts.

(** * Further properties of the driver *)

(** ** Keys put into the store *)
Module PutFacts.

Import Strings KeyOrder S3 StoreFacts.

Lemma ltb_total (a b : string) : ltb a b = false -> a <> b -> lt b a.
Proof.
  unfold ltb, lt. intros H N.
  destruct (String_as_OT.compare_spec a b) as [E | L | G]; trivial.
  - contradiction.
  - discriminate.
Qed.

Lemma put_keys (k : string) (o : Object) (s : list (string * Object)) (x : string) :
  In x (map fst (put k o s)) <-> x = k \/ In x (map fst s).
Proof.
  induction s as [| [k' o'] s IH]; cbn [put map fst In].
  - intuition.
  - destruct (ltb k k'); cbn [map fst In]; [intuition |].
    destruct (String.eqb_spec k' k) as [-> | ne]; cbn [map fst In]; [intuition |].
    rewrite IH. intuition.
Qed.

(** A key put into the store leaves the objects at the other keys. *)
Lemma lookup_put_other (k key : string) (o : Object) (s : list (string * Object)) :
  k <> key -> lookup k (put key o s) = lookup k s.
Proof.
  intros N. induction s as [| [k' o'] s IH]; cbn [put lookup].
  - destruct (String.eqb_spec key k); [congruence | reflexivity].
  - destruct (ltb key k'); cbn [lookup].
    + destruct (String.eqb_spec key k); [congruence | reflexivity].
    + destruct (String.eqb_spec k' key) as [-> | ne]; cbn [lookup].
      * destruct (String.eqb_spec key k); [congruence | reflexivity].
      * now rewrite IH.
Qed.

(** [put] keeps the keys in order. *)
Lemma wf_put (k : string) (o : Object) (s : list (string * Object)) :
  k <> EmptyString -> wf_store s -> wf_store (put k o s).
Proof.
  intros N [S F]. split.
  - induction s as [| [k' o'] s IH]; cbn [put map fst].
    + repeat constructor.
    + apply StronglySorted_inv in S. destruct S as [S1 S2].
      destruct (ltb k k') eqn:E; cbn [map fst].
      * apply ltb_lt in E. constructor; [now constructor |].
        constructor; trivial.
        eapply Forall_impl; [| exact S2]. intros x Hx. exact (lt_trans _ _ _ E Hx).
      * destruct (String.eqb_spec k' k) as [-> | ne]; cbn [map fst].
        -- now constructor.
        -- constructor.
           ++ apply IH; trivial. now inversion F.
           ++ apply Forall_forall. intros x Hx. apply put_keys in Hx.
              destruct Hx as [-> | Hx].
              ** apply ltb_total; trivial. congruence.
              ** rewrite Forall_forall in S2. now apply S2.
  - apply Forall_forall. intros x Hx. apply put_keys in Hx.
    destruct Hx as [-> | Hx]; trivial.
    rewrite Forall_forall in F. now apply F.
Qed.

(** What a filter on the keys leaves of the store. *)
Lemma lookup_filter_key (f : string -> bool) (k : string) (s : list (string * Object)) :
  lookup k (filter (fun ko => f (fst ko)) s) = if f k then lookup k s else None.
Proof.
  induction s as [| [k' o'] s IH]; cbn [filter lookup fst].
  - now destruct (f k).
  - destruct (String.eqb_spec k' k) as [-> | ne].
    + destruct (f k) eqn:E; cbn [lookup]; [now rewrite String.eqb_refl |].
      exact IH.
    + destruct (f k'); cbn [lookup]; [| exact IH].
      destruct (String.eqb_spec k' k); [contradiction | exact IH].
Qed.

Lemma lookup_remove_all (ks : list string) (k : string) (s : list (string * Object)) :
  lookup k (remove_all ks s)
  = if existsb (String.eqb k) ks then None else lookup k s.
Proof.
  unfold remove_all.
  rewrite (lookup_filter_key (fun x => negb (existsb (String.eqb x) ks))).
  now destruct (existsb (String.eqb k) ks).
Qed.

End PutFacts.

(** ** Paths and keys *)
Module PathFacts.

Import Strings KeyOrder Driver ListFacts.

Lemma TrimLeft_no_cutset (s cutset : string) (c : ascii) (rest : string) :
  TrimLeft s cutset = String c rest -> inCutset c cutset = false.
Proof.
  induction s as [| a s IH]; cbn [TrimLeft]; [discriminate |].
  destruct (inCutset a cutset) eqn:E; [exact IH |].
  intros [= <- _]. exact E.
Qed.

Lemma TrimLeft_id (s cutset : string) :
  match s with
  | EmptyString => True
  | String c _ => inCutset c cutset = false
  end ->
  TrimLeft s cutset = s.
Proof. destruct s as [| c s]; cbn [TrimLeft]; [trivial |]. now intros ->. Qed.

Lemma TrimLeft_empty (s cutset : string) (c : ascii) :
  TrimLeft s cutset = EmptyString -> Strings.last s = Some c ->
  inCutset c cutset = true.
Proof.
  induction s as [| a s IH]; cbn [TrimLeft Strings.last]; [discriminate |].
  destruct (inCutset a cutset) eqn:E; [| discriminate].
  intros T. destruct s as [| a' s]; [intros [= <-]; exact E |].
  now apply IH.
Qed.

Lemma TrimRight_last (s cutset : string) (c : ascii) :
  Strings.last (TrimRight s cutset) = Some c -> inCutset c cutset = false.
Proof.
  induction s as [| a s IH]; cbn [TrimRight]; [discriminate |].
  destruct (TrimRight s cutset) as [| a' t] eqn:E.
  - destruct (inCutset a cutset) eqn:Q; cbn [Strings.last]; [discriminate |].
    now intros [= <-].
  - exact IH.
Qed.

(** A root directory of slashes only is no root directory. *)
Lemma root_empty (d : driver) :
  s3Path d "" = EmptyString -> TrimRight (RootDirectory d) "/" = EmptyString.
Proof.
  unfold s3Path. rewrite append_empty_r. intros T.
  destruct (Strings.last (TrimRight (RootDirectory d) "/")) as [c |] eqn:L.
  - pose proof (TrimRight_last _ _ _ L) as Q.
    rewrite (TrimLeft_empty _ _ _ T L) in Q. discriminate.
  - destruct (TrimRight (RootDirectory d) "/") as [| a t]; [reflexivity |].
    exfalso. clear T. revert a L. induction t as [| a' t IH]; intros a L.
    + discriminate.
    + exact (IH a' L).
Qed.

Lemma TrimRight_slash (s : string) :
  TrimRight (s ++ "/") "/" = TrimRight s "/".
Proof.
  induction s as [| a s IH]; [reflexivity |].
  cbn [append TrimRight]. now rewrite IH.
Qed.

Lemma slash_prefix (s : string) :
  String.prefix "/" s = false <->
  match s with
  | EmptyString => True
  | String c _ => inCutset c "/" = false
  end.
Proof.
  destruct s as [| c s]; [cbn; tauto |].
  cbn [String.prefix inCutset].
  destruct (ascii_dec "/" c) as [<- | N].
  - rewrite prefix_empty, Ascii.eqb_refl. cbn. split; discriminate.
  - destruct (Ascii.eqb_spec "/"%char c); [contradiction |]. cbn. tauto.
Qed.

Lemma s3Path_with_root (d : driver) (path : string) :
  s3Path d "" <> EmptyString -> s3Path d path = (s3Path d "" ++ path)%string.
Proof.
  intros N. unfold s3Path in *. rewrite append_empty_r in *.
  now apply TrimLeft_app.
Qed.

Lemma s3Path_without_root (d : driver) (path : string) :
  s3Path d "" = EmptyString -> s3Path d path = TrimLeft path "/".
Proof. intros E. unfold s3Path. now rewrite (root_empty d E). Qed.

(** X1.  The key a path stands for.  It never starts with a slash.  Under a
    root directory that is more than slashes (what is left of it without
    its trailing slashes is not empty), the key of the root directory is
    not empty and the key of a path is the key of the root directory
    followed by the path; under a root directory that is empty or made of
    slashes only, the key of a path is the path without its leading
    slashes. *)
Theorem s3Path_key (d : driver) (path : string) :
  String.prefix "/" (s3Path d path) = false
  /\ (TrimRight (RootDirectory d) "/" <> EmptyString ->
      s3Path d "" <> EmptyString
      /\ s3Path d path = (s3Path d "" ++ path)%string)
  /\ (TrimRight (RootDirectory d) "/" = EmptyString ->
      s3Path d path = TrimLeft path "/").
Proof.
  split; [| split].
  - apply slash_prefix. unfold s3Path.
    destruct (TrimLeft _ "/") as [| c rest] eqn:E; [trivial |].
    exact (TrimLeft_no_cutset _ _ _ _ E).
  - intros N.
    assert (R : s3Path d "" <> EmptyString).
    { intros E. apply N. now apply root_empty. }
    split; [exact R | now apply s3Path_with_root].
  - intros E. unfold s3Path. now rewrite E.
Qed.

Example s3Path_examples :
  s3Path {| ChunkSize := 4; Encrypt := false; RootDirectory := "/registry/" |}
    "/docker/blob"
  = "registry/docker/blob"%string
  /\ s3Path {| ChunkSize := 4; Encrypt := false; RootDirectory := "/" |} "/docker/blob"
     = "docker/blob"%string
  /\ s3Path {| ChunkSize := 4; Encrypt := false; RootDirectory := "" |} "/"
     = ""%string.
Proof. repeat split. Qed.

(** X2.  Slashes around the root directory make no difference to the keys: a
    root directory with a further leading or trailing slash stands for the
    same keys. *)
Theorem s3Path_root_slashes (c : Z) (e : bool) (root path : string) :
  s3Path {| ChunkSize := c; Encrypt := e; RootDirectory := "/" ++ root |} path
  = s3Path {| ChunkSize := c; Encrypt := e; RootDirectory := root |} path
  /\ s3Path {| ChunkSize := c; Encrypt := e; RootDirectory := root ++ "/" |} path
     = s3Path {| ChunkSize := c; Encrypt := e; RootDirectory := root |} path.
Proof.
  unfold s3Path. cbn [RootDirectory]. split.
  - cbn [append TrimRight].
    destruct (TrimRight root "/") as [| a t]; reflexivity.
  - now rewrite TrimRight_slash.
Qed.

(** X3.  The path [List] reports for a key leads back to the key: for a key
    under the root directory, [s3Path] of the reported path is the key. *)
Theorem reported_s3Path (d : driver) (key : string) :
  String.prefix (s3Path d "") key = true ->
  String.prefix "/" key = false ->
  s3Path d (reported d key) = key.
Proof.
  intros U N. rewrite (reported_under d key U).
  destruct (String.eqb_spec (s3Path d "") "") as [E | E].
  - rewrite (s3Path_without_root d _ E), E. cbn. apply TrimLeft_id.
    now apply slash_prefix.
  - cbn [append]. rewrite (s3Path_with_root d _ E). symmetry.
    now apply prefix_split.
Qed.

Lemma reported_s3Path_witness :
  s3Path {| ChunkSize := 4; Encrypt := false; RootDirectory := "/registry/" |}
    (reported {| ChunkSize := 4; Encrypt := false; RootDirectory := "/registry/" |}
       "registry/docker/blob")
  = "registry/docker/blob"%string.
Proof.
  apply (reported_s3Path
           {| ChunkSize := 4; Encrypt := false; RootDirectory := "/registry/" |}
           "registry/docker/blob"); reflexivity.
Defined.

End PathFacts.

(** ** Whole objects: GetContent, PutContent *)
Module ObjectFacts.

Import Strings S3 Driver StoreFacts PutFacts.

(** The store after a [Put] it served. *)
Lemma PutContent_healthy (d : driver) (b : Bucket) (path : string)
    (contents : list byte) :
  healthy b ->
  PutContent d b path contents
  = (set_objects b
       (put (s3Path d path) {| Data := contents; LastModified := clock b |}
          (objects b)),
     None).
Proof. intros Hb. unfold PutContent, Put. now rewrite (request_healthy b _ Hb). Qed.

Lemma GetContent_healthy (d : driver) (b : Bucket) (path : string) :
  healthy b ->
  GetContent d b path
  = (b, match lookup (s3Path d path) (objects b) with
        | Some o => inl (Data o)
        | None => inr (PathNotFoundError path)
        end).
Proof.
  intros Hb. unfold GetContent, Get. rewrite (request_healthy b _ Hb).
  now destruct (lookup _ _).
Qed.

(** X4.  Round trip.  On a store that serves every request, [PutContent]
    succeeds whatever the path held before, [GetContent] of the path then
    returns the bytes that were put, and the objects at all other keys are
    as they were. *)
Theorem PutContent_then_GetContent (d : driver) (b : Bucket) (path : string)
    (contents : list byte) :
  healthy b ->
  exists b',
    PutContent d b path contents = (b', None)
    /\ GetContent d b' path = (b', inl contents)
    /\ (forall k, k <> s3Path d path ->
                  lookup k (objects b') = lookup k (objects b)).
Proof.
  intros Hb. eexists. split; [now apply PutContent_healthy |].
  split.
  - rewrite GetContent_healthy by exact Hb.
    cbn [objects set_objects]. now rewrite lookup_put_same.
  - intros k N. cbn [objects set_objects]. now apply lookup_put_other.
Qed.

Lemma PutContent_then_GetContent_witness :
  exists b',
    PutContent Sample.drv (Sample.store [("p"%string, Sample.object [])] []) "/p"
      Sample.abc
    = (b', None)
    /\ GetContent Sample.drv b' "/p" = (b', inl Sample.abc)
    /\ (forall k, k <> s3Path Sample.drv "/p" ->
                  lookup k (objects b')
                  = lookup k (objects (Sample.store [("p"%string, Sample.object [])] []))).
Proof.
  apply (PutContent_then_GetContent Sample.drv
           (Sample.store [("p"%string, Sample.object [])] []) "/p" Sample.abc).
  reflexivity.
Defined.

(** X5.  A missing object.  When the store serves every request and holds no
    object at the key of the path, [GetContent], [ReadStream] at any offset
    and [Move] from the path all answer that the path is not found, and
    leave the store as it is. *)
Theorem missing_object_not_found (d : driver) (b : Bucket) (path : string) :
  healthy b ->
  lookup (s3Path d path) (objects b) = None ->
  GetContent d b path = (b, inr (PathNotFoundError path))
  /\ (forall offset, ReadStream d b path offset = (b, inr (PathNotFoundError path)))
  /\ (forall fuel destPath,
        Move fuel d b path destPath = Some (b, Some (PathNotFoundError path))).
Proof.
  intros Hb L. repeat split.
  - rewrite GetContent_healthy by exact Hb. now rewrite L.
  - intros offset. unfold ReadStream, GetResponseWithHeaders.
    rewrite (request_healthy b _ Hb), L. reflexivity.
  - intros fuel destPath. unfold Move, PutCopy.
    rewrite (request_healthy b _ Hb), L. reflexivity.
Qed.

Lemma missing_object_not_found_witness :
  GetContent Sample.drv (Sample.store [("p"%string, Sample.object [])] []) "/q"
  = (Sample.store [("p"%string, Sample.object [])] [], inr (PathNotFoundError "/q"))
  /\ (forall offset,
        ReadStream Sample.drv (Sample.store [("p"%string, Sample.object [])] []) "/q"
          offset
        = (Sample.store [("p"%string, Sample.object [])] [],
           inr (PathNotFoundError "/q")))
  /\ (forall fuel destPath,
        Move fuel Sample.drv (Sample.store [("p"%string, Sample.object [])] []) "/q"
          destPath
        = Some (Sample.store [("p"%string, Sample.object [])] [],
                Some (PathNotFoundError "/q"))).
Proof.
  apply (missing_object_not_found Sample.drv
           (Sample.store [("p"%string, Sample.object [])] []) "/q"); reflexivity.
Defined.

End ObjectFacts.

(** ** Delete and Move on a store that serves every request *)
Module MoveFacts.

Import Strings KeyOrder S3 Driver StoreFacts ListingFacts StatFacts DeleteFacts PutFacts.

(** [Delete] on a store that serves every request and holds a key that
    starts with the key of the path. *)
Lemma Delete_healthy (d : driver) (b : Bucket) (path : string) (fuel : nat) :
  healthy b -> wf_store (objects b) ->
  (exists k, In k (map fst (objects b)) /\ String.prefix (s3Path d path) k = true) ->
  (length (objects b) < fuel)%nat ->
  Delete fuel d b path
  = Some (set_objects b (filter (outside (s3Path d path)) (objects b)), None).
Proof.
  intros Hb W [k [Hk Hp]] Hfuel. unfold Delete.
  rewrite (list_page b _ Hb W), page_contents.
  destruct (filter_under_some _ _ _ Hk Hp) as [k' [o' [rest [E _]]]].
  replace (len (map key_of (firstn (Z.to_nat listMax)
                              (filter (under (s3Path d path)) (objects b)))) =? 0)
    with false.
  2:{ symmetry. apply Z.eqb_neq. unfold len. rewrite length_map, E, length_firstn.
      unfold listMax. cbn [length]. lia. }
  apply Delete_loop_healthy; trivial.
  pose proof (filter_length_le (under (s3Path d path)) (objects b)). lia.
Qed.

Lemma lookup_outside (p k : string) (s : list (string * Object)) :
  lookup k (filter (outside p) s)
  = if String.prefix p k then None else lookup k s.
Proof.
  change (filter (outside p) s)
    with (filter (fun ko => (fun x => negb (String.prefix p x)) (fst ko)) s).
  rewrite lookup_filter_key. now destruct (String.prefix p k).
Qed.

Lemma outside_keys (p k : string) (s : list (string * Object)) :
  In k (map fst (filter (outside p) s)) -> String.prefix p k = false.
Proof.
  intros H. apply in_map_iff in H. destruct H as [[k' o'] [<- H]].
  apply filter_In in H. destruct H as [_ H]. unfold outside in H. cbn [fst] in *.
  now destruct (String.prefix p k').
Qed.

Lemma put_length (k : string) (o : Object) (s : list (string * Object)) :
  (length (put k o s) <= S (length s))%nat.
Proof.
  induction s as [| [k' o'] s IH]; cbn [put length]; [lia |].
  destruct (ltb k k'); cbn [length]; [lia |].
  destruct (String.eqb k' k); cbn [length]; lia.
Qed.

(** [Stat] when no key starts with the key of the path. *)
Lemma Stat_none (time_Parse : string -> option Z) (d : driver) (b : Bucket)
    (path : string) :
  healthy b -> wf_store (objects b) ->
  (forall k, In k (map fst (objects b)) -> String.prefix (s3Path d path) k = false) ->
  Stat time_Parse d b path = (b, inr (PathNotFoundError path)).
Proof.
  intros Hb W Hn. unfold Stat. rewrite (list_one b _ Hb W).
  cbn [Contents CommonPrefixes]. now rewrite (filter_under_none _ _ Hn).
Qed.

Lemma Delete_none (d : driver) (b : Bucket) (path : string) (fuel : nat) :
  healthy b -> wf_store (objects b) ->
  (forall k, In k (map fst (objects b)) -> String.prefix (s3Path d path) k = false) ->
  Delete fuel d b path = Some (b, Some (PathNotFoundError path)).
Proof.
  intros Hb W Hn. unfold Delete. rewrite (list_page b _ Hb W).
  rewrite page_contents, (filter_under_none _ _ Hn). reflexivity.
Qed.

(** X9.  Delete, then look again.  After [Delete] has removed what lay under a
    path, [Stat] and [GetContent] of the path and a second [Delete] all
    answer that the path is not found, and every object whose key does not
    start with the key of the path is still there. *)
Theorem Delete_then_not_found (time_Parse : string -> option Z) (d : driver)
    (b : Bucket) (path : string) (fuel : nat) :
  healthy b -> wf_store (objects b) ->
  (exists k, In k (map fst (objects b)) /\ String.prefix (s3Path d path) k = true) ->
  (length (objects b) < fuel)%nat ->
  exists b',
    Delete fuel d b path = Some (b', None)
    /\ Stat time_Parse d b' path = (b', inr (PathNotFoundError path))
    /\ GetContent d b' path = (b', inr (PathNotFoundError path))
    /\ (forall fuel', Delete fuel' d b' path = Some (b', Some (PathNotFoundError path)))
    /\ (forall k, String.prefix (s3Path d path) k = false ->
                  lookup k (objects b') = lookup k (objects b)).
Proof.
  intros Hb W Hk Hf. eexists. split; [now apply Delete_healthy |].
  set (b' := set_objects b _).
  assert (Hb' : healthy b') by exact Hb.
  assert (W' : wf_store (objects b')) by (apply wf_filter; exact W).
  assert (N : forall k, In k (map fst (objects b')) ->
                        String.prefix (s3Path d path) k = false).
  { intros k. apply outside_keys. }
  split; [now apply Stat_none |]. split.
  - rewrite ObjectFacts.GetContent_healthy by exact Hb'.
    unfold b'. cbn [objects set_objects].
    now rewrite lookup_outside, KeyOrder.prefix_refl.
  - split; [intros fuel'; now apply Delete_none |].
    intros k Hp. unfold b'. cbn [objects set_objects].
    now rewrite lookup_outside, Hp.
Qed.

Lemma Delete_then_not_found_witness :
  exists b',
    Delete 5 Sample.drv Sample.tree "/a/c" = Some (b', None)
    /\ Stat Sample.instant Sample.drv b' "/a/c" = (b', inr (PathNotFoundError "/a/c"))
    /\ GetContent Sample.drv b' "/a/c" = (b', inr (PathNotFoundError "/a/c"))
    /\ (forall fuel',
          Delete fuel' Sample.drv b' "/a/c"
          = Some (b', Some (PathNotFoundError "/a/c")))
    /\ (forall k, String.prefix (s3Path Sample.drv "/a/c") k = false ->
                  lookup k (objects b') = lookup k (objects Sample.tree)).
Proof.
  apply (Delete_then_not_found Sample.instant Sample.drv Sample.tree "/a/c" 5).
  - reflexivity.
  - split; cbn; repeat constructor; discriminate.
  - exists "a/c/d"%string. split; [cbn; tauto | reflexivity].
  - cbn. lia.
Defined.

(** [Move] on a store that serves every request: the copy, then the
    removal of every key that starts with the key of the source. *)
Lemma Move_healthy (d : driver) (b : Bucket) (sourcePath destPath : string)
    (o : Object) (fuel : nat) :
  healthy b -> wf_store (objects b) ->
  lookup (s3Path d sourcePath) (objects b) = Some o ->
  s3Path d destPath <> EmptyString ->
  (S (length (objects b)) < fuel)%nat ->
  Move fuel d b sourcePath destPath
  = Some (set_objects b
            (filter (outside (s3Path d sourcePath))
               (put (s3Path d destPath)
                  {| Data := Data o; LastModified := clock b |} (objects b))),
          None).
Proof.
  intros Hb W L N Hf. unfold Move, PutCopy.
  rewrite (request_healthy b _ Hb), L.
  set (b1 := set_objects b _).
  assert (Hb1 : healthy b1) by exact Hb.
  assert (W1 : wf_store (objects b1)) by (apply wf_put; trivial).
  rewrite (Delete_healthy d b1 sourcePath fuel Hb1 W1); [reflexivity | |].
  - exists (s3Path d sourcePath). split; [| apply prefix_refl].
    unfold b1. cbn [objects set_objects]. apply put_keys.
    destruct (String.eqb_spec (s3Path d sourcePath) (s3Path d destPath)) as [E | E];
      [now left | right].
    apply lookup_In in L. apply in_map_iff. now exists (s3Path d sourcePath, o).
  - unfold b1. cbn [objects set_objects].
    pose proof (put_length (s3Path d destPath)
                  {| Data := Data o; LastModified := clock b |} (objects b)). lia.
Qed.

(** X6.  Move.  On a store that serves every request, when the object at the
    source exists and the key of the destination does not start with the
    key of the source: [Move] succeeds, the destination then holds the
    bytes of the source, the source and every other key that starts with
    the key of the source are gone, and all other objects are as before. *)
Theorem Move_moves (d : driver) (b : Bucket) (sourcePath destPath : string)
    (o : Object) (fuel : nat) :
  healthy b -> wf_store (objects b) ->
  lookup (s3Path d sourcePath) (objects b) = Some o ->
  s3Path d destPath <> EmptyString ->
  String.prefix (s3Path d sourcePath) (s3Path d destPath) = false ->
  (S (length (objects b)) < fuel)%nat ->
  exists b',
    Move fuel d b sourcePath destPath = Some (b', None)
    /\ GetContent d b' destPath = (b', inl (Data o))
    /\ GetContent d b' sourcePath = (b', inr (PathNotFoundError sourcePath))
    /\ (forall k, String.prefix (s3Path d sourcePath) k = true ->
                  lookup k (objects b') = None)
    /\ (forall k, String.prefix (s3Path d sourcePath) k = false ->
                  k <> s3Path d destPath ->
                  lookup k (objects b') = lookup k (objects b)).
Proof.
  intros Hb W L N P Hf. eexists. split; [now apply (Move_healthy d b _ _ o) |].
  set (b' := set_objects b _).
  assert (Hb' : healthy b') by exact Hb.
  rewrite !ObjectFacts.GetContent_healthy by exact Hb'.
  unfold b'. cbn [objects set_objects]. repeat split.
  - now rewrite lookup_outside, P, lookup_put_same.
  - now rewrite lookup_outside, prefix_refl.
  - intros k Hk. now rewrite lookup_outside, Hk.
  - intros k Hk Hd. rewrite lookup_outside, Hk. now apply lookup_put_other.
Qed.

Lemma Move_moves_witness :
  exists b',
    Move 4 Sample.drv
      (Sample.store [("a"%string, Sample.object Sample.abc);
                     ("c"%string, Sample.object [])] []) "/a" "/b"
    = Some (b', None)
    /\ GetContent Sample.drv b' "/b" = (b', inl (Data (Sample.object Sample.abc)))
    /\ GetContent Sample.drv b' "/a" = (b', inr (PathNotFoundError "/a"))
    /\ (forall k, String.prefix (s3Path Sample.drv "/a") k = true ->
                  lookup k (objects b') = None)
    /\ (forall k, String.prefix (s3Path Sample.drv "/a") k = false ->
                  k <> s3Path Sample.drv "/b" ->
                  lookup k (objects b')
                  = lookup k (objects
                                (Sample.store [("a"%string, Sample.object Sample.abc);
                                               ("c"%string, Sample.object [])] []))).
Proof.
  apply (Move_moves Sample.drv
           (Sample.store [("a"%string, Sample.object Sample.abc);
                          ("c"%string, Sample.object [])] []) "/a" "/b"
           (Sample.object Sample.abc) 4).
  - reflexivity.
  - split; cbn; repeat constructor; discriminate.
  - reflexivity.
  - discriminate.
  - reflexivity.
  - cbn. lia.
Defined.

(** X7.  Move under the source.  On a store that serves every request, when
    the object at the source exists and the key of the destination starts
    with the key of the source (the same path, or [/a] moved to [/ab]):
    [Move] reports success, and afterwards neither the source nor the
    destination exists: the copy is removed together with the source. *)
Theorem Move_under_source_loses_object (d : driver) (b : Bucket)
    (sourcePath destPath : string) (o : Object) (fuel : nat) :
  healthy b -> wf_store (objects b) ->
  lookup (s3Path d sourcePath) (objects b) = Some o ->
  s3Path d destPath <> EmptyString ->
  String.prefix (s3Path d sourcePath) (s3Path d destPath) = true ->
  (S (length (objects b)) < fuel)%nat ->
  exists b',
    Move fuel d b sourcePath destPath = Some (b', None)
    /\ GetContent d b' destPath = (b', inr (PathNotFoundError destPath))
    /\ GetContent d b' sourcePath = (b', inr (PathNotFoundError sourcePath)).
Proof.
  intros Hb W L N P Hf. eexists. split; [now apply (Move_healthy d b _ _ o) |].
  set (b' := set_objects b _).
  assert (Hb' : healthy b') by exact Hb.
  rewrite !ObjectFacts.GetContent_healthy by exact Hb'.
  unfold b'. cbn [objects set_objects].
  now rewrite !lookup_outside, P, prefix_refl.
Qed.

Lemma Move_under_source_loses_object_witness :
  exists b',
    Move 3 Sample.drv (Sample.store [("a"%string, Sample.object Sample.abc)] [])
      "/a" "/a"
    = Some (b', None)
    /\ GetContent Sample.drv b' "/a" = (b', inr (PathNotFoundError "/a"))
    /\ GetContent Sample.drv b' "/a" = (b', inr (PathNotFoundError "/a")).
Proof.
  apply (Move_under_source_loses_object Sample.drv
           (Sample.store [("a"%string, Sample.object Sample.abc)] []) "/a" "/a"
           (Sample.object Sample.abc) 3).
  - reflexivity.
  - split; cbn; repeat constructor; discriminate.
  - reflexivity.
  - discriminate.
  - reflexivity.
  - cbn. lia.
Defined.

(** X25.  Move is not atomic.  When the store serves the copy and then fails
    the listing that opens the removal of the source, [Move] answers that
    the source path is not found, although the destination now holds the
    copy and the source is still there. *)
Theorem Move_interrupted (fuel : nat) (d : driver) (b : Bucket)
    (sourcePath destPath : string) (o : Object) (e : error)
    (rest : list (option error)) :
  faults b = None :: Some e :: rest ->
  lookup (s3Path d sourcePath) (objects b) = Some o ->
  exists b',
    Move fuel d b sourcePath destPath
    = Some (b', Some (PathNotFoundError sourcePath))
    /\ lookup (s3Path d destPath) (objects b')
       = Some {| Data := Data o; LastModified := clock b |}
    /\ (s3Path d destPath <> s3Path d sourcePath ->
        lookup (s3Path d sourcePath) (objects b') = Some o)
    /\ faults b' = rest.
Proof.
  intros F L. unfold Move, PutCopy, request. rewrite F.
  cbn [objects set_faults]. rewrite L.
  unfold Delete, S3.List, request. cbn [faults set_objects set_faults].
  eexists. split; [reflexivity |].
  cbn [objects faults set_objects set_faults clock].
  split; [apply lookup_put_same |]. split; [| reflexivity].
  intros N. rewrite lookup_put_other by congruence. exact L.
Qed.

Lemma Move_interrupted_witness :
  exists b',
    Move 4 Sample.drv
      (Sample.store [("a"%string, Sample.object Sample.abc)]
         [None; Some (OtherError "reset")]) "/a" "/b"
    = Some (b', Some (PathNotFoundError "/a"))
    /\ lookup (s3Path Sample.drv "/b") (objects b')
       = Some {| Data := Data (Sample.object Sample.abc);
                 LastModified :=
                   clock (Sample.store [("a"%string, Sample.object Sample.abc)]
                            [None; Some (OtherError "reset")]) |}
    /\ (s3Path Sample.drv "/b" <> s3Path Sample.drv "/a" ->
        lookup (s3Path Sample.drv "/a") (objects b')
        = Some (Sample.object Sample.abc))
    /\ faults b' = [].
Proof.
  apply (Move_interrupted 4 Sample.drv
           (Sample.store [("a"%string, Sample.object Sample.abc)]
              [None; Some (OtherError "reset")]) "/a" "/b"
           (Sample.object Sample.abc) (OtherError "reset") []); reflexivity.
Defined.

(** [Move] of [/a] to [/ab], and of [/a] to [/b] beside a key [ab]: the
    removal of the source takes every key that starts with [a]. *)
Example Move_examples :
  Move 5 Sample.drv
    (Sample.store [("a"%string, Sample.object Sample.abc)] []) "/a" "/ab"
  = Some (Sample.store [] [], None)
  /\ Move 5 Sample.drv
       (Sample.store [("a"%string, Sample.object Sample.abc);
                      ("ab"%string, Sample.object [])] []) "/a" "/b"
     = Some (Sample.store
               [("b"%string,
                 {| Data := Sample.abc; LastModified := "2015-02-02T00:00:00Z" |})] [],
             None).
Proof. split; reflexivity. Qed.

End MoveFacts.

(** ** What WriteStream leaves alone, whatever the store answers *)
Module FrameFacts.

Import S3 Driver ConsumedFacts PutFacts.

Section Frame.

Variable d : driver.
Variable path : string.

(** The objects and the sessions of the store when the call began. *)
Variable objs : list (string * Object).
Variable pre : list Upload.

(** The store during the call: its objects are those it began with, the
    earlier sessions are as they were, and the session of the call comes
    last, for the key of the path. *)
Definition framed (b : Bucket) : Prop :=
  objects b = objs
  /\ exists u, uploads b = pre ++ [u] /\ up_key u = s3Path d path.

Definition keeps (o : outcome) : Prop :=
  forall st' e, o = Some (st', e) -> framed (bucket st').

Definition keeps_block (res : option (wstate * option (Z * option error))) : Prop :=
  forall st' ret, res = Some (st', ret) -> framed (bucket st').

Lemma update_last (f : Upload -> Upload) (u : Upload) :
  update_upload (length pre) f (pre ++ [u]) = pre ++ [f u].
Proof. induction pre as [| x l IH]; cbn; [reflexivity | now rewrite IH]. Qed.

Lemma request_framed {A : Type} (b b' : Bucket)
    (serve : Bucket -> Bucket * (A + error)) (r : A + error) :
  (forall b1 b2 r2, framed b1 -> serve b1 = (b2, r2) -> framed b2) ->
  framed b -> request b serve = (b', r) -> framed b'.
Proof.
  intros S F. unfold request.
  destruct (faults b) as [| [e |] rest].
  - now apply S.
  - intros [= <- _]. exact F.
  - apply S. exact F.
Qed.

Lemma store_part_framed (b b' : Bucket) (n : Z) (x : list byte) (r : Part + error) :
  framed b -> store_part b (length pre) n x = (b', r) -> framed b'.
Proof.
  intros F. unfold store_part. destruct (pending b (length pre)) as [u0 |].
  - intros [= <- _]. destruct F as (O & u & U & K). split; [exact O |].
    cbn [uploads set_uploads]. rewrite U, update_last. eexists. split; [reflexivity |].
    exact K.
  - now intros [= <- _].
Qed.

Lemma PutPart_framed (b b' : Bucket) (n : Z) (x : list byte) (r : Part + error) :
  framed b -> PutPart b (length pre) n x = (b', r) -> framed b'.
Proof.
  intros F. unfold PutPart. apply request_framed; trivial.
  intros b1 b2 r2 F1. now apply store_part_framed.
Qed.

Lemma PutPartCopy_framed (b b' : Bucket) (n : Z) (range : option (Z * Z))
    (source : string) (r : Part + error) :
  framed b -> PutPartCopy b (length pre) n range source = (b', r) -> framed b'.
Proof.
  intros F. unfold PutPartCopy. apply request_framed; trivial.
  intros b1 b2 r2 F1. destruct (lookup source (objects b1));
    [| now intros [= <- _]].
  destruct range as [[first last] |]; [| now apply store_part_framed].
  destruct (_ && _); [now apply store_part_framed | now intros [= <- _]].
Qed.

Lemma Head_framed (b b' : Bucket) (key : string) (r : Z + error) :
  framed b -> Head b key = (b', r) -> framed b'.
Proof.
  intros F. unfold Head. apply request_framed; trivial.
  intros b1 b2 r2 F1. destruct (lookup key (objects b1)); now intros [= <- _].
Qed.

Lemma ReadStream_framed (b b' : Bucket) (p : string) (offset : Z)
    (r : Reader + error) :
  framed b -> ReadStream d b p offset = (b', r) -> framed b'.
Proof.
  intros F. unfold ReadStream.
  destruct (GetResponseWithHeaders b (s3Path d p) offset) as [b1 r1] eqn:E.
  assert (F1 : framed b1).
  { revert E. unfold GetResponseWithHeaders. apply request_framed; trivial.
    intros b2 b3 r3 F2. destruct (lookup _ (objects b2)); [| now intros [= <- _]].
    destruct (_ <=? _); now intros [= <- _]. }
  destruct r1 as [body | err]; [now intros [= <- _] |].
  destruct (isS3Code err "InvalidRange"); now intros [= <- _].
Qed.

(** The loops that fill the buffer make no request. *)
Lemma fromSmallCurrent_loop_bucket :
  forall (fuel : nat) (total : Z) (current : Reader) (st st' : wstate)
         (e : option error),
    fromSmallCurrent_loop fuel total current st = Some (st', e) ->
    bucket st' = bucket st.
Proof.
  induction fuel as [| fuel IH]; intros total current st st' e; [discriminate |].
  cbn [fromSmallCurrent_loop].
  destruct (bytesRead st <? total); [| now intros [= <- _]].
  destruct (Read current _) as [[data err] r'].
  destruct err as [e0 |].
  - destruct (is_EOF e0); now intros [= <- _].
  - intros H. now rewrite (IH _ _ _ _ _ H).
Qed.

Lemma fromReader_loop_bucket :
  forall (fuel : nat) (from : Z) (st st' : wstate) (e : option error),
    fromReader_loop d fuel from st = Some (st', e) ->
    bucket st' = bucket st.
Proof.
  induction fuel as [| fuel IH]; intros from st st' e; [discriminate |].
  cbn [fromReader_loop].
  destruct (from + bytesRead st <? ChunkSize d); [| now intros [= <- _]].
  destruct (Read (reader st) _) as [[data err] r'].
  destruct err as [e0 |].
  - destruct (is_EOF e0); now intros [= <- _].
  - intros H. now rewrite (IH _ _ _ _ H).
Qed.

Lemma fromZeroFillSmall_loop_bucket :
  forall (fuel : nat) (from to : Z) (st st' : wstate) (e : option error),
    fromZeroFillSmall_loop d fuel from to st = Some (st', e) ->
    bucket st' = bucket st.
Proof.
  induction fuel as [| fuel IH]; intros from to st st' e; [discriminate |].
  cbn [fromZeroFillSmall_loop].
  destruct (from + bytesRead st <? to); [| now intros [= <- _]].
  destruct (Read (NewReader (zeros d)) _) as [[data err] r'].
  destruct err as [e0 |].
  - now intros [= <- _].
  - intros H. now rewrite (IH _ _ _ _ _ H).
Qed.

Lemma fromSmallCurrent_framed (fuel : nat) (total : Z) (st : wstate) :
  framed (bucket st) -> keeps (fromSmallCurrent d path fuel total st).
Proof.
  intros F st' e. unfold fromSmallCurrent.
  destruct (ReadStream d (bucket st) path 0) as [b' [current | err]] eqn:E;
    apply ReadStream_framed in E; trivial.
  - intros H. now rewrite (fromSmallCurrent_loop_bucket _ _ _ _ _ _ H).
  - now intros [= <- _].
Qed.

Lemma upload_framed (from : Z) (st : wstate) :
  framed (bucket st) -> framed (bucket (upload (length pre) from st)).
Proof.
  intros F. unfold upload. destruct (0 <? bytesRead st); [| exact F].
  destruct (PutPart _ _ _ _) as [b' [part | err]] eqn:E;
    apply PutPart_framed in E; trivial.
Qed.

Lemma fromReader_framed (fuel : nat) (from : Z) (st : wstate) :
  framed (bucket st) -> keeps (fromReader d (length pre) fuel from st).
Proof.
  intros F st' e. unfold fromReader.
  destruct (fromReader_loop d fuel from (set_bytesRead st 0))
    as [[st1 [err |]] |] eqn:E; try discriminate;
    apply fromReader_loop_bucket in E; st_simpl.
  - intros [= <- _]. now rewrite E.
  - assert (F1 : framed (bucket st1)) by now rewrite E.
    destruct (putErrChan st1) as [[putErr |] |]; intros [= <- _]; st_simpl;
      trivial; now apply upload_framed.
Qed.

Lemma fromZeroFillSmall_framed (fuel : nat) (from to : Z) (st : wstate) :
  framed (bucket st) -> keeps (fromZeroFillSmall d fuel from to st).
Proof.
  intros F st' e H. unfold fromZeroFillSmall in H.
  apply fromZeroFillSmall_loop_bucket in H. now rewrite H.
Qed.

Lemma fromZeroFillLarge_loop_framed :
  forall (fuel : nat) (from to n : Z) (st : wstate),
    framed (bucket st) ->
    keeps (fromZeroFillLarge_loop d (length pre) fuel from to n st).
Proof.
  induction fuel as [| fuel IH]; intros from to n st F st' e; [discriminate |].
  cbn [fromZeroFillLarge_loop].
  destruct (ChunkSize d <=? to - (from + n)); [| now intros [= <- _]].
  destruct (PutPart _ _ _ _) as [b' [part | err]] eqn:E;
    apply PutPart_framed in E; trivial.
  - now apply IH.
  - now intros [= <- _].
Qed.

Lemma fromZeroFillLarge_framed (fuel : nat) (from to : Z) (st : wstate) :
  framed (bucket st) -> keeps (fromZeroFillLarge d (length pre) fuel from to st).
Proof.
  intros F st' e. unfold fromZeroFillLarge.
  destruct (fromZeroFillLarge_loop d (length pre) fuel from to 0 st)
    as [[st1 [err |]] |] eqn:E; try discriminate;
    apply fromZeroFillLarge_loop_framed in E; trivial.
  - now intros [= <- _].
  - now apply fromZeroFillSmall_framed.
Qed.

Lemma putPartNow_framed (data : list byte) (st : wstate) :
  framed (bucket st) -> keeps (putPartNow (length pre) data st).
Proof.
  intros F st' e. unfold putPartNow.
  destruct (PutPart _ _ _ _) as [b' [part | err]] eqn:E;
    apply PutPart_framed in E; trivial; now intros [= <- _].
Qed.

Lemma stream_framed :
  forall (fuel : nat) (st st' : wstate) (ret : Z * option error),
    framed (bucket st) ->
    stream d (length pre) fuel st = Some (st', ret) -> framed (bucket st').
Proof.
  induction fuel as [| fuel IH]; intros st st' ret F; [discriminate |].
  cbn [stream].
  destruct (fromReader d (length pre) (S fuel) 0 st) as [[st1 [err |]] |] eqn:E;
    try discriminate; apply fromReader_framed in E; trivial.
  - now intros [= <- _].
  - destruct (bytesRead st1 <? ChunkSize d); [now intros [= <- _] |].
    now apply IH.
Qed.

(** A step of the block, followed by the rest of it. *)
Lemma keeps_try (o : outcome)
    (k : wstate -> option (wstate * option (Z * option error))) :
  keeps o ->
  (forall st1, framed (bucket st1) -> keeps_block (k st1)) ->
  keeps_block
    (match o with
     | None => None
     | Some (st', Some err) => Some (st', Some (totalRead st', Some err))
     | Some (st', None) => k st'
     end).
Proof.
  intros K1 K2 st' ret. destruct o as [[st1 [err |]] |]; try discriminate.
  - intros [= <- _]. exact (K1 _ _ eq_refl).
  - apply K2. exact (K1 _ _ eq_refl).
Qed.

Lemma keeps_tail (fuel : nat) (from : Z) (st : wstate) :
  framed (bucket st) ->
  keeps_block
    (match fromReader d (length pre) fuel from st with
     | None => None
     | Some (st', Some err) => Some (st', Some (totalRead st', Some err))
     | Some (st', None) =>
         if totalRead st' + from <? ChunkSize d
         then Some (st', Some (totalRead st', None))
         else Some (st', None)
     end).
Proof.
  intros F. apply keeps_try; [now apply fromReader_framed |].
  intros st1 F1 st' ret.
  destruct (totalRead st1 + from <? ChunkSize d); now intros [= <- _].
Qed.

Lemma resume_at_framed (fuel : nat) (offset currentLength : Z) (st : wstate) :
  framed (bucket st) ->
  keeps_block (resume_at d path (length pre) fuel offset currentLength st).
Proof.
  intros F. unfold resume_at.
  destruct (offset <=? currentLength).
  - destruct (offset <? ChunkSize d).
    + apply keeps_try; [now apply fromSmallCurrent_framed |].
      intros st1 F1. now apply keeps_tail.
    + intros st' ret.
      destruct (PutPartCopy _ _ _ _ _) as [b' [part | err]] eqn:E;
        apply PutPartCopy_framed in E; trivial; now intros [= <- _].
  - destruct (currentLength <? ChunkSize d).
    + destruct (offset <? ChunkSize d).
      * apply keeps_try; [now apply fromSmallCurrent_framed |].
        intros st1 F1. apply keeps_try; [now apply fromZeroFillSmall_framed |].
        intros st2 F2. now apply keeps_tail.
      * apply keeps_try; [now apply fromSmallCurrent_framed |].
        intros st1 F1. apply keeps_try; [now apply fromZeroFillSmall_framed |].
        intros st2 F2. apply keeps_try; [now apply putPartNow_framed |].
        intros st3 F3. apply keeps_try; [now apply fromZeroFillLarge_framed |].
        intros st4 F4. now apply keeps_tail.
    + destruct (PutPartCopy _ _ _ _ _) as [b' [part | err]] eqn:E;
        apply PutPartCopy_framed in E; trivial.
      * cbv zeta. apply keeps_try; [now apply fromZeroFillLarge_framed |].
        intros st2 F2. now apply keeps_tail.
      * intros st' ret. now intros [= <- _].
Qed.

Lemma body_framed (fuel : nat) (offset : Z) (st st' : wstate)
    (ret : Z * option error) :
  framed (bucket st) ->
  body d path (length pre) fuel offset st = Some (st', ret) ->
  framed (bucket st').
Proof.
  intros F. unfold body. destruct (0 <? offset); [| now apply stream_framed].
  unfold resume.
  destruct (Head (bucket st) (s3Path d path)) as [b' [n | err]] eqn:E;
    apply Head_framed in E; trivial.
  - destruct (resume_at d path (length pre) fuel offset n (set_bucket st b'))
      as [[st1 [ret1 |]] |] eqn:R; try discriminate;
      apply resume_at_framed in R; trivial.
    + now intros [= <- _].
    + now apply stream_framed.
  - destruct (negb (isS3Code err "NoSuchKey")); [now intros [= <- _] |].
    destruct (resume_at d path (length pre) fuel offset 0 (set_bucket st b'))
      as [[st1 [ret1 |]] |] eqn:R; try discriminate;
      apply resume_at_framed in R; trivial.
    + now intros [= <- _].
    + now apply stream_framed.
Qed.

(** The store once the session is resolved: it holds the objects it began
    with, but for the object of the path when the session was completed. *)
Definition resolved (b : Bucket) : Prop :=
  (objects b = objs \/ exists o, objects b = put (s3Path d path) o objs)
  /\ exists u, uploads b = pre ++ [u] /\ up_key u = s3Path d path.

Lemma framed_resolved (b : Bucket) : framed b -> resolved b.
Proof. intros (O & U). split; [now left | exact U]. Qed.

Lemma pending_last (b : Bucket) (u u0 : Upload) :
  uploads b = pre ++ [u] -> pending b (length pre) = Some u0 -> u0 = u.
Proof.
  intros U. unfold pending. rewrite U, nth_error_app2, Nat.sub_diag by lia. cbn.
  destruct (up_state u); now intros [= <-].
Qed.

(** The completion call writes the object of the session's key, or
    nothing when it fails. *)
Lemma Complete_framed (b b' : Bucket) (ps : list Part) (r : unit + error) :
  framed b -> Complete b (length pre) ps = (b', r) ->
  resolved b' /\ (forall e, r = inr e -> framed b').
Proof.
  intros F. unfold Complete.
  assert (S : forall b1 b2 r2,
             framed b1 ->
             match pending b1 (length pre) with
             | None => (b1, inr (S3Error "NoSuchUpload"))
             | Some u0 =>
                 match ps with
                 | [] => (b1, inr (S3Error "MalformedXML"))
                 | _ :: _ =>
                     if negb (ascending (map PartN ps))
                     then (b1, inr (S3Error "InvalidPartOrder"))
                     else
                       match gather (up_parts u0) ps with
                       | None => (b1, inr (S3Error "InvalidPart"))
                       | Some ds =>
                           if negb (sizes_ok (min_part b1) ds)
                           then (b1, inr (S3Error "EntityTooSmall"))
                           else
                             (set_uploads
                                (set_objects b1
                                   (put (up_key u0)
                                      {| Data := List.concat ds;
                                         LastModified := clock b1 |}
                                      (objects b1)))
                                (update_upload (length pre)
                                   (fun u => {| up_key := up_key u;
                                                up_parts := up_parts u;
                                                up_state := Completed |})
                                   (uploads b1)),
                              @inl unit error tt)
                       end
                 end
             end = (b2, r2) ->
             resolved b2 /\ (forall e, r2 = inr e -> framed b2)).
  { intros b1 b2 r2 F1.
    destruct (pending b1 (length pre)) as [u0 |] eqn:P;
      [| intros [= <- _]; split; [now apply framed_resolved | trivial]].
    destruct ps as [| p ps'];
      [intros [= <- _]; split; [now apply framed_resolved | trivial] |].
    destruct (negb (ascending _));
      [intros [= <- _]; split; [now apply framed_resolved | trivial] |].
    destruct (gather _ _) as [ds |];
      [| intros [= <- _]; split; [now apply framed_resolved | trivial]].
    destruct (negb (sizes_ok _ _));
      [intros [= <- _]; split; [now apply framed_resolved | trivial] |].
    intros [= <- <-]. split; [| discriminate].
    destruct F1 as (O1 & u & U1 & K).
    rewrite (pending_last _ _ _ U1 P).
    unfold resolved. cbn [objects uploads set_uploads set_objects]. split.
    - right. rewrite K, O1. now eexists.
    - rewrite U1, update_last. eexists. split; [reflexivity | exact K]. }
  unfold request. destruct (faults b) as [| [e |] rest].
  - now apply S.
  - intros [= <- _]. split; [now apply framed_resolved | trivial].
  - now apply S.
Qed.

Lemma Abort_framed (b b' : Bucket) (r : unit + error) :
  framed b -> Abort b (length pre) = (b', r) -> framed b'.
Proof.
  intros F. unfold Abort. apply request_framed; trivial.
  intros b1 b2 r2 F1. destruct (pending b1 (length pre)) as [u0 |];
    intros [= <- _]; trivial.
  destruct F1 as (O & u & U & K). split; [exact O |].
  cbn [uploads set_uploads]. rewrite U, update_last.
  eexists. split; [reflexivity | exact K].
Qed.

Lemma deferred_framed (late : bool) (st : wstate) (ret : Z * option error) :
  framed (bucket st) ->
  resolved (fst (fst (fst (deferred (length pre) late st ret)))).
Proof.
  intros F. unfold deferred.
  set (q := match putErrChan st with
            | Some (Some putErr) => (set_released st true, Some putErr)
            | _ => (st, snd ret)
            end).
  assert (Q : bucket (fst q) = bucket st)
    by (unfold q; now destruct (putErrChan st) as [[e |] |]).
  destruct q as [st1 err]. cbn [fst] in *. rewrite <- Q in F.
  destruct (0 <? len _); [| now apply framed_resolved].
  destruct (Complete _ _ _) as [b1 [[] | e]] eqn:C;
    apply Complete_framed in C; trivial; destruct C as [C1 C2]; trivial.
  destruct (Abort b1 (length pre)) as [b2 r2] eqn:A. cbn [fst].
  apply Abort_framed in A; [now apply framed_resolved | now apply (C2 e)].
Qed.

End Frame.

Lemma InitMulti_cases (b b1 : Bucket) (key : string) (r : Multi + error) :
  InitMulti b key = (b1, r) ->
  match r with
  | inl multi =>
      multi = length (uploads b) /\ objects b1 = objects b
      /\ uploads b1
         = uploads b ++ [{| up_key := key; up_parts := []; up_state := Pending |}]
  | inr _ => objects b1 = objects b /\ uploads b1 = uploads b
  end.
Proof.
  unfold InitMulti, request. destruct (faults b) as [| [e |] rest];
    intros [= <- <-]; repeat split.
Qed.

(** The sessions of the store when a call has returned. *)
Lemma WriteStream_sessions (fuel : nat) (late : bool) (d : driver) (b b' : Bucket)
    (path : string) (offset : Z) (r r' : Reader) (n : Z) (err : option error) :
  WriteStream fuel late d b path offset r = Some (b', r', n, err) ->
  uploads b' = uploads b
  \/ exists u, uploads b' = uploads b ++ [u] /\ up_key u = s3Path d path.
Proof.
  unfold WriteStream.
  destruct (InitMulti b (s3Path d path)) as [b1 [multi | e]] eqn:I;
    apply InitMulti_cases in I.
  2:{ destruct I as [O U]. intros [= <- _ _ _]. now left. }
  destruct I as (-> & O & U).
  set (st0 := Build_wstate _ _ _ _ _ _ _ _ _).
  destruct (body d path (length (uploads b)) fuel offset st0) as [[st' ret] |] eqn:E;
    [| discriminate].
  assert (F0 : framed d path (objects b) (uploads b) (bucket st0)).
  { unfold st0. cbn [bucket]. split; [exact O |]. rewrite U. now eexists. }
  pose proof (body_framed d path _ _ _ _ _ _ _ F0 E) as F1.
  pose proof (deferred_framed d path _ _ late st' ret F1) as [_ R2].
  intros [= H]. rewrite H in R2. now right.
Qed.

(** X14.  Frame.  For a driver with a positive chunk size, whatever the
    store answers and whatever the source does, [WriteStream] returns,
    and when it has returned the objects of the store are those it began
    with, but possibly for the object at the key of the path: no object
    at another key is written, changed or removed.  The multipart sessions
    that existed are untouched, and at most one session, for the key of
    the path, was added. *)
Theorem WriteStream_frame (late : bool) (d : driver) (b : Bucket)
    (path : string) (offset : Z) (r : Reader) :
  0 < ChunkSize d ->
  exists fuel0, forall fuel, (fuel0 <= fuel)%nat ->
    exists b' r' n err,
      WriteStream fuel late d b path offset r = Some (b', r', n, err)
      /\ (objects b' = objects b
          \/ exists o, objects b' = put (s3Path d path) o (objects b))
      /\ (forall k, k <> s3Path d path ->
                    lookup k (objects b') = lookup k (objects b))
      /\ (uploads b' = uploads b
          \/ exists u, uploads b' = uploads b ++ [u] /\ up_key u = s3Path d path).
Proof.
  intros Hc.
  exists (S (length (rd_data r) + Z.to_nat (ChunkSize d) + Z.to_nat offset)).
  intros fuel Hf. unfold WriteStream.
  destruct (InitMulti b (s3Path d path)) as [b1 [multi | err]] eqn:I;
    apply InitMulti_cases in I.
  2:{ destruct I as [O U]. exists b1, r, 0, (Some err). split; [reflexivity |].
      rewrite O. split; [now left |]. split; [trivial | now left]. }
  destruct I as (-> & O & U).
  set (st0 := Build_wstate _ _ _ _ _ _ _ _ _).
  destruct (body_total d path (length (uploads b)) Hc fuel offset st0)
    as (st' & ret & E & _).
  { unfold buf_ok, st0, getbuf, zeros. cbn. apply repeat_length. }
  { reflexivity. }
  { unfold st0. cbn [reader]. lia. }
  rewrite E.
  assert (F0 : framed d path (objects b) (uploads b) (bucket st0)).
  { unfold st0. cbn [bucket]. split; [exact O |]. rewrite U. now eexists. }
  pose proof (body_framed d path _ _ _ _ _ _ _ F0 E) as F1.
  pose proof (deferred_framed d path _ _ late st' ret F1) as [R1 R2].
  destruct (deferred (length (uploads b)) late st' ret) as [[[b' r'] n] err].
  cbn [fst] in R1, R2. exists b', r', n, err. split; [reflexivity |].
  split; [exact R1 |]. split; [| now right].
  intros k N. destruct R1 as [-> | [o ->]]; [reflexivity |].
  now apply lookup_put_other.
Qed.

Lemma WriteStream_frame_witness :
  exists fuel0, forall fuel, (fuel0 <= fuel)%nat ->
    exists b' r' n err,
      WriteStream fuel false Sample.drv
        (Sample.store [("q"%string, Sample.object Sample.abc)]
           [None; Some (OtherError "reset")]) "/p" 0 (Sample.source Sample.abc)
      = Some (b', r', n, err)
      /\ (objects b' = [("q"%string, Sample.object Sample.abc)]
          \/ exists o,
               objects b'
               = put (s3Path Sample.drv "/p") o
                   [("q"%string, Sample.object Sample.abc)])
      /\ (forall k, k <> s3Path Sample.drv "/p" ->
                    lookup k (objects b')
                    = lookup k [("q"%string, Sample.object Sample.abc)])
      /\ (uploads b' = []
          \/ exists u, uploads b' = [] ++ [u] /\ up_key u = s3Path Sample.drv "/p").
Proof.
  apply (WriteStream_frame false Sample.drv
           (Sample.store [("q"%string, Sample.object Sample.abc)]
              [None; Some (OtherError "reset")]) "/p" 0 (Sample.source Sample.abc)).
  reflexivity.
Defined.

(** A store whose every request on a part fails: the object [q] and the
    earlier session are as they were when [WriteStream] to [/p] returns. *)
Example WriteStream_frame_example :
  option_map (fun '(b', _, _, _) => (objects b', uploads b'))
    (WriteStream 20 false Sample.drv
       {| objects := [("q"%string, Sample.object Sample.abc)];
          uploads := [{| up_key := "q"; up_parts := []; up_state := Pending |}];
          faults := [None; Some (OtherError "reset")];
          min_part := 4; clock := "2015-02-02T00:00:00Z"; body_grain := [] |}
       "/p" 0 (Sample.source (Sample.abc ++ Sample.abc)))
  = Some ([("q"%string, Sample.object Sample.abc)],
          [{| up_key := "q"; up_parts := []; up_state := Pending |};
           {| up_key := "p"; up_parts := []; up_state := Pending |}]).
Proof. vm_compute. reflexivity. Qed.

End FrameFacts.

(** ** WriteStream followed by other operations *)
Module ResumeFacts.

Import Strings S3 Driver StoreFacts PutFacts ConsumedFacts ContentFacts.

(** The deferred function in a good state with at least one part, and
    the store it leaves. *)
Lemma deferred_completes (d : driver) (path : string) (multi : Multi)
    (b0 : Bucket) (late : bool) (datas : list (list byte)) (st : wstate) (n : Z) :
  good d path multi b0 datas st -> datas <> [] ->
  sizes_ok (min_part b0) datas = true ->
  exists b',
    deferred multi late st (n, None) = (b', reader st, n, None)
    /\ objects b'
       = put (s3Path d path)
           {| Data := List.concat datas; LastModified := clock b0 |} (objects b0)
    /\ healthy b'
    /\ min_part b' = min_part b0 /\ clock b' = clock b0
    /\ body_grain b' = body_grain b0
    /\ state_of b' multi = Some Completed.
Proof.
  intros (S & P & N & C & R & B) Hne Hs. unfold deferred.
  assert (E : match putErrChan st with
              | Some (Some putErr) => (set_released st true, Some putErr)
              | _ => (st, snd (n, @None error))
              end = (st, None)).
  { destruct (putErrChan st) as [[e |] |]; trivial. now destruct (C e). }
  rewrite E. rewrite R. cbn [andb fst]. rewrite P.
  replace (0 <? len (parts_from 1 datas)) with true.
  2:{ symmetry. apply Z.ltb_lt. destruct datas; [congruence |]. unfold len. cbn. lia. }
  unfold Complete. rewrite (request_healthy _ _ (session_healthy _ _ _ _ _ _ S)).
  destruct S as (F & O & M & Cl & G & U). unfold pending. rewrite U. cbn [up_state].
  destruct (parts_from 1 datas) eqn:Q; [destruct datas; discriminate || congruence |].
  rewrite <- Q. rewrite ascending_parts. cbn [negb up_parts up_key].
  pose proof (gather_numbered 1 [] datas) as Ga. cbn in Ga. rewrite Ga.
  rewrite M, Hs. cbn [negb]. eexists. split; [reflexivity |].
  unfold healthy, state_of.
  cbn [objects faults min_part clock body_grain uploads set_uploads set_objects].
  rewrite (nth_error_update _ _ _ _ U). rewrite O, Cl. now repeat split.
Qed.

(** The number of rounds that is enough for a call. *)
Definition rounds (d : driver) (offset : Z) (r : Reader) : nat :=
  S (length (rd_data r) + 2 * Z.to_nat (ChunkSize d) + Z.to_nat offset).

(** [WriteStream] on a store that serves every request, for a source that
    yields at least one byte and then ends, with the store it leaves. *)
Lemma WriteStream_run (late : bool) (d : driver) (b : Bucket) (path : string)
    (offset : Z) (r : Reader) (fuel : nat) :
  healthy b ->
  0 < ChunkSize d ->
  min_part b <= ChunkSize d ->
  0 <= offset ->
  offset = 0 \/ lookup (s3Path d path) (objects b) <> None ->
  rd_fail r = None ->
  rd_data r <> [] ->
  (rounds d offset r <= fuel)%nat ->
  exists b' r',
    WriteStream fuel late d b path offset r
    = Some (b', r', len (rd_data r), None)
    /\ objects b'
       = put (s3Path d path)
           {| Data := written (content b (s3Path d path)) offset (rd_data r);
              LastModified := clock b |}
           (objects b)
    /\ healthy b'
    /\ min_part b' = min_part b /\ clock b' = clock b
    /\ body_grain b' = body_grain b
    /\ state_of b' (length (uploads b)) = Some Completed
    /\ rd_data r' = [].
Proof.
  intros Hh Hcs Hmin Hoff Hex Hr Hne Hf. unfold rounds in Hf.
  unfold WriteStream, InitMulti. rewrite (request_healthy _ _ Hh).
  set (b0 := set_uploads b _). set (multi := length (uploads b)).
  set (st0 := Build_wstate _ _ _ _ _ _ _ _ _).
  assert (G0 : good d path multi b0 [] st0).
  { unfold good, session, st0, b0, multi. st_simpl.
    cbn [faults objects min_part clock body_grain uploads set_uploads].
    split; [| repeat split; trivial; try discriminate;
              unfold getbuf, zeros; apply repeat_length].
    split; [exact Hh |]. do 4 (split; [reflexivity |]).
    rewrite nth_error_app2, Nat.sub_diag by lia. reflexivity. }
  destruct (body_good d path multi b0 fuel offset st0 Hcs G0 eq_refl Hoff Hex Hr Hne)
    as (st' & datas & -> & G' & Co & Sz & Ne & De); [unfold st0; st_simpl; lia |].
  change (reader st0) with r in *.
  destruct (deferred_completes d path multi b0 late datas st' (len (rd_data r)) G' Ne)
    as (b' & -> & O & H' & M' & C' & B' & S');
    [now apply (sizes_ok_weaken (ChunkSize d)) |].
  exists b', (reader st'). split; [reflexivity |].
  split; [rewrite O, Co; reflexivity |]. now repeat split.
Qed.

Lemma written_length (existing : list byte) (offset : Z) (data : list byte) :
  0 <= offset -> len (written existing offset data) = offset + len data.
Proof.
  intros H. unfold written, len.
  rewrite !length_app, length_firstn, repeat_length. lia.
Qed.


Lemma Stat_file (time_Parse : string -> option Z) (d : driver) (b : Bucket)
    (path : string) (o : Object) (t : Z) :
  healthy b -> wf_store (objects b) ->
  lookup (s3Path d path) (objects b) = Some o ->
  time_Parse (LastModified o) = Some t ->
  Stat time_Parse d b path
  = (b, inl {| Path := path; FileSize := len (Data o); ModTime := t;
               IsDir := false |}).
Proof.
  intros Hb W Ho Ht. unfold Stat. rewrite (StatFacts.list_one b _ Hb W).
  cbn [Contents CommonPrefixes].
  destruct (ListingFacts.filter_under_exact _ _ _ W Ho) as [rest ->]. cbn.
  now rewrite String.eqb_refl, Ht.
Qed.



(** X16.  Write, then stat.  On a store that serves every request, keeps
    its keys in order, accepts parts of the chunk size and stamps objects
    with a time that parses, for a driver with a positive chunk size, a
    path whose key is not empty, an offset >= 0, an object at the path
    unless the offset is 0, and a source that yields at least one byte
    and then ends: [WriteStream] at [offset] succeeds, and [Stat] then
    reports a file whose size is [offset] plus the count the call
    returned, stamped with the time of the write: the size at which a
    further write resumes. *)
Theorem WriteStream_then_Stat (time_Parse : string -> option Z) (late : bool)
    (d : driver) (b : Bucket) (path : string) (offset : Z) (r : Reader)
    (fuel : nat) (t : Z) :
  healthy b ->
  wf_store (objects b) ->
  s3Path d path <> EmptyString ->
  time_Parse (clock b) = Some t ->
  0 < ChunkSize d ->
  min_part b <= ChunkSize d ->
  0 <= offset ->
  offset = 0 \/ lookup (s3Path d path) (objects b) <> None ->
  rd_fail r = None ->
  rd_data r <> [] ->
  (rounds d offset r <= fuel)%nat ->
  exists b' r' n,
    WriteStream fuel late d b path offset r = Some (b', r', n, None)
    /\ Stat time_Parse d b' path
       = (b', inl {| Path := path; FileSize := offset + n; ModTime := t;
                     IsDir := false |}).
Proof.
  intros Hh W Nk Ht Hcs Hmin Hoff Hex Hr Hne Hf.
  destruct (WriteStream_run late d b path offset r fuel)
    as (b' & r' & E & O & H' & _); trivial.
  exists b', r', (len (rd_data r)). split; [exact E |].
  rewrite <- (written_length (content b (s3Path d path)) offset (rd_data r) Hoff).
  apply (Stat_file time_Parse d b' path
           {| Data := written (content b (s3Path d path)) offset (rd_data r);
              LastModified := clock b |}); trivial.
  - rewrite O. now apply wf_put.
  - rewrite O. apply lookup_put_same.
Qed.

Lemma WriteStream_then_Stat_witness :
  exists b' r' n,
    WriteStream 20 false Sample.drv
      (Sample.store [("p"%string, Sample.object Sample.abc)] []) "/p" 6
      (Sample.source Sample.abc)
    = Some (b', r', n, None)
    /\ Stat Sample.instant Sample.drv b' "/p"
       = (b', inl {| Path := "/p"; FileSize := 6 + n; ModTime := 20;
                     IsDir := false |}).
Proof.
  apply (WriteStream_then_Stat Sample.instant false Sample.drv
           (Sample.store [("p"%string, Sample.object Sample.abc)] []) "/p" 6
           (Sample.source Sample.abc) 20 20).
  - reflexivity.
  - split; cbn; repeat constructor; discriminate.
  - discriminate.
  - reflexivity.
  - reflexivity.
  - cbn. lia.
  - lia.
  - right. vm_compute. discriminate.
  - reflexivity.
  - vm_compute. discriminate.
  - vm_compute. lia.
Defined.

(** X17.  Resumed upload.  On a store that serves every request and accepts
    parts of the chunk size, for a driver with a positive chunk size and
    two sources that each yield at least one byte and then end: a first
    [WriteStream] at offset 0 and a second one at the offset the first one
    returned both succeed, and leave an object that holds the bytes of
    the first source followed by the bytes of the second. *)
Theorem WriteStream_resumed (late1 late2 : bool) (d : driver) (b : Bucket)
    (path : string) (r1 r2 : Reader) (fuel1 fuel2 : nat) :
  healthy b ->
  0 < ChunkSize d ->
  min_part b <= ChunkSize d ->
  rd_fail r1 = None -> rd_data r1 <> [] ->
  rd_fail r2 = None -> rd_data r2 <> [] ->
  (rounds d 0 r1 <= fuel1)%nat ->
  (rounds d (len (rd_data r1)) r2 <= fuel2)%nat ->
  exists b1 r1' n1 b2 r2' n2,
    WriteStream fuel1 late1 d b path 0 r1 = Some (b1, r1', n1, None)
    /\ WriteStream fuel2 late2 d b1 path n1 r2 = Some (b2, r2', n2, None)
    /\ GetContent d b2 path = (b2, inl (rd_data r1 ++ rd_data r2)).
Proof.
  intros Hh Hcs Hmin Hr1 Hn1 Hr2 Hn2 Hf1 Hf2.
  destruct (WriteStream_run late1 d b path 0 r1 fuel1)
    as (b1 & r1' & E1 & O1 & H1 & M1 & _); trivial; try lia.
  assert (L1 : lookup (s3Path d path) (objects b1)
               = Some {| Data := rd_data r1; LastModified := clock b |}).
  { rewrite O1, lookup_put_same. reflexivity. }
  destruct (WriteStream_run late2 d b1 path (len (rd_data r1)) r2 fuel2)
    as (b2 & r2' & E2 & O2 & H2 & _); trivial; try lia.
  { unfold len. lia. }
  { right. rewrite L1. discriminate. }
  exists b1, r1', (len (rd_data r1)), b2, r2', (len (rd_data r2)).
  split; [exact E1 |]. split; [exact E2 |].
  rewrite ObjectFacts.GetContent_healthy by exact H2.
  rewrite O2, lookup_put_same. cbn [Data]. f_equal. f_equal.
  unfold content. rewrite L1. cbn [Data].
  rewrite written_beyond by lia. rewrite Z.sub_diag. reflexivity.
Qed.

Lemma WriteStream_resumed_witness :
  exists b1 r1' n1 b2 r2' n2,
    WriteStream 20 false Sample.drv (Sample.store [] []) "/p" 0
      (Sample.source (Sample.abc ++ Sample.abc))
    = Some (b1, r1', n1, None)
    /\ WriteStream 20 false Sample.drv b1 "/p" n1 (Sample.source Sample.abc)
       = Some (b2, r2', n2, None)
    /\ GetContent Sample.drv b2 "/p"
       = (b2, inl (rd_data (Sample.source (Sample.abc ++ Sample.abc))
                   ++ rd_data (Sample.source Sample.abc))).
Proof.
  apply (WriteStream_resumed false false Sample.drv (Sample.store [] []) "/p"
           (Sample.source (Sample.abc ++ Sample.abc)) (Sample.source Sample.abc)
           20 20).
  - reflexivity.
  - reflexivity.
  - cbn. lia.
  - reflexivity.
  - vm_compute. discriminate.
  - reflexivity.
  - vm_compute. discriminate.
  - vm_compute. lia.
  - vm_compute. lia.
Defined.

(** X18.  Completion.  On a store that serves every request and accepts
    parts of the chunk size, for a driver with a positive chunk size, an
    offset >= 0, an object at the path unless the offset is 0, and a
    source that yields at least one byte and then ends: [WriteStream]
    succeeds, and the one multipart session it opened is completed: the
    sessions of the store are those it held before, followed by a
    completed session for the key of the path. *)
Theorem WriteStream_completes_session (late : bool) (d : driver) (b : Bucket)
    (path : string) (offset : Z) (r : Reader) (fuel : nat) :
  healthy b ->
  0 < ChunkSize d ->
  min_part b <= ChunkSize d ->
  0 <= offset ->
  offset = 0 \/ lookup (s3Path d path) (objects b) <> None ->
  rd_fail r = None ->
  rd_data r <> [] ->
  (rounds d offset r <= fuel)%nat ->
  exists b' r' n u,
    WriteStream fuel late d b path offset r = Some (b', r', n, None)
    /\ uploads b' = uploads b ++ [u]
    /\ up_key u = s3Path d path
    /\ up_state u = Completed.
Proof.
  intros Hh Hcs Hmin Hoff Hex Hr Hne Hf.
  destruct (WriteStream_run late d b path offset r fuel)
    as (b' & r' & E & _ & _ & _ & _ & _ & S & _); trivial.
  unfold state_of in S.
  destruct (FrameFacts.WriteStream_sessions _ _ _ _ _ _ _ _ _ _ _ E)
    as [U | (u & U & K)]; rewrite U in S.
  - rewrite (proj2 (nth_error_None _ _)) in S by lia. discriminate.
  - rewrite nth_error_app2, Nat.sub_diag in S by lia. cbn in S.
    exists b', r', (len (rd_data r)), u. repeat split; trivial. congruence.
Qed.

Lemma WriteStream_completes_session_witness :
  exists b' r' n u,
    WriteStream 20 false Sample.drv
      (Sample.store [("p"%string, Sample.object Sample.abc)] []) "/p" 6
      (Sample.source Sample.abc)
    = Some (b', r', n, None)
    /\ uploads b'
       = uploads (Sample.store [("p"%string, Sample.object Sample.abc)] []) ++ [u]
    /\ up_key u = s3Path Sample.drv "/p"
    /\ up_state u = Completed.
Proof.
  apply (WriteStream_completes_session false Sample.drv
           (Sample.store [("p"%string, Sample.object Sample.abc)] []) "/p" 6
           (Sample.source Sample.abc) 20).
  - reflexivity.
  - reflexivity.
  - cbn. lia.
  - lia.
  - right. vm_compute. discriminate.
  - reflexivity.
  - vm_compute. discriminate.
  - vm_compute. lia.
Defined.

End ResumeFacts.

(** ** What the other operations leave alone, whatever the store answers *)
Module ReadOnlyFacts.

Import Strings S3 Driver PageFacts ListFacts PutFacts.

(** The store [b'] is the store [b] further along its failure script. *)
Definition later (b b' : Bucket) : Prop := exists rest, b' = set_faults b rest.

Lemma later_refl (b : Bucket) : later b b.
Proof. exists (faults b). now destruct b. Qed.

Lemma later_trans (a b c : Bucket) : later a b -> later b c -> later a c.
Proof. intros [r1 ->] [r2 ->]. now exists r2. Qed.

Lemma later_same (b b' : Bucket) :
  later b b' -> objects b' = objects b /\ uploads b' = uploads b.
Proof. now intros [rest ->]. Qed.

(** A request that only reads. *)
Lemma request_later {A : Type} (b b' : Bucket)
    (serve : Bucket -> Bucket * (A + error)) (r : A + error) :
  (forall b1, fst (serve b1) = b1) ->
  request b serve = (b', r) -> later b b'.
Proof.
  intros S. unfold request. destruct (faults b) as [| [e |] rest] eqn:F.
  - intros H. rewrite <- (S b), H. apply later_refl.
  - intros [= <- _]. now exists rest.
  - intros H. exists rest. now rewrite <- (S (set_faults b rest)), H.
Qed.

Lemma List_later (b b' : Bucket) (prefix delim marker : string) (max : Z)
    (r : ListResp + error) :
  S3.List b prefix delim marker max = (b', r) -> later b b'.
Proof. unfold S3.List. now apply request_later. Qed.

Lemma Get_later (b b' : Bucket) (key : string) (r : list byte + error) :
  Get b key = (b', r) -> later b b'.
Proof.
  unfold Get. apply request_later. intros b1. now destruct (lookup _ _).
Qed.

Lemma GetResponse_later (b b' : Bucket) (key : string) (offset : Z)
    (r : Reader + error) :
  GetResponseWithHeaders b key offset = (b', r) -> later b b'.
Proof.
  unfold GetResponseWithHeaders. apply request_later. intros b1.
  destruct (lookup _ _); [| reflexivity]. now destruct (_ <=? _).
Qed.

Lemma List_loop_later (d : driver) (path : string) :
  forall (fuel : nat) (b b' : Bucket) (resp : ListResp)
         (files directories : list string) (r : list string + error),
    List_loop fuel d b path resp files directories = Some (b', r) -> later b b'.
Proof.
  induction fuel as [| fuel IH]; intros b b' resp files directories r;
    [discriminate |].
  cbn [List_loop]. destruct (IsTruncated resp).
  - destruct (S3.List b _ _ _ _) as [b1 [resp1 | err]] eqn:E;
      apply List_later in E.
    + intros H. apply IH in H. now apply (later_trans b b1).
    + now intros [= <- _].
  - intros [= <- _]. apply later_refl.
Qed.

(** X11.  Reads.  Whatever the store answers, [GetContent], [ReadStream],
    [Stat] and [List] leave its objects and its multipart sessions exactly
    as they were: the store after the call is the store before it, further
    along its script of failures. *)
Theorem reads_leave_store (time_Parse : string -> option Z) (d : driver)
    (b : Bucket) (path : string) :
  later b (fst (GetContent d b path))
  /\ (forall offset, later b (fst (ReadStream d b path offset)))
  /\ later b (fst (Stat time_Parse d b path))
  /\ (forall fuel b' r, List fuel d b path = Some (b', r) -> later b b').
Proof.
  repeat split.
  - unfold GetContent. destruct (Get b _) as [b' [c | e]] eqn:E;
      apply Get_later in E; exact E.
  - intros offset. unfold ReadStream.
    destruct (GetResponseWithHeaders b _ _) as [b' [c | e]] eqn:E;
      apply GetResponse_later in E; [exact E |].
    now destruct (isS3Code e "InvalidRange").
  - unfold Stat. destruct (S3.List b _ _ _ _) as [b' [resp | e]] eqn:E;
      apply List_later in E; [| exact E].
    destruct (Contents resp) as [| k [| k' l]].
    + now destruct (_ =? _).
    + destruct (negb _); [exact E |]. now destruct (time_Parse _).
    + now destruct (_ =? _).
  - intros fuel b' r. unfold List. destruct (Strings.last path); [| discriminate].
    destruct (S3.List b _ _ _ _) as [b1 [resp | e]] eqn:E; apply List_later in E.
    + intros H. apply List_loop_later in H. now apply (later_trans b b1).
    + now intros [= <- _].
Qed.

Lemma In_firstn {A : Type} (n : nat) (l : list A) (x : A) :
  In x (firstn n l) -> In x l.
Proof.
  intros H. rewrite <- (firstn_skipn n l). apply in_or_app. now left.
Qed.

(** The keys a page of a listing holds start with the prefix asked for. *)
Lemma List_contents (b b' : Bucket) (prefix delim marker : string) (max : Z)
    (resp : ListResp) :
  S3.List b prefix delim marker max = (b', inl resp) ->
  Forall (fun k => String.prefix prefix (KeyName k) = true) (Contents resp).
Proof.
  unfold S3.List, request.
  assert (P : forall s,
             Forall (fun k => String.prefix prefix (KeyName k) = true)
               (Contents (page (after_marker marker (listing s prefix delim)) delim
                            (Z.to_nat max)))).
  { intros s. apply Forall_forall. intros k Hk. unfold page in Hk.
    cbn [Contents] in Hk. apply keys_of_In in Hk. apply In_firstn in Hk.
    assert (In (EKey k) (listing s prefix delim)).
    { destruct marker; [exact Hk |]. unfold after_marker in Hk.
      now apply filter_In in Hk. }
    apply listing_sound in H. destruct H as (ko & _ & U & E).
    unfold classify in E. destruct (delim_char delim) as [c |].
    - destruct (has_delim c _); [discriminate |]. now injection E as ->.
    - now injection E as ->. }
  destruct (faults b) as [| [e |] rest]; intros [= _ <-]; apply P.
Qed.

Section DeleteFrame.

Variable d : driver.
Variable path : string.

(** From [b] to [b'] nothing happened but the removal of objects whose
    key starts with the key of the path. *)
Definition pruned (b b' : Bucket) : Prop :=
  uploads b' = uploads b
  /\ forall k,
       lookup k (objects b') = lookup k (objects b)
       \/ (String.prefix (s3Path d path) k = true /\ lookup k (objects b') = None).

Lemma pruned_later (b b' : Bucket) : later b b' -> pruned b b'.
Proof. intros [rest ->]. split; [reflexivity |]. now left. Qed.

Lemma pruned_trans (a b c : Bucket) : pruned a b -> pruned b c -> pruned a c.
Proof.
  intros [U1 K1] [U2 K2]. split; [congruence |]. intros k.
  destruct (K2 k) as [E2 | [P2 N2]]; [| now right].
  destruct (K1 k) as [E1 | [P1 N1]]; [left; congruence | right].
  split; [exact P1 | congruence].
Qed.

Lemma DelMulti_pruned (b b' : Bucket) (keys : list Key) (r : unit + error) :
  Forall (fun k => String.prefix (s3Path d path) (KeyName k) = true) keys ->
  DelMulti b (map KeyName keys) = (b', r) -> pruned b b'.
Proof.
  intros F. unfold DelMulti, request.
  assert (P : forall b1, later b b1 ->
                         pruned b (set_objects b1
                                     (remove_all (map KeyName keys) (objects b1)))).
  { intros b1 [rest ->]. split; [reflexivity |]. intros k.
    cbn [objects set_objects set_faults]. rewrite lookup_remove_all.
    destruct (existsb (String.eqb k) (map KeyName keys)) eqn:E; [right | now left].
    split; [| reflexivity]. apply existsb_exists in E. destruct E as (x & Hx & E).
    apply String.eqb_eq in E. subst x. apply in_map_iff in Hx.
    destruct Hx as (key & <- & Hk). rewrite Forall_forall in F. now apply F. }
  destruct (faults b) as [| [e |] rest]; intros [= <- _].
  - apply P, later_refl.
  - apply pruned_later. now exists rest.
  - apply (P (set_faults b rest)). now exists rest.
Qed.

Lemma Delete_loop_pruned :
  forall (fuel : nat) (b b' : Bucket) (resp : ListResp) (err : option error),
    Forall (fun k => String.prefix (s3Path d path) (KeyName k) = true)
      (Contents resp) ->
    Delete_loop fuel d b path resp = Some (b', err) -> pruned b b'.
Proof.
  induction fuel as [| fuel IH]; intros b b' resp err F; [discriminate |].
  cbn [Delete_loop]. destruct (0 <? len (Contents resp)).
  2:{ intros [= <- _]. apply pruned_later, later_refl. }
  destruct (DelMulti b _) as [b1 [[] | e]] eqn:D; apply DelMulti_pruned in D; trivial.
  2:{ now intros [= <- _]. }
  destruct (S3.List b1 _ _ _ _) as [b2 [resp2 | e]] eqn:L.
  - pose proof (List_contents _ _ _ _ _ _ _ L) as F2. apply List_later in L.
    intros H. apply (IH _ _ _ _ F2) in H.
    apply (pruned_trans b b1); trivial. apply (pruned_trans b1 b2); trivial.
    now apply pruned_later.
  - apply List_later in L. intros [= <- _].
    apply (pruned_trans b b1); trivial. now apply pruned_later.
Qed.

Lemma Delete_pruned (fuel : nat) (b b' : Bucket) (err : option error) :
  Delete fuel d b path = Some (b', err) -> pruned b b'.
Proof.
  unfold Delete.
  destruct (S3.List b _ _ _ _) as [b1 [resp | e]] eqn:L.
  - pose proof (List_contents _ _ _ _ _ _ _ L) as F. apply List_later in L.
    destruct (_ =? 0); [intros [= <- _]; now apply pruned_later |].
    intros H. apply (Delete_loop_pruned _ _ _ _ _ F) in H.
    apply (pruned_trans b b1); trivial. now apply pruned_later.
  - apply List_later in L. intros [= <- _]. now apply pruned_later.
Qed.

(** The keys of a page are keys of the store. *)
Lemma List_keys (b b' : Bucket) (prefix delim marker : string) (max : Z)
    (resp : ListResp) :
  S3.List b prefix delim marker max = (b', inl resp) ->
  Forall (fun k => In (KeyName k) (map fst (objects b'))) (Contents resp).
Proof.
  unfold S3.List, request.
  assert (P : forall s,
             Forall (fun k => In (KeyName k) (map fst s))
               (Contents (page (after_marker marker (listing s prefix delim)) delim
                            (Z.to_nat max)))).
  { intros s. apply Forall_forall. intros k Hk. unfold page in Hk.
    cbn [Contents] in Hk. apply keys_of_In in Hk. apply In_firstn in Hk.
    assert (In (EKey k) (listing s prefix delim)).
    { destruct marker; [exact Hk |]. unfold after_marker in Hk.
      now apply filter_In in Hk. }
    apply listing_sound in H. destruct H as (ko & I & _ & E).
    assert (KeyName k = fst ko).
    { unfold classify in E. destruct (delim_char delim) as [c |].
      - destruct (has_delim c _); [discriminate |]. now injection E as ->.
      - now injection E as ->. }
    rewrite H. now apply in_map. }
  destruct (faults b) as [| [e |] rest]; intros [= <- <-]; apply P.
Qed.

Lemma filter_shrinks {A : Type} (f : A -> bool) (l : list A) (x : A) :
  In x l -> f x = false -> (length (filter f l) < length l)%nat.
Proof.
  induction l as [| a l IH]; cbn [In filter length]; [tauto |].
  intros [-> | I] F.
  - rewrite F. pose proof (filter_length_le f l). lia.
  - specialize (IH I F). destruct (f a); cbn [length]; lia.
Qed.

Lemma remove_all_shrinks (ks : list string) (s : list (string * Object)) (k : string) :
  In k ks -> In k (map fst s) ->
  (length (remove_all ks s) < length s)%nat.
Proof.
  intros Hk Hs. apply in_map_iff in Hs. destruct Hs as ([k' o] & <- & I).
  unfold remove_all. apply (filter_shrinks _ _ (k', o) I). cbn [fst].
  apply negb_false_iff. apply existsb_exists. exists k'. split; [exact Hk |].
  apply String.eqb_refl.
Qed.

(** The loop of [Delete] ends: every round but the last removes a key. *)
Lemma Delete_loop_returns :
  forall (fuel : nat) (b : Bucket) (resp : ListResp),
    Forall (fun k => In (KeyName k) (map fst (objects b))) (Contents resp) ->
    (length (objects b) < fuel)%nat ->
    exists b' err, Delete_loop fuel d b path resp = Some (b', err).
Proof.
  induction fuel as [| fuel IH]; intros b resp F Hf; [lia |].
  cbn [Delete_loop]. destruct (0 <? len (Contents resp)) eqn:C; [| eauto].
  apply Z.ltb_lt in C.
  destruct (Contents resp) as [| k0 keys] eqn:Q; [cbn in C; lia |].
  assert (Hk0 : In (KeyName k0) (map fst (objects b))) by now inversion F.
  destruct (DelMulti b (map KeyName (k0 :: keys))) as [b1 [[] | e]] eqn:D; [| eauto].
  assert (L1 : (length (objects b1) < length (objects b))%nat).
  { revert D. unfold DelMulti, request.
    destruct (faults b) as [| [e |] rest]; intros [= <-];
      cbn [objects set_objects set_faults];
      apply (remove_all_shrinks _ _ (KeyName k0)); trivial; now left. }
  destruct (S3.List b1 _ _ _ _) as [b2 [resp2 | e]] eqn:L; [| eauto].
  pose proof (List_keys _ _ _ _ _ _ _ L) as F2. apply List_later in L.
  apply later_same in L. destruct L as [O _].
  apply IH; trivial. rewrite O. lia.
Qed.

Lemma Delete_returns (fuel : nat) (b : Bucket) :
  (length (objects b) < fuel)%nat ->
  exists b' err, Delete fuel d b path = Some (b', err).
Proof.
  intros Hf. unfold Delete.
  destruct (S3.List b _ _ _ _) as [b1 [resp | e]] eqn:L; [| eauto].
  pose proof (List_keys _ _ _ _ _ _ _ L) as F. apply List_later in L.
  apply later_same in L. destruct L as [O _].
  destruct (_ =? 0); [eauto |].
  apply Delete_loop_returns; trivial. rewrite O. exact Hf.
Qed.

End DeleteFrame.

(** X10.  Delete removes nothing else.  Whatever the store answers, [Delete]
    returns, within as many rounds as the store holds objects, and when it
    has returned every key holds the object it held before or, if it
    starts with the key of the path, possibly none: no object is written
    or changed, none outside the path is removed, and the multipart
    sessions are untouched. *)
Theorem Delete_removes_nothing_else (fuel : nat) (d : driver) (b : Bucket)
    (path : string) :
  (length (objects b) < fuel)%nat ->
  exists b' err,
    Delete fuel d b path = Some (b', err)
    /\ uploads b' = uploads b
    /\ (forall k, String.prefix (s3Path d path) k = false ->
                  lookup k (objects b') = lookup k (objects b))
    /\ (forall k o, lookup k (objects b') = Some o -> lookup k (objects b) = Some o).
Proof.
  intros Hf. destruct (Delete_returns d path fuel b Hf) as (b' & err & H).
  exists b', err. split; [exact H |].
  destruct (Delete_pruned d path _ _ _ _ H) as [U K]. split; [exact U |]. split.
  - intros k Hk. destruct (K k) as [E | [P _]]; [exact E | congruence].
  - intros k o Hk. destruct (K k) as [E | [_ N]]; congruence.
Qed.

Lemma Delete_removes_nothing_else_witness :
  exists b' err,
    Delete 4 Sample.drv
      (Sample.store [("p"%string, Sample.object Sample.abc);
                     ("p/q"%string, Sample.object []);
                     ("r"%string, Sample.object [])]
         [None; None; Some (OtherError "reset")]) "/p"
    = Some (b', err)
    /\ uploads b' = []
    /\ (forall k, String.prefix (s3Path Sample.drv "/p") k = false ->
                  lookup k (objects b')
                  = lookup k [("p"%string, Sample.object Sample.abc);
                              ("p/q"%string, Sample.object []);
                              ("r"%string, Sample.object [])])
    /\ (forall k o,
          lookup k (objects b') = Some o ->
          lookup k [("p"%string, Sample.object Sample.abc);
                    ("p/q"%string, Sample.object []);
                    ("r"%string, Sample.object [])] = Some o).
Proof.
  apply (Delete_removes_nothing_else 4 Sample.drv
           (Sample.store [("p"%string, Sample.object Sample.abc);
                          ("p/q"%string, Sample.object []);
                          ("r"%string, Sample.object [])]
              [None; None; Some (OtherError "reset")]) "/p").
  cbn. lia.
Defined.

(** X8.  Move changes nothing else.  Whatever the store answers, [Move]
    returns, and when it has returned every object whose key is not the
    key of the destination and does not start with the key of the source
    is as it was before. *)
Theorem Move_changes_nothing_else (fuel : nat) (d : driver) (b : Bucket)
    (sourcePath destPath : string) :
  (S (length (objects b)) < fuel)%nat ->
  exists b' err,
    Move fuel d b sourcePath destPath = Some (b', err)
    /\ uploads b' = uploads b
    /\ (forall k, k <> s3Path d destPath ->
                  String.prefix (s3Path d sourcePath) k = false ->
                  lookup k (objects b') = lookup k (objects b)).
Proof.
  intros Hf. unfold Move.
  destruct (PutCopy b _ _) as [b1 [[] | e]] eqn:C.
  - assert (P : uploads b1 = uploads b
                /\ (length (objects b1) <= S (length (objects b)))%nat
                /\ forall k, k <> s3Path d destPath ->
                             lookup k (objects b1) = lookup k (objects b)).
    { revert C. unfold PutCopy, request.
      destruct (faults b) as [| [e |] rest]; try discriminate;
        cbn [objects set_faults];
        (destruct (lookup (s3Path d sourcePath) (objects b)) as [o |];
         [| discriminate]);
        intros [= <-]; cbn [objects uploads set_objects set_faults];
        (split; [reflexivity |]);
        (split; [apply MoveFacts.put_length |]);
        intros k N; now apply lookup_put_other. }
    destruct P as (U1 & L1 & K1).
    destruct (Delete_returns d sourcePath fuel b1) as (b' & err & H); [lia |].
    exists b', err. split; [exact H |].
    destruct (Delete_pruned d sourcePath _ _ _ _ H) as [U K].
    split; [congruence |]. intros k N Hk.
    destruct (K k) as [E | [P _]]; [| congruence]. rewrite E. now apply K1.
  - eexists _, _. split; [reflexivity |].
    assert (L : later b b1).
    { revert C. unfold PutCopy, request.
      destruct (faults b) as [| [e0 |] rest]; cbn [objects set_faults];
        try (destruct (lookup (s3Path d sourcePath) (objects b)) as [o |];
             [discriminate |]);
        intros [= <- _]; [apply later_refl | now exists rest | now exists rest]. }
    apply later_same in L. destruct L as [O U]. rewrite O. now split.
Qed.

Lemma Move_changes_nothing_else_witness :
  exists b' err,
    Move 4 Sample.drv
      (Sample.store [("a"%string, Sample.object Sample.abc);
                     ("c"%string, Sample.object [])]
         [None; None; Some (OtherError "reset")]) "/a" "/b"
    = Some (b', err)
    /\ uploads b' = []
    /\ (forall k, k <> s3Path Sample.drv "/b" ->
                  String.prefix (s3Path Sample.drv "/a") k = false ->
                  lookup k (objects b')
                  = lookup k [("a"%string, Sample.object Sample.abc);
                              ("c"%string, Sample.object [])]).
Proof.
  apply (Move_changes_nothing_else 4 Sample.drv
           (Sample.store [("a"%string, Sample.object Sample.abc);
                          ("c"%string, Sample.object [])]
              [None; None; Some (OtherError "reset")]) "/a" "/b").
  cbn. lia.
Defined.


End ReadOnlyFacts.

(** ** List of a directory that holds nothing *)
Module EmptyListFacts.

Import Strings S3 Driver StoreFacts ListingFacts.

(** X12.  An empty directory.  On a store that serves every request, [List] of
    a path under which the store holds no key (a directory that does not
    exist, too) returns the empty list and no error, where [Stat] and
    [Delete] answer that the path is not found. *)
Theorem List_of_nothing (fuel : nat) (d : driver) (b : Bucket) (path : string)
    (c : ascii) :
  healthy b ->
  Strings.last path = Some c ->
  (forall k, In k (map fst (objects b)) ->
             String.prefix (s3Path d (dir_path path)) k = false) ->
  List (S fuel) d b path = Some (b, inl []).
Proof.
  intros Hb Hc Hn. unfold List. rewrite Hc.
  change (if negb (String.eqb path "/") && negb (Ascii.eqb c "/")
          then (path ++ "/")%string else path) with
    (match Some c with
     | Some c =>
         if negb (String.eqb path "/") && negb (Ascii.eqb c "/")
         then (path ++ "/")%string else path
     | None => path
     end).
  rewrite <- Hc. fold (dir_path path).
  unfold S3.List. rewrite (request_healthy b _ Hb).
  unfold listing. rewrite (filter_under_none _ _ Hn). reflexivity.
Qed.

Lemma List_of_nothing_witness :
  List 1 Sample.drv Sample.tree "/b" = Some (Sample.tree, inl []).
Proof.
  apply (List_of_nothing 0 Sample.drv Sample.tree "/b" "b").
  - reflexivity.
  - reflexivity.
  - intros k [<- | [<- | [<- | [<- | []]]]]; reflexivity.
Defined.

End EmptyListFacts.

(** ** Construction *)
Module ConfigFacts.

Import Config ReadOnlyFacts.

Section Construct.

Variable Auth : Type.
Variable GetAuth : string -> string -> Auth + error.
Variable GetRegion : string -> Aws.Region.
Variable ParseInt : string -> option Z.
Variable time_String : Z -> string.
Variable allocates : Z -> bool.

(** What [New] returns when it returns a driver. *)
Lemma New_driver (params : DriverParameters) (b b' : S3.Bucket)
    (d : Driver.driver) (cl : Client Auth) :
  New Auth GetAuth allocates params b = Some (b', inl (d, cl)) ->
  Driver.ChunkSize d = ChunkSize params
  /\ Driver.Encrypt d = Encrypt params
  /\ Driver.RootDirectory d = RootDirectory params
  /\ 0 <= ChunkSize params
  /\ later b b'
  /\ (Aws.Name (cl_region Auth cl) = "eu-central-1"%string ->
      cl_signature Auth cl = Aws.V4Signature).
Proof.
  unfold New. destruct (GetAuth _ _) as [auth | e]; [| discriminate].
  destruct (negb (V4Auth params) && _) eqn:V; [discriminate |].
  destruct (S3.List b _ _ _ _) as [b1 [resp | e]] eqn:L; [| discriminate].
  apply List_later in L.
  destruct (ChunkSize params <? 0) eqn:C; [discriminate |].
  destruct (allocates (ChunkSize params)); [| discriminate]. cbn [negb orb].
  apply Z.ltb_ge in C. intros [= <- <- <-]. cbn. repeat split; trivial.
  intros E. rewrite E in V. cbn in V. rewrite andb_true_r in V.
  now destruct (V4Auth params).
Qed.

(** What [FromParameters] hands to [New] when it gets that far. *)
Lemma FromParameters_cases (parameters : list (string * value)) (b b' : S3.Bucket)
    (res : Driver.driver * Client Auth + failure) :
  FromParameters Auth GetAuth GetRegion ParseInt time_String allocates parameters b
  = Some (b', res) ->
  (b' = b /\ exists format args, res = inr (Errorf format args))
  \/ exists params,
       New Auth GetAuth allocates params b = Some (b', res)
       /\ Driver.minChunkSize <= ChunkSize params
       /\ (get parameters "chunksize" = None ->
           ChunkSize params = Driver.defaultChunkSize)
       /\ (Encrypt params = true <-> get parameters "encrypt" = Some (VBool true))
       /\ RootDirectory params
          = match get parameters "rootdirectory" with
            | Some v => Sprint time_String v
            | None => EmptyString
            end.
Proof.
  unfold FromParameters.
  destruct (get parameters "region") as [regionName |];
    [| intros [= <- <-]; left; eauto].
  destruct (String.eqb (Sprint time_String regionName) "");
    [intros [= <- <-]; left; eauto |].
  destruct (String.eqb (Aws.Name (GetRegion _)) "");
    [intros [= <- <-]; left; eauto |].
  destruct (get parameters "bucket") as [bucket |];
    [| intros [= <- <-]; left; eauto].
  destruct (String.eqb (Sprint time_String bucket) "");
    [intros [= <- <-]; left; eauto |].
  destruct (get parameters "encrypt") as [encrypt |] eqn:En.
  - destruct encrypt as [| encryptBool | | | | | | | |];
      try (intros [= <- <-]; left; eauto; fail).
    destruct (get parameters "secure") as [[| secureBool | | | | | | | |] |];
      try (intros [= <- <-]; left; eauto; fail);
      (destruct (get parameters "v4auth") as [[| v4 | | | | | | | |] |];
       try (intros [= <- <-]; left; eauto; fail));
      (destruct (get parameters "chunksize") as [chunkSizeParam |] eqn:Ch;
       [ destruct chunkSizeParam as [v | | v | v | v | v | v | v | |];
         try (intros [= <- <-]; left; eauto; fail);
         try (destruct (ParseInt v) as [vv |];
              [| intros [= <- <-]; left; eauto]);
         match goal with
         | |- context [?x <? Driver.minChunkSize] =>
             destruct (x <? Driver.minChunkSize) eqn:Q;
             [intros [= <- <-]; left; eauto | apply Z.ltb_ge in Q]
         end
       | ]);
      intros H; right; eexists; (split; [exact H |]);
      cbn [ChunkSize Encrypt RootDirectory];
      (split; [first [exact Q | unfold Driver.defaultChunkSize, Driver.minChunkSize;
                                cbn; lia] |]);
      (split; [first [discriminate | reflexivity] |]);
      (split; [split; [now intros -> | now intros [= ->]] |]);
      now destruct (get parameters "rootdirectory").
  - destruct (get parameters "secure") as [[| secureBool | | | | | | | |] |];
      try (intros [= <- <-]; left; eauto; fail);
      (destruct (get parameters "v4auth") as [[| v4 | | | | | | | |] |];
       try (intros [= <- <-]; left; eauto; fail));
      (destruct (get parameters "chunksize") as [chunkSizeParam |] eqn:Ch;
       [ destruct chunkSizeParam as [v | | v | v | v | v | v | v | |];
         try (intros [= <- <-]; left; eauto; fail);
         try (destruct (ParseInt v) as [vv |];
              [| intros [= <- <-]; left; eauto]);
         match goal with
         | |- context [?x <? Driver.minChunkSize] =>
             destruct (x <? Driver.minChunkSize) eqn:Q;
             [intros [= <- <-]; left; eauto | apply Z.ltb_ge in Q]
         end
       | ]);
      intros H; right; eexists; (split; [exact H |]);
      cbn [ChunkSize Encrypt RootDirectory];
      (split; [first [exact Q | unfold Driver.defaultChunkSize, Driver.minChunkSize;
                                cbn; lia] |]);
      (split; [first [discriminate | reflexivity] |]);
      (split; [split; discriminate |]);
      now destruct (get parameters "rootdirectory").
Qed.

(** [New] makes one request at most. *)
Definition one_request (b b' : S3.Bucket) : Prop :=
  b' = b
  \/ exists x rest, S3.faults b = x :: rest /\ b' = S3.set_faults b rest.

Lemma List_one_request (b b' : S3.Bucket) (prefix delim marker : string) (max : Z)
    (r : S3.ListResp + error) :
  S3.List b prefix delim marker max = (b', r) -> one_request b b'.
Proof.
  unfold S3.List, S3.request. destruct (S3.faults b) as [| [e |] rest] eqn:F;
    intros [= <- _]; [now left | right; eauto | right; eauto].
Qed.

Lemma New_requests (params : DriverParameters) (b b' : S3.Bucket)
    (res : Driver.driver * Client Auth + failure) :
  New Auth GetAuth allocates params b = Some (b', res) ->
  one_request b b'
  /\ forall format args, res = inr (Errorf format args) -> b' = b.
Proof.
  unfold New. destruct (GetAuth _ _) as [auth | e];
    [| intros [= <- <-]; split; [now left | reflexivity]].
  destruct (negb (V4Auth params) && _);
    [intros [= <- <-]; split; [now left | reflexivity] |].
  destruct (S3.List b _ _ _ _) as [b1 [resp | e]] eqn:L;
    apply List_one_request in L.
  - destruct ((ChunkSize params <? 0) || _); [discriminate |].
    intros [= <- <-]. split; [exact L | discriminate].
  - intros [= <- <-]. split; [exact L | discriminate].
Qed.

End Construct.

(** X19.  The driver [FromParameters] builds.  Whenever [FromParameters]
    returns a driver, its chunk size is at least the minimum chunk size of
    5 MiB (so it is positive), and it is the default of 10 MiB when no
    [chunksize] parameter is given; it encrypts exactly when the parameter
    [encrypt] is the boolean true; its root directory is the printed
    [rootdirectory] parameter, empty when there is none. *)
Theorem FromParameters_driver (Auth : Type) (GetAuth : string -> string -> Auth + error)
    (GetRegion : string -> Aws.Region) (ParseInt : string -> option Z)
    (time_String : Z -> string) (allocates : Z -> bool)
    (parameters : list (string * value))
    (b b' : S3.Bucket) (d : Driver.driver) (cl : Client Auth) :
  FromParameters Auth GetAuth GetRegion ParseInt time_String allocates parameters b
  = Some (b', inl (d, cl)) ->
  Driver.minChunkSize <= Driver.ChunkSize d
  /\ 0 < Driver.ChunkSize d
  /\ (get parameters "chunksize" = None ->
      Driver.ChunkSize d = Driver.defaultChunkSize)
  /\ (Driver.Encrypt d = true <-> get parameters "encrypt" = Some (VBool true))
  /\ Driver.RootDirectory d
     = match get parameters "rootdirectory" with
       | Some v => Sprint time_String v
       | None => EmptyString
       end.
Proof.
  intros H. apply FromParameters_cases in H.
  destruct H as [(_ & format & args & H) | (params & N & M & D & E & R)];
    [discriminate |].
  apply New_driver in N. destruct N as (-> & -> & -> & _).
  repeat split; trivial; try apply E.
  unfold Driver.minChunkSize in M. cbn in M. lia.
Qed.

Lemma FromParameters_driver_witness :
  Driver.minChunkSize <= Driver.ChunkSize
    {| Driver.ChunkSize := 6000000; Driver.Encrypt := true;
       Driver.RootDirectory := "/registry" |}
  /\ 0 < Driver.ChunkSize
       {| Driver.ChunkSize := 6000000; Driver.Encrypt := true;
          Driver.RootDirectory := "/registry" |}
  /\ (get [("region"%string, VString "us-east-1"); ("bucket"%string, VString "b");
           ("encrypt"%string, VBool true); ("chunksize"%string, VUint32 6000000);
           ("rootdirectory"%string, VString "/registry")] "chunksize" = None ->
      Driver.ChunkSize
        {| Driver.ChunkSize := 6000000; Driver.Encrypt := true;
           Driver.RootDirectory := "/registry" |}
      = Driver.defaultChunkSize)
  /\ (Driver.Encrypt
        {| Driver.ChunkSize := 6000000; Driver.Encrypt := true;
           Driver.RootDirectory := "/registry" |} = true
      <-> get [("region"%string, VString "us-east-1"); ("bucket"%string, VString "b");
               ("encrypt"%string, VBool true); ("chunksize"%string, VUint32 6000000);
               ("rootdirectory"%string, VString "/registry")] "encrypt"
          = Some (VBool true))
  /\ Driver.RootDirectory
       {| Driver.ChunkSize := 6000000; Driver.Encrypt := true;
          Driver.RootDirectory := "/registry" |}
     = match
         get [("region"%string, VString "us-east-1"); ("bucket"%string, VString "b");
              ("encrypt"%string, VBool true); ("chunksize"%string, VUint32 6000000);
              ("rootdirectory"%string, VString "/registry")] "rootdirectory"
       with
       | Some v => Sprint (fun _ => EmptyString) v
       | None => EmptyString
       end.
Proof.
  apply (FromParameters_driver unit (fun _ _ => inl tt)
           (fun name => {| Aws.Name := name; Aws.S3Endpoint := "https://s3" |})
           (fun _ => None) (fun _ => EmptyString) (fun n => n <=? 2 ^ 47)
           [("region"%string, VString "us-east-1"); ("bucket"%string, VString "b");
            ("encrypt"%string, VBool true); ("chunksize"%string, VUint32 6000000);
            ("rootdirectory"%string, VString "/registry")]
           (Sample.store [] []) (Sample.store [] [])
           {| Driver.ChunkSize := 6000000; Driver.Encrypt := true;
              Driver.RootDirectory := "/registry" |}
           {| cl_auth := tt;
              cl_region := {| Aws.Name := "us-east-1"; Aws.S3Endpoint := "https://s3" |};
              cl_signature := Aws.V2Signature;
              cl_bucket := "b" |}).
  vm_compute. reflexivity.
Defined.

(** X20.  Requests of the constructors.  Whatever the parameters and whatever
    the store answers, [FromParameters] sends the store one request at
    most, a listing that changes nothing, and every error it makes itself
    (a missing or malformed parameter, a chunk size below the minimum, a
    region that needs the newer signature) is returned before any request
    is sent. *)
Theorem FromParameters_requests (Auth : Type)
    (GetAuth : string -> string -> Auth + error)
    (GetRegion : string -> Aws.Region) (ParseInt : string -> option Z)
    (time_String : Z -> string) (allocates : Z -> bool)
    (parameters : list (string * value))
    (b b' : S3.Bucket) (res : Driver.driver * Client Auth + failure) :
  FromParameters Auth GetAuth GetRegion ParseInt time_String allocates parameters b
  = Some (b', res) ->
  one_request b b'
  /\ forall format args, res = inr (Errorf format args) -> b' = b.
Proof.
  intros H. apply FromParameters_cases in H.
  destruct H as [(-> & _) | (params & N & _)].
  - split; [now left | reflexivity].
  - now apply New_requests in N.
Qed.

Lemma FromParameters_requests_witness :
  one_request (Sample.store [] [Some (OtherError "denied"); None])
    (Sample.store [] [None])
  /\ forall format args,
       @inr (Driver.driver * Client unit) failure (Failed (OtherError "denied"))
       = inr (Errorf format args) ->
       Sample.store [] [None] = Sample.store [] [Some (OtherError "denied"); None].
Proof.
  apply (FromParameters_requests unit (fun _ _ => inl tt)
           (fun name => {| Aws.Name := name; Aws.S3Endpoint := "https://s3" |})
           (fun _ => None) (fun _ => EmptyString) (fun n => n <=? 2 ^ 47)
           [("region"%string, VString "us-east-1"); ("bucket"%string, VString "b")]
           (Sample.store [] [Some (OtherError "denied"); None])
           (Sample.store [] [None])
           (inr (Failed (OtherError "denied")))).
  vm_compute. reflexivity.
Defined.

(** X21.  The chunk size [New] accepts.  [New] itself does not compare the
    chunk size with the minimum: once the credentials are found, the
    region does not need the newer signature and the store answers the
    listing, it returns a driver with any chunk size that is not negative
    and that the runtime can allocate as a byte slice (zero, too, where
    the runtime allocates the empty slice), and panics, after the listing,
    on a chunk size that is negative or that the runtime cannot
    allocate. *)
Theorem New_chunk_size (Auth : Type) (GetAuth : string -> string -> Auth + error)
    (allocates : Z -> bool) (params : DriverParameters) (b : S3.Bucket)
    (auth : Auth) :
  GetAuth (AccessKey params) (SecretKey params) = inl auth ->
  V4Auth params = true \/ Aws.Name (Region params) <> "eu-central-1"%string ->
  healthy b ->
  (ChunkSize params < 0 \/ allocates (ChunkSize params) = false ->
   New Auth GetAuth allocates params b = None)
  /\ (0 <= ChunkSize params ->
      allocates (ChunkSize params) = true ->
      exists cl,
        New Auth GetAuth allocates params b
        = Some (b, inl ({| Driver.ChunkSize := ChunkSize params;
                           Driver.Encrypt := Encrypt params;
                           Driver.RootDirectory := RootDirectory params |}, cl))).
Proof.
  intros A V Hb. unfold New. rewrite A.
  replace (negb (V4Auth params) && _) with false.
  2:{ symmetry. destruct V as [-> | N]; [reflexivity |].
      apply andb_false_iff. right. apply String.eqb_neq.
      now destruct (negb (Secure params)). }
  unfold S3.List. rewrite (StoreFacts.request_healthy b _ Hb). split.
  - intros [C | C].
    + apply Z.ltb_lt in C. now rewrite C.
    + rewrite C. cbn [negb]. now rewrite orb_true_r.
  - intros C Al. apply Z.ltb_ge in C. rewrite C, Al. now eexists.
Qed.

Lemma New_chunk_size_witness :
  (0 < 0 \/ (0 <=? 2 ^ 47) = false ->
   New unit (fun _ _ => inl tt) (fun n => n <=? 2 ^ 47)
     {| AccessKey := ""; SecretKey := ""; Bucket := "b";
        Region := {| Aws.Name := "us-east-1"; Aws.S3Endpoint := "https://s3" |};
        Encrypt := false; Secure := true; V4Auth := false; ChunkSize := 0;
        RootDirectory := "" |} (Sample.store [] [])
   = None)
  /\ (0 <= 0 ->
      (0 <=? 2 ^ 47) = true ->
      exists cl,
        New unit (fun _ _ => inl tt) (fun n => n <=? 2 ^ 47)
          {| AccessKey := ""; SecretKey := ""; Bucket := "b";
             Region := {| Aws.Name := "us-east-1"; Aws.S3Endpoint := "https://s3" |};
             Encrypt := false; Secure := true; V4Auth := false; ChunkSize := 0;
             RootDirectory := "" |} (Sample.store [] [])
        = Some (Sample.store [] [],
                inl ({| Driver.ChunkSize := 0; Driver.Encrypt := false;
                        Driver.RootDirectory := "" |}, cl))).
Proof.
  apply (New_chunk_size unit (fun _ _ => inl tt) (fun n => n <=? 2 ^ 47)
           {| AccessKey := ""; SecretKey := ""; Bucket := "b";
              Region := {| Aws.Name := "us-east-1"; Aws.S3Endpoint := "https://s3" |};
              Encrypt := false; Secure := true; V4Auth := false; ChunkSize := 0;
              RootDirectory := "" |} (Sample.store [] []) tt).
  - reflexivity.
  - right. discriminate.
  - reflexivity.
Defined.

(** [New] with a chunk size of 2^62 bytes, which no runtime allocates: the
    listing is sent and the call panics. *)
Example New_chunk_size_too_large :
  New unit (fun _ _ => inl tt) (fun n => n <=? 2 ^ 47)
    {| AccessKey := ""; SecretKey := ""; Bucket := "b";
       Region := {| Aws.Name := "us-east-1"; Aws.S3Endpoint := "https://s3" |};
       Encrypt := false; Secure := true; V4Auth := false; ChunkSize := 2 ^ 62;
       RootDirectory := "" |} (Sample.store [] [])
  = None.
Proof. reflexivity. Qed.

End ConfigFacts.

(** ** URLFor *)
Module URLFacts.

Import Driver.

(** X22.  Signed URLs.  [URLFor] makes no request and signs a URL for the
    methods GET and HEAD only, GET when the options name no method: it
    returns a URL exactly when the options hold no [method] or hold the
    string GET or HEAD there, the URL is signed for that method, for the
    key of the path, and expires at the [expiry] option when that is a
    time and twenty minutes from now otherwise.  For any other [method]
    it returns [ErrUnsupportedMethod]. *)
Theorem URLFor_signs_GET_or_HEAD (Signed : string -> string -> Z -> string)
    (d : driver) (now : Z) (path : string) (options : list (string * value)) :
  (forall url,
      URLFor Signed d now path options = inl url ->
      exists m expires,
        url = Signed m (s3Path d path) expires
        /\ (m = "GET"%string \/ m = "HEAD"%string)
        /\ (get options "method" = None /\ m = "GET"%string
            \/ get options "method" = Some (VString m))
        /\ (get options "expiry" = Some (VTime expires)
            \/ (forall t, get options "expiry" <> Some (VTime t))
               /\ expires = now + twentyMinutes))
  /\ (forall err,
        URLFor Signed d now path options = inr err ->
        err = ErrUnsupportedMethod
        /\ exists v, get options "method" = Some v
                     /\ v <> VString "GET" /\ v <> VString "HEAD")
  /\ ((get options "method" = None
       \/ get options "method" = Some (VString "GET")
       \/ get options "method" = Some (VString "HEAD")) ->
      exists url, URLFor Signed d now path options = inl url).
Proof.
  unfold URLFor.
  assert (E : exists expires,
             match get options "expiry" with
             | Some (VTime et) => et
             | _ => now + twentyMinutes
             end = expires
             /\ (get options "expiry" = Some (VTime expires)
                 \/ (forall t, get options "expiry" <> Some (VTime t))
                    /\ expires = now + twentyMinutes)).
  { destruct (get options "expiry") as [[| | | | | | | | t |] |];
      eexists; (split; [reflexivity |]);
      first [now left | right; split; [discriminate | reflexivity]]. }
  destruct E as (expires & -> & Hexp).
  assert (Ok : forall m,
             (m = "GET"%string \/ m = "HEAD"%string) ->
             (get options "method" = None /\ m = "GET"%string
              \/ get options "method" = Some (VString m)) ->
             (forall url,
                 @inl string error (Signed m (s3Path d path) expires) = inl url ->
                 exists m0 expires0,
                   url = Signed m0 (s3Path d path) expires0
                   /\ (m0 = "GET"%string \/ m0 = "HEAD"%string)
                   /\ (get options "method" = None /\ m0 = "GET"%string
                       \/ get options "method" = Some (VString m0))
                   /\ (get options "expiry" = Some (VTime expires0)
                       \/ (forall t, get options "expiry" <> Some (VTime t))
                          /\ expires0 = now + twentyMinutes))).
  { intros m Hm Ho url [= <-]. exists m, expires. now repeat split. }
  destruct (get options "method") as [v |] eqn:M.
  2:{ split; [apply Ok; auto |]. split; [discriminate | eauto]. }
  assert (Bad : v <> VString "GET" -> v <> VString "HEAD" ->
                (forall url, @inr string error ErrUnsupportedMethod = inl url ->
                   exists m expires0,
                     url = Signed m (s3Path d path) expires0
                     /\ (m = "GET"%string \/ m = "HEAD"%string)
                     /\ (Some v = None /\ m = "GET"%string
                         \/ Some v = Some (VString m))
                     /\ (get options "expiry" = Some (VTime expires0)
                         \/ (forall t, get options "expiry" <> Some (VTime t))
                            /\ expires0 = now + twentyMinutes))
                /\ (forall err, @inr string error ErrUnsupportedMethod = inr err ->
                      err = ErrUnsupportedMethod
                      /\ exists v0, Some v = Some v0
                                    /\ v0 <> VString "GET" /\ v0 <> VString "HEAD")
                /\ ((Some v = None
                     \/ Some v = Some (VString "GET")
                     \/ Some v = Some (VString "HEAD")) ->
                    exists url, @inr string error ErrUnsupportedMethod = inl url)).
  { intros NG NH. split; [discriminate |]. split.
    - intros err [= <-]. split; [reflexivity |]. now exists v.
    - intros [H | [H | H]]; congruence. }
  destruct v as [m | | | | | | | | |]; try (apply Bad; discriminate).
  destruct (String.eqb_spec m "GET") as [-> | NG]; cbn [negb andb].
  { split; [apply Ok; auto |]. split; [discriminate | eauto]. }
  destruct (String.eqb_spec m "HEAD") as [-> | NH]; cbn [negb].
  { split; [apply Ok; auto |]. split; [discriminate | eauto]. }
  apply Bad; congruence.
Qed.

Example URLFor_examples :
  let Signed (m key : string) (expires : Z) := (m ++ " " ++ key)%string in
  URLFor Signed Sample.drv 0 "/p" [] = inl "GET p"%string
  /\ URLFor Signed Sample.drv 0 "/p" [("method"%string, VString "HEAD")]
     = inl "HEAD p"%string
  /\ URLFor Signed Sample.drv 0 "/p" [("method"%string, VString "PUT")]
     = inr ErrUnsupportedMethod
  /\ URLFor Signed Sample.drv 0 "/p" [("method"%string, VOther "GET")]
     = inr ErrUnsupportedMethod.
Proof. repeat split. Qed.

End URLFacts.

(** ** The buffer pool *)
Module PoolFacts.

Import Driver.

(** What happens to the pool: a buffer is taken by [getbuf], a buffer is
    given back by [putbuf], or the runtime drops a buffer. *)
Inductive event : Type :=
| Acquire (pick : option nat)
| Release (p : list byte)
| Collect (i : nat).

(** The buffers [getbuf] hands out in the course of the events, and the
    pool they leave. *)
Fixpoint handed_out (d : driver) (events : list event) (pool : list (list byte))
    : list (list byte) :=
  match events with
  | [] => []
  | Acquire pick :: rest =>
      fst (Pool.getbuf d pick pool)
        :: handed_out d rest (snd (Pool.getbuf d pick pool))
  | Release p :: rest => handed_out d rest (Pool.putbuf d p pool)
  | Collect i :: rest => handed_out d rest (Pool.remove_nth i pool)
  end.

Definition clean (d : driver) (pool : list (list byte)) : Prop :=
  Forall (fun p => p = zeros d) pool.

Lemma copy_zeros (d : driver) (p : list byte) :
  length p = Z.to_nat (ChunkSize d) -> Pool.copy p (zeros d) = zeros d.
Proof.
  intros L. unfold Pool.copy, zeros. rewrite L, repeat_length.
  rewrite firstn_all2 by (rewrite repeat_length; lia).
  rewrite skipn_all2 by lia. apply app_nil_r.
Qed.

Lemma remove_nth_clean (d : driver) (pool : list (list byte)) (i : nat) :
  clean d pool -> clean d (Pool.remove_nth i pool).
Proof.
  intros C. revert i. induction C as [| p pool Hp C IH]; intros [| i];
    cbn [Pool.remove_nth]; [constructor | constructor | exact C |].
  constructor; [exact Hp | apply IH].
Qed.

Lemma getbuf_clean (d : driver) (pick : option nat) (pool : list (list byte)) :
  clean d pool ->
  fst (Pool.getbuf d pick pool) = zeros d /\ clean d (snd (Pool.getbuf d pick pool)).
Proof.
  intros C. unfold Pool.getbuf. destruct pick as [i |]; [| now split].
  destruct (nth_error pool i) as [p |] eqn:E; [| now split].
  cbn [fst snd]. split; [| now apply remove_nth_clean].
  apply nth_error_In in E. unfold clean in C. rewrite Forall_forall in C.
  now apply C.
Qed.

(** X23.  The buffers of the pool.  Starting from an empty pool, whichever
    buffers the runtime picks or drops, as long as every buffer given to
    [putbuf] has the length of a chunk (as the buffers [getbuf] hands out
    have), every buffer [getbuf] hands out holds [ChunkSize] zero bytes,
    whatever was written into the buffers in between. *)
Theorem getbuf_hands_out_zeros (d : driver) (events : list event) :
  (forall p, In (Release p) events -> length p = Z.to_nat (ChunkSize d)) ->
  Forall (fun p => p = getbuf d) (handed_out d events []).
Proof.
  assert (G : forall pool,
             clean d pool ->
             (forall p, In (Release p) events -> length p = Z.to_nat (ChunkSize d)) ->
             Forall (fun p => p = getbuf d) (handed_out d events pool)).
  { induction events as [| [pick | p | i] rest IH]; intros pool C H;
      cbn [handed_out]; [constructor | | |].
    - destruct (getbuf_clean d pick pool C) as [E C']. constructor; [exact E |].
      apply IH; trivial. intros p Hp. apply H. now right.
    - apply IH.
      + constructor; trivial. apply copy_zeros. apply H. now left.
      + intros q Hq. apply H. now right.
    - apply IH; [now apply remove_nth_clean |].
      intros q Hq. apply H. now right. }
  apply G. constructor.
Qed.

Lemma getbuf_hands_out_zeros_witness :
  Forall (fun p => p = getbuf Sample.drv)
    (handed_out Sample.drv
       [Acquire None; Release ["a"; "b"; "c"; "d"]%byte; Acquire (Some 0%nat);
        Release ["e"; "f"; "g"; "h"]%byte; Collect 0%nat; Acquire (Some 0%nat)] []).
Proof.
  apply (getbuf_hands_out_zeros Sample.drv
           [Acquire None; Release ["a"; "b"; "c"; "d"]%byte; Acquire (Some 0%nat);
            Release ["e"; "f"; "g"; "h"]%byte; Collect 0%nat; Acquire (Some 0%nat)]).
  intros p [H | [H | [H | [H | [H | [H | []]]]]]]; inversion H; reflexivity.
Defined.

(** A buffer longer than a chunk keeps its tail when it is given back:
    [copy] overwrites [ChunkSize] bytes only. *)
Example putbuf_longer_buffer :
  Pool.putbuf Sample.drv ["a"; "b"; "c"; "d"; "e"]%byte []
  = [[x00; x00; x00; x00; "e"]%byte].
Proof. reflexivity. Qed.

End PoolFacts.

(** ** A file that was put is listed *)
Module ListedFacts.

Import Strings KeyOrder S3 Driver StoreFacts PutFacts PageFacts ListFacts PathFacts.

(** [List] on a store that serves every request. *)
Lemma List_healthy (fuel : nat) (d : driver) (b : Bucket) (path : string) (c : ascii) :
  healthy b -> wf_store (objects b) ->
  Strings.last path = Some c ->
  (length (objects b) < fuel)%nat ->
  List fuel d b path
  = Some (b, inl (file_paths d (children d b path)
                  ++ directory_paths d (children d b path))).
Proof.
  intros Hb W Hc Hf. unfold List. rewrite Hc.
  change (if negb (String.eqb path "/") && negb (Ascii.eqb c "/")
          then (path ++ "/")%string else path) with
    (match Some c with
     | Some c => if negb (String.eqb path "/") && negb (Ascii.eqb c "/")
                 then (path ++ "/")%string else path
     | None => path
     end).
  rewrite <- Hc. fold (dir_path path).
  rewrite (list_with_delimiter b _ _ Hb). cbn [after_marker].
  rewrite (List_loop_healthy d b (dir_path path) Hb W fuel []); trivial.
  pose proof (listing_length (objects b) (s3Path d (dir_path path)) "/"). lia.
Qed.

Lemma TrimLeft_app_clean (t name cutset : string) :
  match name with
  | EmptyString => True
  | String a _ => inCutset a cutset = false
  end ->
  TrimLeft (t ++ name) cutset = (TrimLeft t cutset ++ name)%string.
Proof.
  intros H. induction t as [| a t IH]; cbn [append TrimLeft].
  - now apply TrimLeft_id.
  - destruct (inCutset a cutset); [exact IH | reflexivity].
Qed.

Lemma no_delim_head (name : string) :
  has_delim "/" name = false ->
  match name with
  | EmptyString => True
  | String a _ => inCutset a "/" = false
  end.
Proof.
  destruct name as [| a name]; [trivial |]. cbn [has_delim inCutset].
  intros H. apply orb_false_iff in H. destruct H as [H _].
  now rewrite Ascii.eqb_sym, H.
Qed.

(** X13.  Put, then list.  On a store that serves every request, after
    [PutContent] to a file directly under a directory, [List] of the
    directory reports the path of the file. *)
Theorem PutContent_then_List (fuel : nat) (d : driver) (b : Bucket)
    (dir name : string) (contents : list byte) (c : ascii) (rest : string) :
  healthy b -> wf_store (objects b) ->
  Strings.last dir = Some c ->
  name <> EmptyString ->
  has_delim "/" name = false ->
  (dir_path dir ++ name)%string = String "/" rest ->
  String.prefix "/" rest = false ->
  (S (length (objects b)) < fuel)%nat ->
  exists b' files,
    PutContent d b (dir_path dir ++ name) contents = (b', None)
    /\ List fuel d b' dir = Some (b', inl files)
    /\ In (dir_path dir ++ name)%string files.
Proof.
  intros Hb W Hc Nn Hd Hp Hr Hf.
  set (path := (dir_path dir ++ name)%string) in *.
  assert (K : s3Path d path = (s3Path d (dir_path dir) ++ name)%string).
  { unfold path, s3Path. rewrite <- append_assoc.
    apply TrimLeft_app_clean. now apply no_delim_head. }
  assert (Kn : s3Path d path <> EmptyString).
  { rewrite K. destruct (s3Path d (dir_path dir)); [exact Nn | discriminate]. }
  rewrite (ObjectFacts.PutContent_healthy d b path contents Hb).
  set (o := {| Data := contents; LastModified := clock b |}).
  set (b' := set_objects b _).
  assert (Hb' : healthy b') by exact Hb.
  assert (W' : wf_store (objects b')) by (apply wf_put; trivial).
  exists b', (file_paths d (children d b' dir) ++ directory_paths d (children d b' dir)).
  split; [reflexivity |]. split.
  { apply (List_healthy fuel d b' dir c); trivial.
    unfold b'. cbn [objects set_objects].
    pose proof (MoveFacts.put_length (s3Path d path) o (objects b)). lia. }
  apply in_or_app. left. unfold file_paths. apply in_map_iff.
  exists (key_of (s3Path d path, o)). split.
  - cbn [key_of KeyName fst].
    rewrite (reported_under d _ (s3Path_root d path)).
    destruct (String.eqb_spec (s3Path d "") "") as [E | E].
    + rewrite (s3Path_without_root d path E), E. cbn [String.length drop]. rewrite Hp. cbn [TrimLeft inCutset].
      rewrite Ascii.eqb_refl. cbn [orb append]. f_equal. apply TrimLeft_id.
      now apply slash_prefix.
    + rewrite (s3Path_with_root d path E), drop_app. reflexivity.
  - apply keys_of_In. unfold children.
    assert (I : In (s3Path d path, o) (objects b')).
    { apply lookup_In. unfold b'. cbn [objects set_objects]. apply lookup_put_same. }
    assert (U : String.prefix (s3Path d (dir_path dir)) (fst (s3Path d path, o)) = true).
    { cbn [fst]. rewrite K. apply prefix_app. }
    pose proof (listing_complete (objects b') (s3Path d (dir_path dir)) "/" _ W' I U) as L.
    unfold classify in L. cbn [delim_char fst] in L.
    rewrite K, drop_app, Hd in L. rewrite K. exact L.
Qed.

Lemma PutContent_then_List_witness :
  exists b' files,
    PutContent Sample.drv Sample.tree (dir_path "/a" ++ "z") Sample.abc = (b', None)
    /\ List 6 Sample.drv b' "/a" = Some (b', inl files)
    /\ In (dir_path "/a" ++ "z")%string files.
Proof.
  apply (PutContent_then_List 6 Sample.drv Sample.tree "/a" "z" Sample.abc "a" "a/z").
  - reflexivity.
  - split; cbn; repeat constructor; discriminate.
  - reflexivity.
  - discriminate.
  - reflexivity.
  - reflexivity.
  - reflexivity.
  - cbn. lia.
Defined.

End ListedFacts.

(** ** A call that reports success has read the whole source *)
Module DrainFacts.

Import S3 Driver ReadFacts ConsumedFacts SourceFacts.

(** X24.  Success means the whole source.  For a driver with a positive
    chunk size, whatever the store answers and whatever the source does,
    [WriteStream] returns, and when it returns no error it has read the
    source to its end: no byte of the source is left, and the count
    returned is the number of bytes the source held. *)
Theorem WriteStream_success_reads_all (late : bool) (d : driver) (b : Bucket)
    (path : string) (offset : Z) (r : Reader) :
  0 < ChunkSize d ->
  exists fuel0, forall fuel, (fuel0 <= fuel)%nat ->
    exists b' r' n err,
      WriteStream fuel late d b path offset r = Some (b', r', n, err)
      /\ (err = None -> rd_data r' = [] /\ n = len (rd_data r)).
Proof.
  intros Hc.
  exists (S (length (rd_data r) + Z.to_nat (ChunkSize d) + Z.to_nat offset)).
  intros fuel Hf. unfold WriteStream.
  destruct (InitMulti b (s3Path d path)) as [b1 [multi | err]].
  2:{ exists b1, r, 0, (Some err). split; [reflexivity | discriminate]. }
  set (st0 := Build_wstate _ _ _ _ _ _ _ _ _).
  destruct (body_total d path multi Hc fuel offset st0) as (st' & ret & E & G & R1 & _).
  { unfold buf_ok, st0, getbuf, zeros. cbn. apply repeat_length. }
  { reflexivity. }
  { unfold st0. cbn [reader]. lia. }
  rewrite E. destruct G as (_ & _ & out & D & T).
  unfold st0 in D, T. cbn [reader totalRead] in D, T.
  assert (K : snd ret = None -> rd_data (reader st') = [] /\ fst ret = len (rd_data r)).
  { destruct ret as [n e]. cbn [fst snd] in *. intros ->.
    pose proof (body_ends d path multi fuel offset st0 st' n eq_refl E) as Dr.
    unfold drained in Dr. split; [exact Dr |].
    rewrite D, Dr, app_nil_r. lia. }
  unfold deferred. destruct (putErrChan st') as [[putErr |] |]; cbn [fst snd];
    eexists _, _, _, _; (split; [reflexivity |]); cbn [reader];
    first [discriminate | exact K].
Qed.

Lemma WriteStream_success_reads_all_witness :
  exists fuel0, forall fuel, (fuel0 <= fuel)%nat ->
    exists b' r' n err,
      WriteStream fuel false Sample.drv
        (Sample.store [("p"%string, Sample.object Sample.abc)]
           [None; None; None; Some (OtherError "completion failed")]) "/p" 2
        (Sample.source (Sample.abc ++ Sample.abc))
      = Some (b', r', n, err)
      /\ (err = None ->
          rd_data r' = []
          /\ n = len (rd_data (Sample.source (Sample.abc ++ Sample.abc)))).
Proof.
  apply (WriteStream_success_reads_all false Sample.drv
           (Sample.store [("p"%string, Sample.object Sample.abc)]
              [None; None; None; Some (OtherError "completion failed")]) "/p" 2
           (Sample.source (Sample.abc ++ Sample.abc))).
  reflexivity.
Defined.

End DrainFacts.
